(** * Registry editor tree view: node store and view synchronisation

    A shallow embedding of [source3/utils/regedit_treeview.c].  Nodes live
    in a heap indexed by addresses; the sibling chain is a doubly linked list
    threaded through the [previous]/[next] fields, and [child_head] caches
    the first child.  Text (names, labels) lives in a second heap, because
    display items borrow the text pointers instead of copying them.  The
    functions that only draw ([tree_node_print_path] and its helper) are
    modelled by the sequence of window calls they make. *)

From stdpp Require Import gmap strings list fin_maps.

(** ** Memory model *)

(** Addresses of [struct tree_node] objects. *)
Abbreviation ptr := positive.

(** A C string pointer: a string literal (static storage) or a talloc'd
    block of the text heap. *)
Inductive cstr :=
  | Static (s : string)
  | Heap (a : positive).

(** Modelled from the spec: [struct tree_node] is declared in
    [regedit_treeview.h], which is not among the sources; the fields are the
    attributes of a TreeNode (section 3 of the spec), which are also the ones
    the functions below read and write.  A null pointer is [None]. *)
Record tree_node := TreeNode {
  name : option positive;
  label : option positive;
  parent : option ptr;
  child_head : option ptr;
  previous : option ptr;
  next : option ptr
}.

(** What [talloc_zero(ctx, struct tree_node)] hands out. *)
Definition zero_node : tree_node := TreeNode None None None None None None.

Definition set_name (v : option positive) (n : tree_node) : tree_node :=
  TreeNode v (label n) (parent n) (child_head n) (previous n) (next n).
Definition set_label (v : option positive) (n : tree_node) : tree_node :=
  TreeNode (name n) v (parent n) (child_head n) (previous n) (next n).
Definition set_parent (v : option ptr) (n : tree_node) : tree_node :=
  TreeNode (name n) (label n) v (child_head n) (previous n) (next n).
Definition set_child_head (v : option ptr) (n : tree_node) : tree_node :=
  TreeNode (name n) (label n) (parent n) v (previous n) (next n).
Definition set_previous (v : option ptr) (n : tree_node) : tree_node :=
  TreeNode (name n) (label n) (parent n) (child_head n) v (next n).
Definition set_next (v : option ptr) (n : tree_node) : tree_node :=
  TreeNode (name n) (label n) (parent n) (child_head n) (previous n) v.

(** Modelled from the spec: a display item of the menu library (display
    surface contract, section 6).  It records the two text pointers it was
    built from, without copying the text (this is why a node keeps its label
    and the view releases it together with the item), and a user pointer. *)
Record ITEM := Item {
  it_name : cstr;
  it_description : option cstr;
  it_userptr : option ptr
}.

(** Modelled from the spec: the menu widget of the same library, reduced to
    the item array it has been handed and whether it is posted. *)
Record MENU := Menu {
  menu_items : list (option positive);
  menu_posted : bool
}.

(** Modelled from the spec: [struct tree_view], declared in
    [regedit_treeview.h] as well; the fields are the attributes of a TreeView
    (section 3).  The two curses windows carry no tree state and are left
    out.  An item array is kept by value, slot by slot; a null slot is
    [None]. *)
Record tree_view := TreeView {
  root : option ptr;
  menu : option MENU;
  current_items : option (list (option positive))
}.

(** The machine state: live nodes, live text blocks, live display items, the
    outcomes of the allocation requests still to come ([true] = granted; once
    the list is exhausted every request is granted), and the log of the nodes
    given back with [talloc_free], oldest first. *)
Record state := State {
  nodes : gmap positive tree_node;
  strs : gmap positive string;
  items : gmap positive ITEM;
  oracle : list bool;
  released : list ptr
}.

Definition empty_state : state := State ∅ ∅ ∅ [] [].

Definition with_nodes (f : gmap positive tree_node → gmap positive tree_node)
    (s : state) : state :=
  State (f (nodes s)) (strs s) (items s) (oracle s) (released s).
Definition with_strs (f : gmap positive string → gmap positive string)
    (s : state) : state :=
  State (nodes s) (f (strs s)) (items s) (oracle s) (released s).
Definition with_items (f : gmap positive ITEM → gmap positive ITEM)
    (s : state) : state :=
  State (nodes s) (strs s) (f (items s)) (oracle s) (released s).
Definition with_oracle (o : list bool) (s : state) : state :=
  State (nodes s) (strs s) (items s) o (released s).
Definition log_release (p : ptr) (s : state) : state :=
  State (nodes s) (strs s) (items s) (oracle s) (released s ++ [p]).

(** ** Outcomes and the state monad *)

(** A call either returns, dies in [SMB_ASSERT] ([Panic]), goes through a
    null or dangling pointer ([Undef]), or exhausts the loop budget of the
    model ([Timeout]). *)
Inductive outcome (A : Type) :=
  | Done (a : A) (s : state)
  | Panic
  | Undef
  | Timeout.
Arguments Done {A} a s.
Arguments Panic {A}.
Arguments Undef {A}.
Arguments Timeout {A}.

Definition M (A : Type) : Type := state → outcome A.

Definition ret {A} (a : A) : M A := λ s, Done a s.
Definition bind {A B} (m : M A) (k : A → M B) : M B :=
  λ s, match m s with
       | Done a s' => k a s'
       | Panic => Panic
       | Undef => Undef
       | Timeout => Timeout
       end.

Notation "x <- m ;; k" := (bind m (λ x, k))
  (at level 100, m at next level, right associativity).
Notation "m ;; k" := (bind m (λ _, k))
  (at level 100, right associativity).

Definition get_state : M state := λ s, Done s s.
Definition modify (f : state → state) : M unit := λ s, Done tt (f s).
Definition panic {A} : M A := λ _, Panic.
Definition undef {A} : M A := λ _, Undef.
Definition timeout {A} : M A := λ _, Timeout.

(** Modelled from the spec: [SMB_ASSERT(b)], a fail-fast assertion (section 7);
    the macro is defined outside this file. *)
Definition SMB_ASSERT (b : bool) : M unit := if b then ret tt else panic.

(** Reading and writing node fields through a pointer. *)
Definition load (p : ptr) : M tree_node :=
  λ s, match nodes s !! p with Some n => Done n s | None => Undef end.
Definition store (p : ptr) (n : tree_node) : M unit :=
  λ s, match nodes s !! p with
       | Some _ => Done tt (with_nodes <[p := n]> s)
       | None => Undef
       end.
Definition upd (p : ptr) (f : tree_node → tree_node) : M unit :=
  n <- load p ;; store p (f n).

(** Reading a C string. *)
Definition read_str (c : cstr) : M string :=
  match c with
  | Static t => ret t
  | Heap a => λ s, match strs s !! a with Some t => Done t s | None => Undef end
  end.

(** Modelled from the spec: the allocation context behind [talloc_zero],
    [talloc_strdup], [talloc_asprintf], [talloc_zero_array] and [talloc_free]
    (section 5: any allocation can fail).  The next outcome of the oracle
    decides each request; a granted request gets an address that is not
    live. *)
Definition alloc_granted : M bool :=
  λ s, match oracle s with
       | [] => Done true s
       | b :: o => Done b (with_oracle o s)
       end.

(** [talloc_zero(ctx, struct tree_node)]. *)
Definition talloc_zero_node : M (option ptr) :=
  ok <- alloc_granted ;;
  if ok : bool then
    s <- get_state ;;
    let p := fresh (dom (nodes s)) in
    modify (with_nodes <[p := zero_node]>) ;; ret (Some p)
  else ret None.

(** [talloc_strdup] and [talloc_asprintf]: a new text block holding [t]. *)
Definition talloc_str (t : string) : M (option positive) :=
  ok <- alloc_granted ;;
  if ok : bool then
    s <- get_state ;;
    let a := fresh (dom (strs s)) in
    modify (with_strs <[a := t]>) ;; ret (Some a)
  else ret None.

(** [talloc_free] of a text block; a null pointer is ignored, a block that is
    not live is a double free. *)
Definition talloc_free_str (a : option positive) : M unit :=
  match a with
  | None => ret tt
  | Some a => λ s, match strs s !! a with
                   | Some _ => Done tt (with_strs (delete a) s)
                   | None => Undef
                   end
  end.

(** [talloc_free] of a node. *)
Definition talloc_free_node (p : ptr) : M unit :=
  λ s, match nodes s !! p with
       | Some _ => Done tt (log_release p (with_nodes (delete p) s))
       | None => Undef
       end.

(** ** The node store *)

Definition tree_node_new (parent_ : option ptr) (name_ : string)
    : M (option ptr) :=
  node <- talloc_zero_node ;;
  match node with
  | None => ret None
  | Some node =>
      nm <- talloc_str name_ ;;
      upd node (set_name nm) ;;
      match nm with
      | None => ret None
      | Some _ =>
          match parent_ with
          | Some p =>
              pn <- load p ;;
              (* Check if this node is the first descendant of parent. *)
              (if child_head pn is None
               then upd p (set_child_head (Some node)) else ret tt) ;;
              upd node (set_parent (Some p))
          | None => ret tt
          end ;;
          ret (Some node)
      end
  end.

Definition tree_node_append (left right : ptr) : M unit :=
  l <- load left ;;
  match next l with
  | Some ln =>
      upd right (set_next (Some ln)) ;;
      upd ln (set_previous (Some right))
  | None => ret tt
  end ;;
  upd left (set_next (Some right)) ;;
  upd right (set_previous (Some left)).

(** [tree_node_pop(&list)]: the referenced cell is a variable of the caller,
    as in [tree_node_free_recursive]; its value goes in and its new value
    comes out next to the popped node. *)
Definition tree_node_pop (plist : option ptr) : M (option ptr * option ptr) :=
  match plist with
  | None => ret (None, plist)
  | Some node =>
      n <- load node ;;
      let plist := previous n in
      let plist := if plist is None then next n else plist in
      match previous n with
      | Some pv => upd pv (set_next (next n))
      | None => ret tt
      end ;;
      n <- load node ;;
      match next n with
      | Some nx => upd nx (set_previous (previous n))
      | None => ret tt
      end ;;
      upd node (set_next None) ;;
      upd node (set_previous None) ;;
      ret (Some node, plist)
  end.

(** The [while (list && list->previous)] loop of [tree_node_first]. *)
Fixpoint walk_previous (fuel : nat) (list_ : option ptr) : M (option ptr) :=
  match list_ with
  | None => ret None
  | Some p =>
      n <- load p ;;
      match previous n with
      | None => ret list_
      | Some q =>
          match fuel with
          | O => timeout
          | S fuel => walk_previous fuel (Some q)
          end
      end
  end.

Definition tree_node_first (fuel : nat) (list_ : option ptr) : M (option ptr) :=
  match list_ with
  | None => undef
  | Some p =>
      n <- load p ;;
      match parent n with
      | Some par =>
          (* Grab the first node in this list from the parent if available. *)
          pn <- load par ;; ret (child_head pn)
      | None => walk_previous fuel list_
      end
  end.

Definition is_null {A} (o : option A) : bool := if o is None then true else false.

Definition tree_node_free (node : ptr) : M unit :=
  n <- load node ;;
  SMB_ASSERT (is_null (child_head n)) ;;
  SMB_ASSERT (is_null (next n)) ;;
  SMB_ASSERT (is_null (previous n)) ;;
  talloc_free_str (name n) ;;
  talloc_free_node node.

(** The [while] loop of [tree_node_free_recursive]; the recursive call on a
    child chain enters the same loop, its null test having been made by the
    caller. *)
Fixpoint free_chain (fuel : nat) (list_ : option ptr) : M unit :=
  match fuel with
  | O => timeout
  | S fuel =>
      r <- tree_node_pop list_ ;;
      match r with
      | (None, _) => ret tt
      | (Some node, list_) =>
          n <- load node ;;
          (if child_head n is Some _
           then free_chain fuel (child_head n) else ret tt) ;;
          upd node (set_child_head None) ;;
          tree_node_free node ;;
          free_chain fuel list_
      end
  end.

Definition tree_node_free_recursive (fuel : nat) (list_ : option ptr) : M unit :=
  match list_ with
  | None => ret tt
  | Some _ => free_chain fuel list_
  end.

(** ** The display library *)

(** Modelled from the spec: the menu library is not part of the sources; its
    functions follow the contract the view relies on (section 6): an item
    constructor that keeps the text pointers it is given and yields null when
    it gets no name or no storage, a user pointer per item, and a menu that
    is handed an item array and is posted or un-posted.  Left out: that the
    library also refuses an empty name and an array without items, and that
    it gives an item back only when no menu holds it; the theorems about
    building and releasing items say where they assume these cases away. *)
Definition new_item (nm description : option cstr) : M (option positive) :=
  match nm with
  | None => ret None
  | Some c =>
      ok <- alloc_granted ;;
      if ok : bool then
        s <- get_state ;;
        let i := fresh (dom (items s)) in
        modify (with_items <[i := Item c description None]>) ;; ret (Some i)
      else ret None
  end.

Definition load_item (i : positive) : M ITEM :=
  λ s, match items s !! i with Some it => Done it s | None => Undef end.

(** A null item stands for the library's default item, which is not part of
    the model. *)
Definition set_item_userptr (i : option positive) (p : option ptr) : M unit :=
  match i with
  | None => ret tt
  | Some i =>
      it <- load_item i ;;
      modify (with_items <[i := Item (it_name it) (it_description it) p]>)
  end.

Definition item_userptr (i : positive) : M (option ptr) :=
  it <- load_item i ;; ret (it_userptr it).

Definition free_item (i : positive) : M unit :=
  _ <- load_item i ;; modify (with_items (delete i)).

Definition new_menu (arr : list (option positive)) : M (option MENU) :=
  ok <- alloc_granted ;;
  ret (if ok : bool then Some (Menu arr false) else None).

Definition unpost_menu (m : option MENU) : option MENU :=
  (λ mn, Menu (menu_items mn) false) <$> m.
Definition post_menu (m : option MENU) : option MENU :=
  (λ mn, Menu (menu_items mn) true) <$> m.
Definition set_menu_items (m : option MENU) (arr : list (option positive))
    : option MENU :=
  (λ mn, Menu arr (menu_posted mn)) <$> m.

(** ** The view *)

(** Modelled from the spec: the two [WERROR] values this file returns;
    [W_ERROR_HAVE_NO_MEMORY(x)] returns [WERR_NOMEM] when [x] is null. *)
Inductive WERROR := WERR_OK | WERR_NOMEM.

Definition set_menu (m : option MENU) (v : tree_view) : tree_view :=
  TreeView (root v) m (current_items v).
Definition set_current_items (a : option (list (option positive)))
    (v : tree_view) : tree_view :=
  TreeView (root v) (menu v) a.

(** [talloc_zero_array(ctx, ITEM **, n)]. *)
Definition talloc_zero_array (n : nat) : M (option (list (option positive))) :=
  ok <- alloc_granted ;;
  ret (if ok : bool then Some (replicate n None) else None).

(** The [for] loop of [tree_view_free_current_items]: it stops at the first
    null slot; an array without one is overrun. *)
Fixpoint free_items_loop (arr : list (option positive)) : M unit :=
  match arr with
  | [] => undef
  | None :: _ => ret tt
  | Some item :: arr =>
      tmp <- item_userptr item ;;
      match tmp with
      | Some p =>
          n <- load p ;;
          if label n is Some _
          then talloc_free_str (label n) ;; upd p (set_label None)
          else ret tt
      | None => ret tt
      end ;;
      free_item item ;;
      free_items_loop arr
  end.

Definition tree_view_free_current_items (view : tree_view) : M tree_view :=
  match current_items view with
  | None => ret view
  | Some arr =>
      free_items_loop arr ;;
      ret (set_current_items None view)
  end.

(** The counting loop of [tree_view_update]. *)
Fixpoint count_next (fuel : nat) (tmp : option ptr) (n_items : nat) : M nat :=
  match tmp with
  | None => ret n_items
  | Some p =>
      match fuel with
      | O => timeout
      | S fuel => n <- load p ;; count_next fuel (next n) (S n_items)
      end
  end.

(** The building loop of [tree_view_update]; [None] is the early return of
    [W_ERROR_HAVE_NO_MEMORY(tmp->label)]. *)
Fixpoint build_items (fuel : nat) (i : nat) (tmp : option ptr)
    (arr : list (option positive)) : M (option (list (option positive))) :=
  match tmp with
  | None => ret (Some arr)
  | Some p =>
      match fuel with
      | O => timeout
      | S fuel =>
          n <- load p ;;
          r <- (if child_head n is Some _ then
                  (* Add a '+' marker to indicate that the item has
                     descendants. *)
                  SMB_ASSERT (is_null (label n)) ;;
                  nm <- (if name n is Some a then read_str (Heap a) else undef) ;;
                  l <- talloc_str ("+" +:+ nm)%string ;;
                  upd p (set_label l) ;;
                  ret (if l is Some a then Some (Some (Heap a)) else None)
                else ret (Some (Heap <$> name n))) ;;
          match r with
          | None => ret None
          | Some lbl =>
              item <- new_item lbl (Heap <$> name n) ;;
              (if decide (i < length arr) then ret tt else undef) ;;
              set_item_userptr item (Some p) ;;
              build_items fuel (S i) (next n) (<[i := item]> arr)
          end
      end
  end.

Definition tree_view_update (fuel : nat) (view : tree_view) (list_ : option ptr)
    : M (WERROR * tree_view) :=
  let list_ := if list_ is None then root view else list_ in
  n_items <- count_next fuel list_ 0 ;;
  arr <- talloc_zero_array (n_items + 1) ;;
  match arr with
  | None => ret (WERR_NOMEM, view)
  | Some arr =>
      r <- build_items fuel 0 list_ arr ;;
      match r with
      | None => ret (WERR_NOMEM, view)
      | Some arr =>
          let view := set_menu (unpost_menu (menu view)) view in
          let view := set_menu (set_menu_items (menu view) arr) view in
          view <- tree_view_free_current_items view ;;
          ret (WERR_OK, set_current_items (Some arr) view)
      end
  end.

Definition tree_view_show (view : tree_view) : tree_view :=
  set_menu (post_menu (menu view)) view.

Definition dummy : string := "12345"%string.

(** [tree_view_new]; the result of the first update is dropped, as in the
    source.  The view block and the two windows are not objects of the heap
    of the model: what becomes of them when the function returns null after
    the view was granted is not represented. *)
Definition tree_view_new (fuel : nat) (root_ : option ptr) : M (option tree_view) :=
  ok <- alloc_granted ;;
  if ok : bool then
    arr <- talloc_zero_array 2 ;;
    match arr with
    | None => ret None
    | Some arr =>
        item <- new_item (Some (Static dummy)) (Some (Static dummy)) ;;
        let arr := <[0 := item]> arr in
        m <- new_menu arr ;;
        r <- tree_view_update fuel (TreeView root_ m (Some arr)) root_ ;;
        ret (Some (snd r))
    end
  else ret None.

Definition tree_view_free (fuel : nat) (view : tree_view) : M unit :=
  let view := set_menu None view in
  view <- tree_view_free_current_items view ;;
  tree_node_free_recursive fuel (root view).

(** ** Drawing the path of a node *)

(** Modelled from the spec: the curses calls [tree_node_print_path] makes on
    its window; the window itself is part of the display surface (section 6)
    and is represented by the calls it receives, in order. *)
Inductive draw :=
  | wmove (y x : nat)
  | wclrtoeol
  | wprintw (text : string)
  | wnoutrefresh
  | wrefresh.

(** [print_path_recursive]; the result is the sequence of calls made. *)
Fixpoint print_path_recursive (fuel : nat) (node : ptr) : M (list draw) :=
  match fuel with
  | O => timeout
  | S fuel =>
      n <- load node ;;
      above <- (if parent n is Some par
                then print_path_recursive fuel par else ret []) ;;
      nm <- (if name n is Some a then read_str (Heap a) else undef) ;;
      ret (above ++ [wprintw (nm +:+ "/")%string])
  end.

(** [tree_node_print_path]: print the path of node to label. *)
Definition tree_node_print_path (fuel : nat) (node : option ptr)
    : M (list draw) :=
  match node with
  | None => ret []
  | Some p =>
      n <- load p ;;
      above <- (if parent n is Some par
                then print_path_recursive fuel par else ret []) ;;
      ret ([wmove 0 0; wclrtoeol; wprintw "/"; wmove 0 0] ++ above ++
           [wnoutrefresh; wrefresh])
  end.

(** ** Reading a state *)

(** The items of a null-terminated array, up to the first null slot. *)
Fixpoint array_items (arr : list (option positive)) : list positive :=
  match arr with
  | Some i :: arr => i :: array_items arr
  | _ => []
  end.

(** The item list a view currently shows. *)
Definition posted_items (view : tree_view) : list positive :=
  if current_items view is Some arr then array_items arr else [].

(** The text behind a C string pointer, if it is still live. *)
Definition text_of (s : state) (c : cstr) : option string :=
  match c with
  | Static t => Some t
  | Heap a => strs s !! a
  end.

(** What an item displays, and the node it points back to. *)
Definition item_text (s : state) (i : positive) : option string :=
  it ← items s !! i; text_of s (it_name it).
Definition item_node (s : state) (i : positive) : option ptr :=
  it ← items s !! i; it_userptr it.

(** Field readers on a state. *)
Definition field {A} (f : tree_node → A) (s : state) (p : ptr) : option A :=
  f <$> nodes s !! p.

Definition node_name (s : state) (p : ptr) : option string :=
  n ← nodes s !! p; a ← name n; strs s !! a.
Definition node_label (s : state) (p : ptr) : option string :=
  n ← nodes s !! p; a ← label n; strs s !! a.

(** Running a computation for its state or its result. *)
Definition exec {A} (m : M A) (s : state) : state :=
  match m s with Done _ s' => s' | _ => s end.
Definition eval {A} (m : M A) (s : state) : option A :=
  match m s with Done a _ => Some a | _ => None end.

(** * Specification vocabulary *)

(** ** Well-formed sibling chains *)

(** The head of [l], or [d] when [l] is empty. *)
Definition hd_or (l : list ptr) (d : option ptr) : option ptr :=
  match l with
  | [] => d
  | x :: _ => Some x
  end.

(** [links s prv l nxt]: the nodes of [l] are live and linked to each other
    in this order, the first one having [prv] before it and the last one
    [nxt] after it. *)
Fixpoint links (s : state) (prv : option ptr) (l : list ptr)
    (nxt : option ptr) : Prop :=
  match l with
  | [] => True
  | x :: l' =>
      field previous s x = Some prv ∧
      field next s x = Some (hd_or l' nxt) ∧
      links s (Some x) l' nxt
  end.

(** A sibling chain: distinct nodes, doubly linked, null at both ends. *)
Definition chain (s : state) (l : list ptr) : Prop :=
  NoDup l ∧ links s None l None.

(** A client that pops through one chain reference until it is null and
    collects what it got. *)
Fixpoint pop_all (fuel : nat) (plist : option ptr) : M (list ptr) :=
  match fuel with
  | O => timeout
  | S fuel =>
      r <- tree_node_pop plist ;;
      match r with
      | (None, _) => ret []
      | (Some node, plist) => rest <- pop_all fuel plist ;; ret (node :: rest)
      end
  end.

(** A client that performs a sequence of appends, each one given as the pair
    of the node to insert after and the node to insert. *)
Fixpoint appends (ops : list (ptr * ptr)) : M unit :=
  match ops with
  | [] => ret tt
  | (l, r) :: ops => tree_node_append l r ;; appends ops
  end.

(** The chain order after one append and after a sequence of them. *)
Fixpoint insert_after (left right : ptr) (l : list ptr) : list ptr :=
  match l with
  | [] => []
  | x :: l' =>
      if decide (x = left) then x :: right :: l'
      else x :: insert_after left right l'
  end.

Fixpoint chain_after (l : list ptr) (ops : list (ptr * ptr)) : list ptr :=
  match ops with
  | [] => l
  | (a, r) :: ops => chain_after (insert_after a r l) ops
  end.

(** The appends of [ops] each insert, after a node of the chain, a live node
    that is not in the chain yet, has no sibling links, and was created under
    the parent [par] of the chain. *)
Fixpoint appendable (s : state) (par : option ptr) (l : list ptr)
    (ops : list (ptr * ptr)) : Prop :=
  match ops with
  | [] => True
  | (a, r) :: ops =>
      a ∈ l ∧ (r ∉ l) ∧
      field previous s r = Some None ∧
      field next s r = Some None ∧
      field parent s r = Some par ∧
      appendable s par (insert_after a r l) ops
  end.

(** ** What the node store operations do to the fields *)

(** Two states that differ at most in the sibling links of their nodes. *)
Record same_payload (s s' : state) : Prop := {
  sp_parent : ∀ q, field parent s' q = field parent s q;
  sp_child_head : ∀ q, field child_head s' q = field child_head s q;
  sp_name : ∀ q, field name s' q = field name s q;
  sp_label : ∀ q, field label s' q = field label s q;
  sp_strs : strs s' = strs s;
  sp_items : items s' = items s;
  sp_oracle : oracle s' = oracle s;
  sp_released : released s' = released s
}.

(** What [tree_node_pop] does at the node [x] whose neighbours are [pv] and
    [nx]. *)
Record pop_post (s s' : state) (x : ptr) (pv nx : option ptr) : Prop := {
  pop_next : ∀ q, field next s' q =
      if decide (q = x) then Some None
      else if decide (pv = Some q) then Some nx else field next s q;
  pop_previous : ∀ q, field previous s' q =
      if decide (q = x) then Some None
      else if decide (nx = Some q) then Some pv else field previous s q;
  pop_frame : ∀ q, q ≠ x → pv ≠ Some q → nx ≠ Some q →
      nodes s' !! q = nodes s !! q;
  pop_payload : same_payload s s'
}.

(** What [tree_node_append a r] does when [nx] follows [a]. *)
Record append_post (s s' : state) (a r : ptr) (nx : option ptr) : Prop := {
  app_next : ∀ q, field next s' q =
      if decide (q = a) then Some (Some r)
      else if decide (q = r) then Some nx else field next s q;
  app_previous : ∀ q, field previous s' q =
      if decide (q = r) then Some (Some a)
      else if decide (nx = Some q) then Some (Some r)
      else field previous s q;
  app_payload : same_payload s s'
}.

(** What a chain headed by [h] under the parent [par] looks like. *)
Definition headed (h : ptr) (par : option ptr) (s : state) (l : list ptr)
    : Prop :=
  chain s l ∧ head l = Some h ∧
  (∀ x, x ∈ l → field parent s x = Some par) ∧
  (∀ p, par = Some p → field child_head s p = Some (Some h)).

(** ** Trees *)

(** The shape of a tree in the heap: the address of its root, the text block
    of its name, and the trees of its child chain, in chain order. *)
#[local] Unset Elimination Schemes.
Inductive tree :=
  Tree (t_root : ptr) (t_name : option positive) (t_kids : list tree).

#[local] Set Elimination Schemes.

Definition t_root (t : tree) : ptr := match t with Tree x _ _ => x end.
Definition t_name (t : tree) : option positive :=
  match t with Tree _ a _ => a end.
Definition t_kids (t : tree) : list tree := match t with Tree _ _ ks => ks end.

(** The nodes of a tree, its name blocks, and the order in which the child
    chain of every node comes before the node. *)
Fixpoint flat (t : tree) : list ptr :=
  match t with Tree x _ ks => x :: flat_map flat ks end.

Fixpoint names (t : tree) : list positive :=
  match t with Tree _ a ks => option_list a ++ flat_map names ks end.

Fixpoint post_order (t : tree) : list ptr :=
  match t with Tree x _ ks => flat_map post_order ks ++ [x] end.

(** The heap holds the tree [t]: the root has the name block of [t], its
    [child_head] is the head of its child chain, the children are linked as a
    chain and are trees of the heap themselves. *)
Fixpoint tree_ok (s : state) (t : tree) : Prop :=
  match t with
  | Tree x a ks =>
      field name s x = Some a ∧
      field child_head s x = Some (head (t_root <$> ks)) ∧
      links s None (t_root <$> ks) None ∧
      foldr (λ k P, tree_ok s k ∧ P) True ks
  end.

(** The heap holds the trees [ts], their roots linked as one chain. *)
Definition forest_ok (s : state) (ts : list tree) : Prop :=
  links s None (t_root <$> ts) None ∧ Forall (tree_ok s) ts.

(** From [s] to [s'] the nodes [ps] and the text blocks [bs] have been given
    back, the nodes in the order [order], and nothing else has changed. *)
Record freed (s s' : state) (ps : list ptr) (bs : list positive)
    (order : list ptr) : Prop := {
  fr_nodes : ∀ q,
      nodes s' !! q = if decide (q ∈ ps) then None else nodes s !! q;
  fr_strs : ∀ a,
      strs s' !! a = if decide (a ∈ bs) then None else strs s !! a;
  fr_items : items s' = items s;
  fr_oracle : oracle s' = oracle s;
  fr_released : released s' = released s ++ order
}.

(** A tree and all the trees below it. *)
Fixpoint subtrees (t : tree) : list tree :=
  match t with Tree _ _ ks => t :: flat_map subtrees ks end.

(** ** What an update may change *)

(** The building loop of an update only writes label fields, and only adds
    text blocks and items. *)
Record grows (s s' : state) : Prop := {
  g_nodes : ∀ q, set_label None <$> nodes s' !! q
                 = set_label None <$> nodes s !! q;
  g_label : ∀ q a, field label s q = Some (Some a) →
                   field label s' q = Some (Some a);
  g_strs : strs s ⊆ strs s';
  g_items : items s ⊆ items s';
  g_released : released s' = released s
}.

(** One step of the building loop: an item is built, checked against the
    array bound, and given its user pointer. *)
Definition put_item (lbl d : option cstr) (i : nat)
    (arr : list (option positive)) (p : ptr) : M (option positive) :=
  item <- new_item lbl d ;;
  (if decide (i < length arr) then ret tt else undef) ;;
  set_item_userptr item (Some p) ;;
  ret item.

(** The step before it: the display text of the node, which is its name, or
    a fresh "+name" kept in the node; [None] when that text cannot be
    allocated. *)
Definition derive_label (p : ptr) (n : tree_node)
    : M (option (option cstr)) :=
  if child_head n is Some _ then
    SMB_ASSERT (is_null (label n)) ;;
    nm <- (if name n is Some a then read_str (Heap a) else undef) ;;
    l <- talloc_str ("+" +:+ nm)%string ;;
    upd p (set_label l) ;;
    ret (if l is Some a then Some (Some (Heap a)) else None)
  else ret (Some (Heap <$> name n)).

(** The nodes reached from [x] by following [next] up to null. *)
Fixpoint nexts (s : state) (x : option ptr) (l : list ptr) : Prop :=
  match l with
  | [] => x = None
  | p :: l' =>
      x = Some p ∧
      match field next s p with
      | Some nx => nexts s nx l'
      | None => False
      end
  end.

(** A node carries label text only while the list on display refers to it. *)
Definition label_inv (s : state) (view : tree_view) : Prop :=
  ∀ p a, field label s p = Some (Some a) →
         ∃ i, i ∈ posted_items view ∧ item_node s i = Some p.

(** An operation that writes no label and touches no item. *)
Definition keeps_labels (s s' : state) : Prop :=
  (∀ q a, field label s' q = Some (Some a) →
          field label s q = Some (Some a)) ∧
  items s' = items s.

(** A computation all of whose runs keep the labels. *)
Definition keeps {A} (m : M A) : Prop :=
  ∀ s a s', m s = Done a s' → keeps_labels s s'.

(** The release loop only clears label fields, and only removes text blocks
    and items. *)
Record shrinks (s s' : state) : Prop := {
  sh_nodes : ∀ q, set_label None <$> nodes s' !! q
                  = set_label None <$> nodes s !! q;
  sh_label : ∀ q a, field label s' q = Some (Some a) →
                    field label s q = Some (Some a);
  sh_null : ∀ q, field label s q = Some None → field label s' q = Some None;
  sh_strs : strs s' ⊆ strs s;
  sh_items : items s' ⊆ items s;
  sh_released : released s' = released s
}.

(** The body of the release loop for one item. *)
Definition free_step (item : positive) : M unit :=
  tmp <- item_userptr item ;;
  match tmp with
  | Some p =>
      n <- load p ;;
      if label n is Some _
      then talloc_free_str (label n) ;; upd p (set_label None)
      else ret tt
  | None => ret tt
  end ;;
  free_item item.

(** What the building loop has done when it runs to the end of the chain:
    [l] is the chain it walked, [i] the slot of its first node. *)
Record built (s s' : state) (l : list ptr) (i : nat)
    (arr arr' : list (option positive)) : Prop := {
  b_label : ∀ q a, field label s' q = Some (Some a) →
      field label s q = Some (Some a) ∨ q ∈ l;
  b_assert : ∀ q, q ∈ l → field child_head s q ≠ Some None →
      field label s q = Some None;
  b_length : length arr' = length arr;
  b_bound : i + length l ≤ length arr;
  b_before : ∀ k, k < i → arr' !! k = arr !! k;
  b_slots : ∀ k p, l !! k = Some p →
      ∃ o, arr' !! (i + k) = Some o ∧
        ∀ it, o = Some it →
          items s !! it = None ∧
          ∃ It, items s' !! it = Some It ∧ it_userptr It = Some p
}.

(** The allocation requests the building loop makes for one node, when it
    gets past it: the label and the item of a node with children, the item
    of a childless node that has a name. *)
Definition requests_of (n : tree_node) : nat :=
  if child_head n is Some _ then 2 else if name n is Some _ then 1 else 0.

(** The requests it makes for the nodes of [l]. *)
Fixpoint requests (s : state) (l : list ptr) : nat :=
  match l with
  | [] => 0
  | q :: l' => from_option requests_of 0 (nodes s !! q) + requests s l'
  end.

(** ** What an update puts on display *)

(** Text blocks are owned the way the allocator hands them out: names and
    labels point to live blocks, and no block is both a label and a name. *)
Record text_ok (s : state) : Prop := {
  names_live : ∀ q a, field name s q = Some (Some a) → is_Some (strs s !! a);
  labels_live : ∀ q a, field label s q = Some (Some a) → is_Some (strs s !! a);
  label_not_name : ∀ q p a,
      field label s q = Some (Some a) → field name s p ≠ Some (Some a)
}.

(** What the item of the node [p] is to display: its name, with the marker
    "+" in front when the node has descendants. *)
Definition shows (s : state) (p : ptr) : option string :=
  match field child_head s p with
  | Some (Some _) => (λ nm, "+" +:+ nm)%string <$> node_name s p
  | _ => node_name s p
  end.

(** What the item in a slot of the new array is made of. *)
Definition item_made (s s' : state) (p : ptr) (it : positive) : Prop :=
  ∃ It, items s' !! it = Some It ∧
    ((field child_head s p = Some None ∧
      ∃ a, field name s p = Some (Some a) ∧ it_name It = Heap a) ∨
     (∃ c a nm, field child_head s p = Some (Some c) ∧
        it_name It = Heap a ∧
        field label s' p = Some (Some a) ∧
        strs s !! a = None ∧
        node_name s p = Some nm ∧
        strs s' !! a = Some ("+" +:+ nm)%string)).

(** [text_ok] as a check that runs on a given state. *)
Definition live_text (s : state) (o : option positive) : bool :=
  if o is Some a then bool_decide (is_Some (strs s !! a)) else true.
Definition same_block (o1 o2 : option positive) : bool :=
  match o1, o2 with
  | Some a, Some b => bool_decide (a = b)
  | _, _ => false
  end.
Definition text_okb (s : state) : bool :=
  let ns := (map_to_list (nodes s)).*2 in
  forallb (λ n, live_text s (name n) && live_text s (label n) &&
                forallb (λ m, negb (same_block (label n) (name m))) ns) ns.

(** ** Well-formed views and granted requests *)

(** The next [k] allocation requests are granted. *)
Definition grants (k : nat) (s : state) : Prop :=
  forallb id (take k (oracle s)) = true.

(** The items [its] are distinct live items, and the user pointer of each is
    null or a live node. *)
Record items_ok (s : state) (its : list positive) : Prop := {
  io_nodup : NoDup its;
  io_live : ∀ i, i ∈ its → is_Some (items s !! i);
  io_node : ∀ i p, i ∈ its → item_node s i = Some p → is_Some (nodes s !! p)
}.

(** Every label is a live text block that no other node has as label. *)
Record labels_ok (s : state) : Prop := {
  lo_live : ∀ q a, field label s q = Some (Some a) → is_Some (strs s !! a);
  lo_inj : ∀ p q a, field label s p = Some (Some a) →
                    field label s q = Some (Some a) → p = q
}.

(** No allocation request to come is refused. *)
Definition all_granted (s : state) : Prop := forallb id (oracle s) = true.

(** Every node of [l] has a live name, and the ones with a child carry no
    label: what the building loop of an update needs to get through. *)
Definition displayable (s : state) (l : list ptr) : Prop :=
  ∀ q, q ∈ l →
    (∃ a, field name s q = Some (Some a) ∧ is_Some (strs s !! a)) ∧
    (field child_head s q ≠ Some None → field label s q = Some None).

(** The list of a view is a null-terminated array of well-formed items, in
    a heap with well-formed labels. *)
Record view_ok (s : state) (view : tree_view) : Prop := {
  vo_labels : labels_ok s;
  vo_items : items_ok s (posted_items view);
  vo_null : ∀ arr, current_items view = Some arr →
      ∃ rest, arr = (Some <$> array_items arr) ++ None :: rest
}.

(** No item of [its] is held by the menu of the view.  The display library
    gives an item back only when no menu holds it. *)
Definition off_menu (view : tree_view) (its : list positive) : Prop :=
  ∀ m i, menu view = Some m → i ∈ its → Some i ∉ menu_items m.

(** A text the item constructor of the display library does not turn down:
    not empty, and printable from end to end. *)
Definition printable (c : Ascii.ascii) : bool :=
  Nat.leb 32 (Ascii.nat_of_ascii c) && Nat.leb (Ascii.nat_of_ascii c) 126.
Definition accepted_text (t : string) : bool :=
  match t with
  | EmptyString => false
  | String _ _ => forallb printable (String.list_ascii_of_string t)
  end.

(** Every node of [l] has a name that the display library accepts. *)
Definition accepted (s : state) (l : list ptr) : Prop :=
  ∀ q, q ∈ l → ∃ t, node_name s q = Some t ∧ accepted_text t = true.

(** The nodes reached from [x] by following [parent] up to null, nearest
    first. *)
Fixpoint parents (s : state) (x : option ptr) (l : list ptr) : Prop :=
  match l with
  | [] => x = None
  | p :: l' =>
      x = Some p ∧
      match field parent s p with
      | Some up => parents s up l'
      | None => False
      end
  end.

(** A client that creates a node under [par] and appends it after the node
    [a] of the chain (the content-population contract). *)
Definition add_after (par : option ptr) (a : ptr) (nm : string)
    : M (option ptr) :=
  node <- tree_node_new par nm ;;
  match node with
  | Some r => tree_node_append a r ;; ret (Some r)
  | None => ret None
  end.

(** [labels_ok] as a check that runs on a given state. *)
Definition labels_okb (s : state) : bool :=
  let ns := map_to_list (nodes s) in
  forallb (λ qn : ptr * tree_node,
             live_text s (label qn.2) &&
             forallb (λ qn' : ptr * tree_node,
                        negb (same_block (label qn.2) (label qn'.2))
                        || bool_decide (qn.1 = qn'.1)) ns) ns.

(** ** Scenarios *)

(** A parent "p" (node 1) with the children "c1" and "c2" (nodes 2 and 3) in
    one chain. *)
Definition family : state :=
  exec (tree_node_new None "p" ;;
        tree_node_new (Some 1%positive) "c1" ;;
        tree_node_new (Some 1%positive) "c2" ;;
        tree_node_append 2 3) empty_state.

(** A parent (node 1) and three nodes created under it (nodes 2, 3, 4), not
    yet chained. *)
Definition brood : state :=
  exec (tree_node_new None "p" ;;
        tree_node_new (Some 1%positive) "c1" ;;
        tree_node_new (Some 1%positive) "c2" ;;
        tree_node_new (Some 1%positive) "c3") empty_state.

(** The root chain "a", "b", "c" (nodes 1, 2, 3); "b" has the single child
    "b1" (node 4). *)
Definition abc : state :=
  exec (tree_node_new None "a" ;;
        tree_node_new None "b" ;;
        tree_node_new None "c" ;;
        tree_node_append 1 2 ;;
        tree_node_append 2 3 ;;
        tree_node_new (Some 2%positive) "b1") empty_state.

Definition abc_forest : list tree :=
  [Tree 1 (Some 1%positive) [];
   Tree 2 (Some 2%positive) [Tree 4 (Some 4%positive) []];
   Tree 3 (Some 3%positive) []].

(** The view as [tree_view_new] has built it at the point where it calls
    [tree_view_update]: a placeholder item is on display. *)
Definition tree_view_shell (root_ : option ptr) : M tree_view :=
  alloc_granted ;;
  arr <- talloc_zero_array 2 ;;
  item <- new_item (Some (Static dummy)) (Some (Static dummy)) ;;
  let arr := <[0 := item]> (default [] arr) in
  m <- new_menu arr ;;
  ret (TreeView root_ m (Some arr)).

(** A view showing the items [its] of the tree rooted at node 1. *)
Definition showing (its : list positive) : tree_view :=
  let arr := (Some <$> its) ++ [None] in
  TreeView (Some 1%positive) (Some (Menu arr false)) (Some arr).

(** What the items on display show and point back to. *)
Definition texts (s : state) (v : tree_view) : list (option string) :=
  item_text s <$> posted_items v.
Definition back_refs (s : state) (v : tree_view) : list (option ptr) :=
  item_node s <$> posted_items v.

(** [abc] with a view that still shows the placeholder, after the first
    update, and after the update to the child chain of "b". *)
Definition abc0 : state := exec (tree_view_shell (Some 1%positive)) abc.
Definition abc1 : state :=
  exec (tree_view_update 5 (showing [1%positive]) (Some 1%positive)) abc0.
Definition abc2 : state :=
  exec (tree_view_update 5 (showing [2; 3; 4]%positive) (Some 4%positive)) abc1.

(** A root "a" (node 1) shown by a view while it has no child; then it gets
    the child "a1" (node 2). *)
Definition shown : state :=
  exec (tree_node_new None "a" ;;
        tree_view_new 5 (Some 1%positive) ;;
        tree_node_new (Some 1%positive) "a1") empty_state.

(** Two siblings "a" and "b" (nodes 1 and 2), each with one child, under a
    view that shows the placeholder; the fourth allocation request to come
    (the label of "b") will be refused. *)
Definition pair : state :=
  with_oracle [true; true; true; false]
    (exec (tree_node_new None "a" ;;
           tree_node_new None "b" ;;
           tree_node_append 1 2 ;;
           tree_node_new (Some 1%positive) "a1" ;;
           tree_node_new (Some 2%positive) "b1" ;;
           tree_view_shell (Some 1%positive)) empty_state).
Definition pair_failed : state :=
  exec (tree_view_update 5 (showing [1%positive]) (Some 1%positive)) pair.

(** A parent that already exists when the allocation of a child's name is
    refused. *)
Definition lone_parent : state :=
  with_oracle [true; false] (exec (tree_node_new None "p") empty_state).

(** [brood] with its first two children chained; a single root "a". *)
Definition brood23 : state := exec (tree_node_append 2 3) brood.
Definition lone : state := exec (tree_node_new None "a") empty_state.

(** * Proofs *)

(** ** Reasoning about the monad and the primitives *)

Lemma bind_Done {A B} (m : M A) (k : A → M B) s a s' :
  m s = Done a s' → bind m k s = k a s'.
Proof. unfold bind. by intros ->. Qed.

Lemma bind_inv {A B} (m : M A) (k : A → M B) s b s2 :
  bind m k s = Done b s2 → ∃ a s1, m s = Done a s1 ∧ k a s1 = Done b s2.
Proof. unfold bind. destruct (m s); [eauto | done..]. Qed.

Lemma ret_inv {A} (a b : A) s s' : ret a s = Done b s' → a = b ∧ s = s'.
Proof. unfold ret. by intros [= -> ->]. Qed.

Lemma load_Done p n s : nodes s !! p = Some n → load p s = Done n s.
Proof. unfold load. by intros ->. Qed.

Lemma load_inv p n s s' : load p s = Done n s' → nodes s !! p = Some n ∧ s' = s.
Proof. unfold load. destruct (nodes s !! p); by intros [= -> ->]. Qed.

Lemma upd_Done p f n s :
  nodes s !! p = Some n → upd p f s = Done tt (with_nodes <[p := f n]> s).
Proof. intros H. unfold upd, bind, load, store. rewrite H. simpl. by rewrite H. Qed.

Lemma upd_inv p f u s s' :
  upd p f s = Done u s' →
  ∃ n, nodes s !! p = Some n ∧ s' = with_nodes <[p := f n]> s.
Proof.
  unfold upd, bind, load, store. destruct (nodes s !! p) eqn:E; [|done].
  simpl. rewrite E. intros [= <-]. eauto.
Qed.

Lemma fresh_node s : nodes s !! fresh (dom (nodes s)) = None.
Proof. apply not_elem_of_dom, is_fresh. Qed.

Lemma fresh_str s : strs s !! fresh (dom (strs s)) = None.
Proof. apply not_elem_of_dom, is_fresh. Qed.

Lemma fresh_item s : items s !! fresh (dom (items s)) = None.
Proof. apply not_elem_of_dom, is_fresh. Qed.

Lemma field_insert {A} (f : tree_node → A) s p n q :
  field f (with_nodes <[p := n]> s) q
  = if decide (p = q) then Some (f n) else field f s q.
Proof.
  unfold field. simpl. rewrite lookup_insert.
  by destruct (decide (p = q)).
Qed.

Lemma field_Some {A} (f : tree_node → A) s p v :
  field f s p = Some v ↔ ∃ n, nodes s !! p = Some n ∧ f n = v.
Proof.
  unfold field. destruct (nodes s !! p) as [n|]; simpl; split.
  - intros [= <-]. eauto.
  - by intros (? & [= <-] & <-).
  - done.
  - by intros (? & ? & _).
Qed.

Ltac unfold_new :=
  unfold tree_node_new, talloc_zero_node, talloc_str, alloc_granted, upd,
    load, store, get_state, modify, bind, ret.

Ltac look :=
  repeat first
    [ rewrite lookup_insert_eq
    | rewrite lookup_insert_ne by congruence
    | match goal with H : _ !! _ = _ |- _ => rewrite H end
    | match goal with H : oracle _ = _ |- _ => rewrite H end
    | progress simpl ].

(** C10: when [tree_node_new] under a parent [p] fails because the node or
    the copy of its name cannot be allocated, it returns null and every node
    that was live, [p] included, is exactly as before; when it succeeds, the
    name of the new node is in place and [child_head] of [p] is the new node
    if it was null and is unchanged otherwise. *)
Theorem tree_node_new_failure_keeps_parent (p : ptr) (pn : tree_node)
    (name_ : string) (s : state) :
  nodes s !! p = Some pn →
  (∀ o, oracle s = false :: o →
        tree_node_new (Some p) name_ s = Done None (with_oracle o s)) ∧
  (∀ o, oracle s = true :: false :: o →
        ∃ s', tree_node_new (Some p) name_ s = Done None s') ∧
  (∀ s', tree_node_new (Some p) name_ s = Done None s' →
        nodes s' !! p = Some pn ∧
        ∀ q n, nodes s !! q = Some n → nodes s' !! q = Some n) ∧
  (∀ node s', tree_node_new (Some p) name_ s = Done (Some node) s' →
        nodes s !! node = None ∧
        node_name s' node = Some name_ ∧
        field child_head s' p
        = Some (if child_head pn is None then Some node else child_head pn)).
Proof.
  intros Hp.
  pose proof (fresh_node s) as Hfresh.
  assert (p ≠ fresh (dom (nodes s))) as Hne by congruence.
  split_and!.
  - intros o Ho. unfold_new. by rewrite Ho.
  - intros o Ho. unfold_new. rewrite Ho. look. eauto.
  - intros s'. unfold_new.
    destruct (oracle s) as [|[] [|[] o]] eqn:Ho; look; try done.
    all: try (destruct (child_head pn); look; done).
    all: intros [= <-]; simpl; try done.
    all: split; [|intros q n Hq]; by look.
  - intros nd s'. unfold_new.
    destruct (oracle s) as [|[] [|[] o]] eqn:Ho; look; try done.
    all: destruct (child_head pn) eqn:Ech; look.
    all: intros [= <- <-]; split; [done|].
    all: unfold node_name, field; look; by rewrite ?Ech.
Qed.

(** *** Chains *)

Lemma hd_or_snoc l a d : hd_or (l ++ [a]) d = hd_or l (Some a).
Proof. by destruct l. Qed.

Lemma hd_or_None l : hd_or l None = head l.
Proof. by destruct l. Qed.

Lemma links_app s prv l1 l2 nxt :
  links s prv (l1 ++ l2) nxt ↔
  links s prv l1 (hd_or l2 nxt) ∧ links s (hd_or (reverse l1) prv) l2 nxt.
Proof.
  revert prv. induction l1 as [|a l1 IH]; intros prv; simpl.
  - tauto.
  - rewrite reverse_cons, hd_or_snoc, IH.
    destruct l1; simpl; tauto.
Qed.

Lemma links_ext s s' prv l nxt :
  (∀ q, q ∈ l → field previous s' q = field previous s q
               ∧ field next s' q = field next s q) →
  links s prv l nxt → links s' prv l nxt.
Proof.
  revert prv. induction l as [|a l IH]; intros prv Hq; simpl; [done|].
  intros (Hp & Hn & Hl).
  destruct (Hq a) as [-> ->]; [left|].
  split_and!; try done. apply IH; [|done].
  intros q Hin. apply Hq. by right.
Qed.

Lemma links_live s prv l nxt x :
  links s prv l nxt → x ∈ l → is_Some (nodes s !! x).
Proof.
  revert prv. induction l as [|a l IH]; intros prv; simpl.
  - intros _ Hin. by apply elem_of_nil in Hin.
  - intros (Hp & _ & Hl) [->|Hin]%elem_of_cons; [|by eapply IH].
    apply field_Some in Hp as (n & -> & _). eauto.
Qed.

Ltac unfold_ops :=
  unfold tree_node_pop, tree_node_append, upd, load, store, bind, ret.

Ltac fields :=
  intros; unfold field; simpl; rewrite ?lookup_insert;
  repeat case_decide; simplify_eq; simpl; try done;
  repeat match goal with
         | H : ?m !! ?x = Some _ |- context [?m !! ?x] => rewrite H
         end; simpl; try done.

Lemma tree_node_pop_Done s x n :
  nodes s !! x = Some n →
  (∀ a, previous n = Some a → a ≠ x ∧ is_Some (nodes s !! a)) →
  (∀ b, next n = Some b →
        b ≠ x ∧ is_Some (nodes s !! b) ∧ previous n ≠ Some b) →
  ∃ s', tree_node_pop (Some x) s
        = Done (Some x, if previous n is None then next n else previous n) s'
      ∧ pop_post s s' x (previous n) (next n).
Proof.
  intros Hx Hpv Hnx.
  destruct (previous n) as [a|] eqn:Ea; destruct (next n) as [b|] eqn:Eb.
  - destruct (Hpv a eq_refl) as (Hax & [na Ha]).
    destruct (Hnx b eq_refl) as (Hbx & [nb Hb] & Hab).
    assert (a ≠ b) by congruence.
    eexists. split.
    + unfold_ops. rewrite Hx. simpl. rewrite Ea, Eb. look. rewrite Ea, Eb. look.
      reflexivity.
    + split; [| | |split]; fields.
  - destruct (Hpv a eq_refl) as (Hax & [na Ha]).
    eexists. split.
    + unfold_ops. rewrite Hx. simpl. rewrite Ea, Eb. look. rewrite Eb. look.
      reflexivity.
    + split; [| | |split]; fields.
  - destruct (Hnx b eq_refl) as (Hbx & [nb Hb] & Hab).
    eexists. split.
    + unfold_ops. rewrite Hx. simpl. rewrite Ea, Eb. look. rewrite Ea, Eb. look.
      reflexivity.
    + split; [| | |split]; fields.
  - eexists. split.
    + unfold_ops. rewrite Hx. simpl. rewrite Ea, Eb. look. rewrite Eb. look.
      reflexivity.
    + split; [| | |split]; fields.
Qed.

Lemma chain_cursor s ls x rs :
  chain s (reverse ls ++ x :: rs) →
  ∃ n, nodes s !! x = Some n ∧ previous n = head ls ∧ next n = head rs ∧
    (∀ a, previous n = Some a → a ≠ x ∧ is_Some (nodes s !! a)) ∧
    (∀ b, next n = Some b →
          b ≠ x ∧ is_Some (nodes s !! b) ∧ previous n ≠ Some b).
Proof.
  intros [Hnd Hl].
  pose proof Hl as Hl0.
  apply links_app in Hl as [_ Hl]. rewrite reverse_involutive in Hl.
  simpl in Hl. destruct Hl as (Hp & Hn & _).
  rewrite hd_or_None in Hp, Hn.
  apply field_Some in Hp as (n & Hx & Hp).
  apply field_Some in Hn as (n' & Hx' & Hn). simplify_eq.
  exists n. split_and!; try done.
  - intros a Ha. rewrite Hp in Ha.
    assert (a ∈ reverse ls) as Hin.
    { apply elem_of_reverse. destruct ls; simplify_eq/=. left. }
    split.
    + intros ->. apply NoDup_app in Hnd as (_ & Hd & _).
      apply (Hd x Hin). left.
    + eapply links_live; [done|]. apply elem_of_app. by left.
  - intros b Hb. rewrite Hn in Hb.
    assert (b ∈ rs) as Hin by (destruct rs; simplify_eq/=; left).
    apply NoDup_app in Hnd as (_ & Hd & Hnd).
    apply NoDup_cons in Hnd as [Hx1 _].
    split_and!.
    + by intros ->.
    + eapply links_live; [done|]. apply elem_of_app. right. by right.
    + rewrite Hp. intros Hh.
      apply (Hd b); [|by right].
      apply elem_of_reverse. destruct ls; simplify_eq/=. left.
Qed.

Lemma pop_post_chain s s' ls x rs :
  chain s (reverse ls ++ x :: rs) →
  pop_post s s' x (head ls) (head rs) →
  chain s' (reverse ls ++ rs).
Proof.
  intros [Hnd Hl] Hpost.
  assert (NoDup (reverse ls ++ rs) ∧ (x ∉ reverse ls) ∧ (x ∉ rs)
          ∧ ∀ q, q ∈ reverse ls → q ∉ rs) as (Hnd' & Hxl & Hxr & Hdisj).
  { apply NoDup_app in Hnd as (H1 & H2 & H3).
    apply NoDup_cons in H3 as [H3 H4].
    split_and!; try done.
    - apply NoDup_app. split_and!; try done.
      intros q Hq Hq'. apply (H2 q Hq). by right.
    - intros Hx. apply (H2 x Hx). left.
    - intros q Hq Hq'. apply (H2 q Hq). by right. }
  split; [done|].
  apply links_app in Hl as [Hl1 Hl2]. rewrite reverse_involutive in Hl2.
  simpl in Hl1, Hl2. destruct Hl2 as (Hxp & Hxn & Hl2).
  apply links_app. rewrite reverse_involutive. split.
  - (* the part before the popped node *)
    destruct ls as [|a ls]; [done|].
    rewrite reverse_cons in *.
    apply links_app in Hl1 as [Hl1 Hla]. rewrite reverse_involutive in Hla.
    simpl in Hla. destruct Hla as (Hap & Han & _).
    assert (a ≠ x) as Hax.
    { intros ->. apply Hxl, elem_of_app. right. left. }
    assert (head rs ≠ Some a) as Har.
    { intros Hh. apply (Hdisj a).
      - apply elem_of_app. right. left.
      - destruct rs; simplify_eq/=. left. }
    apply links_app. rewrite reverse_involutive. split.
    + eapply links_ext; [|exact Hl1].
      intros q Hq.
      assert (q ≠ x).
      { intros ->. apply Hxl, elem_of_app. by left. }
      assert (q ≠ a).
      { intros ->. apply NoDup_app in Hnd' as (Hnd' & _).
        apply NoDup_app in Hnd' as (_ & Hd & _). apply (Hd a Hq). left. }
      assert (head rs ≠ Some q).
      { intros Hh. apply (Hdisj q).
        - apply elem_of_app. by left.
        - destruct rs; simplify_eq/=. left. }
      rewrite (pop_next _ _ _ _ _ Hpost), (pop_previous _ _ _ _ _ Hpost).
      repeat case_decide; simplify_eq/=; try congruence; done.
    + simpl. rewrite (pop_next _ _ _ _ _ Hpost), (pop_previous _ _ _ _ _ Hpost).
      rewrite <- !hd_or_None.
      repeat case_decide; simplify_eq/=; try congruence; done.
  - (* the part after it *)
    destruct rs as [|b rs]; [done|].
    simpl in Hl2. destruct Hl2 as (Hbp & Hbn & Hl2).
    assert (b ≠ x) as Hbx.
    { intros ->. apply Hxr. left. }
    assert (head ls ≠ Some b) as Hlb.
    { intros Hh. apply (Hdisj b); [|left].
      apply elem_of_reverse. destruct ls; simplify_eq/=. left. }
    simpl. rewrite (pop_next _ _ _ _ _ Hpost), (pop_previous _ _ _ _ _ Hpost).
    rewrite <- !hd_or_None.
    split_and!; [repeat case_decide; simplify_eq/=; try congruence; done..|].
    eapply links_ext; [|exact Hl2].
    intros q Hq.
    assert (q ≠ x).
    { intros ->. apply Hxr. by right. }
    assert (q ≠ b).
    { intros ->. apply NoDup_app in Hnd' as (_ & _ & Hnd').
      by apply NoDup_cons in Hnd' as [? _]. }
    assert (head ls ≠ Some q).
    { intros Hh. apply (Hdisj q); [|by right].
      apply elem_of_reverse. destruct ls; simplify_eq/=. left. }
    rewrite (pop_next _ _ _ _ _ Hpost), (pop_previous _ _ _ _ _ Hpost).
    repeat case_decide; simplify_eq/=; try congruence; done.
Qed.

(** Popping at a node of a chain. *)
Lemma tree_node_pop_chain s ls x rs :
  chain s (reverse ls ++ x :: rs) →
  ∃ s', tree_node_pop (Some x) s = Done (Some x, hd_or ls (head rs)) s'
      ∧ pop_post s s' x (head ls) (head rs)
      ∧ chain s' (reverse ls ++ rs).
Proof.
  intros Hc.
  destruct (chain_cursor _ _ _ _ Hc) as (n & Hx & Hp & Hn & Hpv & Hnx).
  destruct (tree_node_pop_Done s x n Hx Hpv Hnx) as (s' & Hpop & Hpost).
  rewrite Hp, Hn in Hpop, Hpost.
  exists s'. split_and!; try done.
  - rewrite Hpop. by destruct ls.
  - by eapply pop_post_chain.
Qed.

Lemma pop_all_S fuel plist :
  pop_all (S fuel) plist =
  (r <- tree_node_pop plist ;;
   match r with
   | (None, _) => ret []
   | (Some node, plist) => rest <- pop_all fuel plist ;; ret (node :: rest)
   end).
Proof. done. Qed.

Lemma pop_all_chain fuel : ∀ s ls rs,
  chain s (reverse ls ++ rs) →
  length ls + length rs < fuel →
  ∃ s', pop_all fuel (hd_or ls (head rs)) s = Done (ls ++ rs) s'.
Proof.
  induction fuel as [|fuel IH]; intros s ls rs Hc Hlen; [lia|].
  destruct ls as [|x ls].
  - destruct rs as [|x rs].
    + exists s. done.
    + destruct (tree_node_pop_chain s [] x rs Hc) as (s1 & Hpop & _ & Hc1).
      destruct (IH s1 [] rs Hc1) as (s2 & Hrest); [simpl in *; lia|].
      exists s2. rewrite pop_all_S. rewrite (bind_Done _ _ _ _ _ Hpop).
      by rewrite (bind_Done _ _ _ _ _ Hrest).
  - rewrite reverse_cons, <- app_assoc in Hc. simpl in Hc.
    destruct (tree_node_pop_chain s ls x rs Hc) as (s1 & Hpop & _ & Hc1).
    destruct (IH s1 ls rs Hc1) as (s2 & Hrest); [simpl in *; lia|].
    exists s2. rewrite pop_all_S. rewrite (bind_Done _ _ _ _ _ Hpop).
    by rewrite (bind_Done _ _ _ _ _ Hrest).
Qed.

(** C5: [tree_node_pop] on a null reference returns null and changes
    nothing; on a reference to the node [x] of a chain it returns [x] with
    its two links null, links the former neighbours of [x] to each other,
    and advances the reference to the previous neighbour if there is one and
    to the next one otherwise; popping through that single reference until it
    is null returns every node of the chain: [x], the nodes before it going
    backwards, then the nodes after it. *)
Theorem tree_node_pop_spec (s : state) (ls rs : list ptr) (x : ptr)
    (fuel : nat) :
  chain s (reverse ls ++ x :: rs) →
  length ls + length rs + 1 < fuel →
  tree_node_pop None s = Done (None, None) s ∧
  (∃ s', tree_node_pop (Some x) s
         = Done (Some x, if head ls is None then head rs else head ls) s' ∧
       field previous s' x = Some None ∧
       field next s' x = Some None ∧
       (∀ a, head ls = Some a → field next s' a = Some (head rs)) ∧
       (∀ b, head rs = Some b → field previous s' b = Some (head ls)) ∧
       chain s' (reverse ls ++ rs)) ∧
  (∃ s', pop_all fuel (Some x) s = Done (x :: ls ++ rs) s').
Proof.
  intros Hc Hlen. split; [done|]. split.
  - destruct (tree_node_pop_chain s ls x rs Hc) as (s' & Hpop & Hpost & Hc').
    pose proof (chain_cursor _ _ _ _ Hc) as (n & Hx & Hp & Hn & Hpv & Hnx).
    exists s'. split_and!; try done.
    + rewrite Hpop. by destruct ls.
    + rewrite (pop_previous _ _ _ _ _ Hpost). by rewrite decide_True.
    + rewrite (pop_next _ _ _ _ _ Hpost). by rewrite decide_True.
    + intros a Ha. rewrite (pop_next _ _ _ _ _ Hpost).
      rewrite decide_False, decide_True; [done..|].
      rewrite <- Hp in Ha. by apply Hpv.
    + intros b Hb. rewrite (pop_previous _ _ _ _ _ Hpost).
      rewrite decide_False, decide_True; [done..|].
      rewrite <- Hn in Hb. by apply Hnx.
  - apply (pop_all_chain fuel s (x :: ls) rs).
    + by rewrite reverse_cons, <- app_assoc.
    + simpl. lia.
Qed.

Lemma tree_node_append_Done s a r na nr :
  nodes s !! a = Some na → nodes s !! r = Some nr → a ≠ r →
  next nr = None →
  (∀ b, next na = Some b → b ≠ a ∧ b ≠ r ∧ is_Some (nodes s !! b)) →
  ∃ s', tree_node_append a r s = Done tt s'
      ∧ append_post s s' a r (next na).
Proof.
  intros Ha Hr Har Hrn Hnx.
  destruct (next na) as [b|] eqn:Eb.
  - destruct (Hnx b eq_refl) as (Hba & Hbr & [nb Hb]).
    eexists. split.
    + unfold_ops. rewrite Ha. simpl. rewrite Eb. look. reflexivity.
    + split; [| |split]; fields.
  - eexists. split.
    + unfold_ops. rewrite Ha. simpl. rewrite Eb. look. reflexivity.
    + split; [| |split]; fields. by rewrite Hrn.
Qed.

Lemma insert_after_app a r l1 l2 :
  a ∉ l1 → insert_after a r (l1 ++ a :: l2) = l1 ++ a :: r :: l2.
Proof.
  induction l1 as [|x l1 IH]; intros Hin; simpl.
  - by rewrite decide_True.
  - rewrite decide_False.
    + rewrite IH; [done|]. intros ?. apply Hin. by right.
    + intros ->. apply Hin. left.
Qed.

Lemma append_post_chain s s' l1 a r l2 :
  chain s (l1 ++ a :: l2) → r ∉ l1 ++ a :: l2 →
  append_post s s' a r (head l2) →
  chain s' (l1 ++ a :: r :: l2).
Proof.
  intros [Hnd Hl] Hr Hpost.
  assert ((r ∉ l1) ∧ r ≠ a ∧ (r ∉ l2)) as (Hr1 & Hra & Hr2).
  { rewrite elem_of_app, elem_of_cons in Hr. naive_solver. }
  pose proof Hnd as Hnd0.
  apply NoDup_app in Hnd as (Hnd1 & Hd & Hnd2).
  apply NoDup_cons in Hnd2 as [Ha2 Hnd2].
  split.
  - apply NoDup_app. split_and!; [done| |].
    + intros q Hq [->|[->|Hq']%elem_of_cons]%elem_of_cons.
      * apply (Hd a Hq). left.
      * done.
      * apply (Hd q Hq). by right.
    + apply NoDup_cons. split.
      * intros [->|?]%elem_of_cons; done.
      * apply NoDup_cons. done.
  - apply links_app in Hl as [Hl1 Hl2]. simpl in Hl1, Hl2.
    destruct Hl2 as (Hap & Han & Hl2).
    apply links_app. split.
    + eapply links_ext; [|exact Hl1].
      intros q Hq.
      assert (q ≠ a) by (intros ->; apply (Hd a Hq); left).
      assert (q ≠ r) by (by intros ->).
      assert (head l2 ≠ Some q).
      { intros Hh. apply (Hd q Hq). right. destruct l2; simplify_eq/=. left. }
      rewrite (app_next _ _ _ _ _ Hpost), (app_previous _ _ _ _ _ Hpost).
      repeat case_decide; simplify_eq/=; try congruence; done.
    + assert (head l2 ≠ Some a).
      { intros Hh. apply Ha2. destruct l2; simplify_eq/=. left. }
      assert (head l2 ≠ Some r).
      { intros Hh. apply Hr2. destruct l2; simplify_eq/=. left. }
      simpl. rewrite !(app_next _ _ _ _ _ Hpost), !(app_previous _ _ _ _ _ Hpost).
      rewrite <- !hd_or_None.
      split_and!; [repeat case_decide; simplify_eq/=; try congruence; done..|].
      destruct l2 as [|b l2]; [done|].
      simpl in Hl2. destruct Hl2 as (Hbp & Hbn & Hl2).
      apply NoDup_cons in Hnd2 as [Hb2 Hnd2].
      assert (b ≠ a) by (intros ->; apply Ha2; left).
      assert (b ≠ r) by (intros ->; apply Hr2; left).
      simpl. rewrite !(app_next _ _ _ _ _ Hpost), !(app_previous _ _ _ _ _ Hpost).
      split_and!; [repeat case_decide; simplify_eq/=; try congruence; done..|].
      eapply links_ext; [|exact Hl2].
      intros q Hq.
      assert (q ≠ a) by (intros ->; apply Ha2; by right).
      assert (q ≠ r) by (intros ->; apply Hr2; by right).
      assert (q ≠ b) by (by intros ->).
      rewrite (app_next _ _ _ _ _ Hpost), (app_previous _ _ _ _ _ Hpost).
      repeat case_decide; simplify_eq/=; try congruence; done.
Qed.

(** Appending a detached node after a node of a chain. *)
Lemma tree_node_append_chain s l a r :
  chain s l → a ∈ l → r ∉ l →
  field previous s r = Some None → field next s r = Some None →
  ∃ s' nx, tree_node_append a r s = Done tt s'
      ∧ append_post s s' a r nx
      ∧ chain s' (insert_after a r l)
      ∧ (∀ q, q ∈ insert_after a r l ↔ q = r ∨ q ∈ l)
      ∧ head (insert_after a r l) = head l
      ∧ (∀ b, nx = Some b → b ∈ l).
Proof.
  intros Hc Ha Hr Hrp Hrn.
  apply list_elem_of_split_l in Ha as (l1 & l2 & -> & Ha1).
  rewrite insert_after_app by done.
  pose proof Hc as [Hnd Hl].
  apply links_app in Hl as [_ Hl]. simpl in Hl.
  destruct Hl as (_ & Han & Hl2). rewrite hd_or_None in Han.
  apply field_Some in Han as (na & Hna & Han).
  apply field_Some in Hrn as (nr & Hnr & Hrn).
  assert (a ≠ r) as Har.
  { intros ->. apply Hr, elem_of_app. right. left. }
  apply NoDup_app in Hnd as (_ & _ & Hnd2).
  apply NoDup_cons in Hnd2 as [Ha2 _].
  destruct (tree_node_append_Done s a r na nr Hna Hnr Har Hrn) as (s' & Happ & Hpost).
  { intros b Hb. rewrite Han in Hb.
    assert (b ∈ l2) as Hin by (destruct l2; simplify_eq/=; left).
    split_and!.
    - by intros ->.
    - intros ->. apply Hr, elem_of_app. right. by right.
    - eapply links_live; [exact Hl2|done]. }
  rewrite Han in Hpost.
  exists s', (head l2). split_and!; try done.
  - by eapply append_post_chain.
  - intros q. rewrite !elem_of_app, !elem_of_cons. tauto.
  - by destruct l1.
  - intros b Hb. apply elem_of_app. right. right.
    destruct l2; simplify_eq/=. left.
Qed.

Lemma walk_previous_links s ls x rs nxt fuel :
  links s None (reverse ls ++ x :: rs) nxt → length ls ≤ fuel →
  walk_previous fuel (Some x) s = Done (head (reverse ls ++ [x])) s.
Proof.
  revert x rs fuel. induction ls as [|a ls IH]; intros x rs fuel Hl Hlen.
  - simpl in Hl. destruct Hl as (Hp & _).
    apply field_Some in Hp as (n & Hn & Hp).
    destruct fuel; simpl; unfold bind, load; rewrite Hn; simpl; by rewrite Hp.
  - pose proof Hl as Hl0.
    apply links_app in Hl as [_ Hl]. rewrite reverse_involutive in Hl.
    simpl in Hl. destruct Hl as (Hp & _).
    apply field_Some in Hp as (n & Hn & Hp).
    destruct fuel as [|fuel]; [simpl in Hlen; lia|].
    simpl. unfold bind, load. rewrite Hn. simpl. rewrite Hp.
    rewrite reverse_cons, <- app_assoc in Hl0. simpl in Hl0.
    rewrite (IH a (x :: rs) fuel Hl0) by (simpl in Hlen; lia).
    rewrite reverse_cons, <- app_assoc. simpl.
    by destruct (reverse ls).
Qed.

Lemma insert_after_length a r l :
  a ∈ l → length (insert_after a r l) = S (length l).
Proof.
  induction l as [|x l IH]; simpl.
  - intros H. by apply elem_of_nil in H.
  - intros Hin. case_decide; simpl; [done|].
    rewrite IH; [done|]. apply elem_of_cons in Hin as [->|]; done.
Qed.

Lemma insert_after_incl a r l q : q ∈ l → q ∈ insert_after a r l.
Proof.
  induction l as [|x l IH]; simpl; [done|].
  intros [->|Hin]%elem_of_cons; case_decide; subst.
  - left.
  - left.
  - right. by right.
  - right. by apply IH.
Qed.

Lemma appendable_ext s s' par l ops :
  (∀ q, q ∉ l → field previous s' q = field previous s q
               ∧ field next s' q = field next s q
               ∧ field parent s' q = field parent s q) →
  appendable s par l ops → appendable s' par l ops.
Proof.
  revert l. induction ops as [|[a r] ops IH]; intros l Hq; simpl; [done|].
  intros (Ha & Hr & Hp & Hn & Hpar & Hrest).
  destruct (Hq r Hr) as (-> & -> & ->).
  split_and!; try done.
  apply IH; [|done].
  intros q Hin. apply Hq. intros ?. by apply Hin, insert_after_incl.
Qed.

Lemma chain_after_length s par l ops :
  appendable s par l ops → length (chain_after l ops) = length l + length ops.
Proof.
  revert l. induction ops as [|[a r] ops IH]; intros l; simpl; [lia|].
  intros (Ha & _ & _ & _ & _ & Hrest).
  rewrite (IH _ Hrest), insert_after_length by done. lia.
Qed.

Section appends.
Variables (h : ptr) (par : option ptr).

Lemma appends_headed ops : ∀ s l,
  headed h par s l → appendable s par l ops →
  ∃ s', appends ops s = Done tt s' ∧ headed h par s' (chain_after l ops).
Proof.
  induction ops as [|[a r] ops IH]; intros s l Hh Happ; simpl.
  - by exists s.
  - destruct Hh as (Hc & Hhd & Hpar & Hch).
    destruct Happ as (Ha & Hr & Hrp & Hrn & Hrpar & Hrest).
    destruct (tree_node_append_chain s l a r Hc Ha Hr Hrp Hrn)
      as (s1 & nx & Happ & Hpost & Hc1 & Hin1 & Hhd1 & Hnx).
    destruct (IH s1 (insert_after a r l)) as (s2 & Hrun & Hh2).
    + split_and!; try done.
      * congruence.
      * intros x [->|Hx]%Hin1;
          rewrite (sp_parent _ _ (app_payload _ _ _ _ _ Hpost)); auto.
      * intros p Hp.
        rewrite (sp_child_head _ _ (app_payload _ _ _ _ _ Hpost)); auto.
    + eapply appendable_ext; [|exact Hrest].
      intros q Hq.
      assert (q ≠ r) by (intros ->; apply Hq, Hin1; by left).
      assert (q ≠ a) by (intros ->; apply Hq, Hin1; by right).
      assert (nx ≠ Some q).
      { intros Hb. apply Hq, Hin1. right. by apply Hnx. }
      rewrite (app_next _ _ _ _ _ Hpost), (app_previous _ _ _ _ _ Hpost).
      rewrite (sp_parent _ _ (app_payload _ _ _ _ _ Hpost)).
      repeat case_decide; simplify_eq/=; try congruence; done.
    + exists s2. by rewrite (bind_Done _ _ _ _ _ Happ).
Qed.

Lemma tree_node_first_headed s l x fuel :
  headed h par s l → x ∈ l → length l ≤ S fuel →
  tree_node_first fuel (Some x) s = Done (Some h) s.
Proof.
  intros (Hc & Hhd & Hpar & Hch) Hx Hlen.
  pose proof (Hpar x Hx) as Hxp.
  apply field_Some in Hxp as (n & Hn & Hxp).
  unfold tree_node_first. rewrite (bind_Done _ _ _ _ _ (load_Done _ _ _ Hn)).
  rewrite Hxp. destruct par as [p|].
  - pose proof (Hch p eq_refl) as Hp.
    apply field_Some in Hp as (pn & Hpn & Hp).
    rewrite (bind_Done _ _ _ _ _ (load_Done _ _ _ Hpn)). by rewrite Hp.
  - apply list_elem_of_split in Hx as (l1 & l2 & ->).
    destruct Hc as [_ Hl].
    rewrite <- (reverse_involutive l1) in Hl.
    rewrite (walk_previous_links _ _ _ _ _ _ Hl).
    + rewrite reverse_involutive.
      rewrite <- Hhd. by destruct l1.
    + rewrite length_reverse. rewrite length_app in Hlen. simpl in Hlen. lia.
Qed.
End appends.

(** C6: start from a chain made of the single node [h], whose parent (if
    any) has [h] as its [child_head], and append, each time after some node of
    the chain, nodes that are not yet in it, have no sibling links and were
    created under the same parent.  Then [tree_node_first] returns [h] on
    every node of the resulting chain, through [child_head] when the chain
    has a parent and by walking the [previous] links when it has none. *)
Theorem tree_node_first_after_appends (s : state) (h : ptr) (par : option ptr)
    (ops : list (ptr * ptr)) (x : ptr) (fuel : nat) :
  chain s [h] →
  field parent s h = Some par →
  (∀ p, par = Some p → field child_head s p = Some (Some h)) →
  appendable s par [h] ops →
  x ∈ chain_after [h] ops →
  length ops ≤ fuel →
  ∃ s', appends ops s = Done tt s' ∧
        chain s' (chain_after [h] ops) ∧
        tree_node_first fuel (Some x) s' = Done (Some h) s'.
Proof.
  intros Hc Hp Hch Happ Hx Hlen.
  destruct (appends_headed h par ops s [h]) as (s' & Hrun & Hh); [|done|].
  { split_and!; try done. by intros y ->%list_elem_of_singleton. }
  exists s'. split_and!; [done|apply Hh|].
  eapply tree_node_first_headed; [done..|].
  rewrite (chain_after_length _ _ _ _ Happ). simpl. lia.
Qed.

Lemma tree_ind2 (P : tree → Prop) :
  (∀ x a ks, Forall P ks → P (Tree x a ks)) → ∀ t, P t.
Proof.
  intros H. fix IH 1. intros [x a ks]. apply H.
  induction ks as [|k ks IHks]; constructor; [apply IH | exact IHks].
Qed.

Lemma tree_ok_unfold s x a ks :
  tree_ok s (Tree x a ks) ↔
  field name s x = Some a ∧
  field child_head s x = Some (head (t_root <$> ks)) ∧
  forest_ok s ks.
Proof.
  unfold forest_ok. simpl.
  assert (foldr (λ k P, tree_ok s k ∧ P) True ks ↔ Forall (tree_ok s) ks) as ->.
  { induction ks as [|k ks IH]; simpl.
    - split; [constructor|done].
    - rewrite Forall_cons, IH. done. }
  tauto.
Qed.

Lemma elem_of_flat_map {A B} (f : A → list B) (l : list A) (y : B) :
  y ∈ flat_map f l ↔ ∃ x, x ∈ l ∧ y ∈ f x.
Proof.
  rewrite list_elem_of_In, in_flat_map.
  by setoid_rewrite list_elem_of_In.
Qed.

Lemma elem_of_flat_map_reverse {A B} (f : A → list B) (l : list A) (y : B) :
  y ∈ flat_map f (reverse l) ↔ y ∈ flat_map f l.
Proof.
  rewrite !elem_of_flat_map. by setoid_rewrite elem_of_reverse.
Qed.

Lemma t_root_flat t : t_root t ∈ flat t.
Proof. destruct t. left. Qed.

Lemma roots_flat ts q : q ∈ t_root <$> ts → q ∈ flat_map flat ts.
Proof.
  intros (t & -> & Ht)%list_elem_of_fmap.
  apply elem_of_flat_map. exists t. split; [done|apply t_root_flat].
Qed.

Lemma NoDup_flat_map_split {A B} (f : A → list B) l1 t l2 :
  NoDup (flat_map f (l1 ++ t :: l2)) →
  NoDup (f t) ∧ NoDup (flat_map f (l1 ++ l2)) ∧
  (∀ q, q ∈ f t → q ∉ flat_map f (l1 ++ l2)).
Proof.
  rewrite !flat_map_app. simpl.
  intros (H1 & H2 & H3)%NoDup_app.
  apply NoDup_app in H3 as (H3 & H4 & H5).
  split_and!; [done| |].
  - apply NoDup_app. split_and!; [done| |done].
    intros q Hq Hq'. apply (H2 q Hq), elem_of_app. by right.
  - intros q Hq [Hq'|Hq']%elem_of_app.
    + apply (H2 q Hq'), elem_of_app. by left.
    + by apply (H4 q Hq).
Qed.

Lemma NoDup_roots ts : NoDup (flat_map flat ts) → NoDup (t_root <$> ts).
Proof.
  induction ts as [|[x a ks] ts IH]; simpl; [constructor|].
  intros [Hx Hnd]%NoDup_cons.
  apply NoDup_app in Hnd as (_ & _ & Hnd).
  apply NoDup_cons. split; [|by apply IH].
  intros Hin. apply Hx, elem_of_app. right. by apply roots_flat.
Qed.

(** Well-formedness only looks at the nodes of the tree. *)
Lemma tree_ok_agree s s' t :
  (∀ q, q ∈ flat t → nodes s' !! q = nodes s !! q) →
  tree_ok s t → tree_ok s' t.
Proof.
  induction t as [x a ks IH] using tree_ind2.
  intros Hq. rewrite !tree_ok_unfold. unfold forest_ok, field.
  rewrite (Hq x) by left.
  intros (Hn & Hc & Hl & Hks). split_and!; try done.
  - eapply links_ext; [|exact Hl].
    intros q Hin. unfold field.
    rewrite (Hq q); [done|]. right. by apply roots_flat.
  - rewrite Forall_forall in IH, Hks. apply Forall_forall.
    intros k Hk. apply IH; [done| |by apply Hks].
    intros q Hin. apply Hq. right.
    apply elem_of_flat_map. eauto.
Qed.

Lemma forest_ok_agree s s' ts :
  (∀ q, q ∈ flat_map flat ts → nodes s' !! q = nodes s !! q) →
  forest_ok s ts → forest_ok s' ts.
Proof.
  intros Hq [Hl Hts]. split.
  - eapply links_ext; [|exact Hl].
    intros q Hin. unfold field. by rewrite (Hq q) by by apply roots_flat.
  - rewrite Forall_forall in Hts. apply Forall_forall.
    intros t Ht. eapply tree_ok_agree; [|by apply Hts].
    intros q Hin. apply Hq, elem_of_flat_map. eauto.
Qed.

(** A tree stays well formed when only the sibling links of its root
    change. *)
Lemma tree_ok_root_links s s' t :
  field name s' (t_root t) = field name s (t_root t) →
  field child_head s' (t_root t) = field child_head s (t_root t) →
  (∀ q, q ∈ flat_map flat (t_kids t) → nodes s' !! q = nodes s !! q) →
  tree_ok s t → tree_ok s' t.
Proof.
  destruct t as [x a ks]. cbn [t_root t_kids]. intros Hn Hc Hq.
  rewrite !tree_ok_unfold, Hn, Hc.
  intros (? & ? & Hks). split_and!; try done.
  by eapply forest_ok_agree.
Qed.

Lemma kids_not_roots ts t q :
  NoDup (flat_map flat ts) → t ∈ ts → q ∈ flat_map flat (t_kids t) →
  q ∉ t_root <$> ts.
Proof.
  induction ts as [|t0 ts IH]; [by intros _ ?%elem_of_nil|].
  simpl. intros (Hnd0 & Hdisj & Hnd)%NoDup_app Ht Hq.
  rewrite elem_of_cons.
  apply elem_of_cons in Ht as [->|Ht].
  - destruct t0 as [x a ks]. simpl in *.
    apply NoDup_cons in Hnd0 as [Hx _].
    intros [->|Hin]; [done|].
    apply (Hdisj q); [by right|by apply roots_flat].
  - assert (q ∈ flat_map flat ts) as Hq'.
    { apply elem_of_flat_map. exists t. split; [done|].
      destruct t; simpl in *. by right. }
    intros [->|Hin].
    + apply (Hdisj (t_root t0)); [apply t_root_flat|done].
    + by apply (IH Hnd Ht Hq).
Qed.

(** *** Composing releases *)

Lemma freed_refl s : freed s s [] [] [].
Proof.
  split; try done. by rewrite app_nil_r.
Qed.

Lemma freed_trans s1 s2 s3 ps1 ps2 bs1 bs2 o1 o2 :
  freed s1 s2 ps1 bs1 o1 → freed s2 s3 ps2 bs2 o2 →
  freed s1 s3 (ps1 ++ ps2) (bs1 ++ bs2) (o1 ++ o2).
Proof.
  intros [Hn1 Hs1 Hi1 Ho1 Hr1] [Hn2 Hs2 Hi2 Ho2 Hr2]. split.
  - intros q. rewrite Hn2, Hn1.
    repeat case_decide; try done; exfalso;
      rewrite elem_of_app in *; tauto.
  - intros q. rewrite Hs2, Hs1.
    repeat case_decide; try done; exfalso;
      rewrite elem_of_app in *; tauto.
  - congruence.
  - congruence.
  - by rewrite Hr2, Hr1, app_assoc.
Qed.

Lemma freed_proper s s' ps ps' bs bs' o :
  (∀ q, q ∈ ps ↔ q ∈ ps') → (∀ b, b ∈ bs ↔ b ∈ bs') →
  freed s s' ps bs o → freed s s' ps' bs' o.
Proof.
  intros Hp Hb [Hn Hs Hi Ho Hr]. split; try done.
  - intros q. rewrite Hn. specialize (Hp q).
    repeat case_decide; try done; exfalso; tauto.
  - intros q. rewrite Hs. specialize (Hb q).
    repeat case_decide; try done; exfalso; tauto.
Qed.

Lemma tree_node_free_Done s x n :
  nodes s !! x = Some n →
  child_head n = None → next n = None → previous n = None →
  (∀ a, name n = Some a → is_Some (strs s !! a)) →
  ∃ s', tree_node_free x s = Done tt s' ∧
        freed s s' [x] (option_list (name n)) [x].
Proof.
  intros Hx Hc Hn Hp Ha.
  unfold tree_node_free, bind, load. rewrite Hx. simpl.
  rewrite Hc, Hn, Hp. simpl.
  destruct (name n) as [a|] eqn:Ea.
  - destruct (Ha a eq_refl) as [t Ht]. simpl. rewrite Ht.
    unfold talloc_free_node. simpl. rewrite Hx.
    eexists. split; [done|]. split; simpl; try done.
    + intros q. destruct (decide (q ∈ [x])) as [Hin|Hin].
      * apply list_elem_of_singleton in Hin as ->. apply lookup_delete_eq.
      * apply lookup_delete_ne. intros ->. apply Hin. left.
    + intros q. destruct (decide (q ∈ [a])) as [Hin|Hin].
      * apply list_elem_of_singleton in Hin as ->. apply lookup_delete_eq.
      * apply lookup_delete_ne. intros ->. apply Hin. left.
  - simpl. unfold talloc_free_node, ret. simpl. rewrite Hx.
    eexists. split; [done|]. split; simpl; try done.
    + intros q. destruct (decide (q ∈ [x])) as [Hin|Hin].
      * apply list_elem_of_singleton in Hin as ->. apply lookup_delete_eq.
      * apply lookup_delete_ne. intros ->. apply Hin. left.
Qed.

Lemma free_chain_S fuel list_ :
  free_chain (S fuel) list_ =
  (r <- tree_node_pop list_ ;;
   match r with
   | (None, _) => ret tt
   | (Some node, list_) =>
       n <- load node ;;
       (if child_head n is Some _
        then free_chain fuel (child_head n) else ret tt) ;;
       upd node (set_child_head None) ;;
       tree_node_free node ;;
       free_chain fuel list_
   end).
Proof. done. Qed.

Lemma head_elem {A} (l : list A) (q : A) : head l = Some q → q ∈ l.
Proof. destruct l; intros [= ->]. left. Qed.

Lemma free_chain_forest fuel : ∀ s ls rs,
  forest_ok s (reverse ls ++ rs) →
  NoDup (flat_map flat (reverse ls ++ rs)) →
  NoDup (flat_map names (reverse ls ++ rs)) →
  (∀ b, b ∈ flat_map names (reverse ls ++ rs) → is_Some (strs s !! b)) →
  length (flat_map flat (reverse ls ++ rs)) < fuel →
  ∃ s', free_chain fuel (hd_or (t_root <$> ls) (head (t_root <$> rs))) s
        = Done tt s' ∧
        freed s s' (flat_map flat (reverse ls ++ rs))
          (flat_map names (reverse ls ++ rs))
          (flat_map post_order (ls ++ rs)).
Proof.
  induction fuel as [|fuel IH]; intros s ls rs Hok Hnd Hnn Hlive Hlen; [lia|].
  assert (ls = [] ∧ rs = [] ∨
          ∃ ls0 t rs0, reverse ls ++ rs = reverse ls0 ++ t :: rs0 ∧
            ls ++ rs = t :: ls0 ++ rs0 ∧
            hd_or (t_root <$> ls) (head (t_root <$> rs)) = Some (t_root t))
    as [[-> ->]|(ls0 & t & rs0 & E1 & E2 & E3)].
  { destruct ls as [|t ls]; [destruct rs as [|t rs]|].
    - by left.
    - right. by exists [], t, rs.
    - right. exists ls, t, rs. by rewrite reverse_cons, <- app_assoc. }
  { exists s. split; [done|]. apply freed_refl. }
  rewrite E1 in *. rewrite E2, E3. clear E1 E2 E3 ls rs.
  destruct t as [x a ks]. cbn [t_root].
  set (rem := reverse ls0 ++ rs0) in *.
  (* the nodes and names of the tree at the cursor are apart from the rest *)
  destruct (NoDup_flat_map_split flat _ _ _ Hnd) as (Hndt & Hndrem & Hdisj).
  fold rem in Hndrem, Hdisj.
  simpl in Hndt. apply NoDup_cons in Hndt as [Hxk Hndk].
  destruct (NoDup_flat_map_split names _ _ _ Hnn) as (Hnnt & Hnnrem & Hndisj).
  fold rem in Hnnrem, Hndisj.
  simpl in Hnnt. apply NoDup_app in Hnnt as (_ & Hnak & Hnnk).
  assert (x ∉ flat_map flat rem) as Hxrem by (apply Hdisj; left).
  assert (∀ q, q ∈ flat_map flat ks → q ∉ flat_map flat rem) as Hkrem.
  { intros q Hq. apply Hdisj. by right. }
  assert (∀ q, q ∈ t_root <$> ls0 ∨ q ∈ t_root <$> rs0 →
               q ∈ t_root <$> rem) as Hroots.
  { intros q Hq. unfold rem. rewrite fmap_app, fmap_reverse, elem_of_app,
      elem_of_reverse. done. }
  (* the top chain *)
  destruct Hok as [Hl Hall].
  pose proof (NoDup_roots _ Hnd) as Hnr.
  rewrite fmap_app, fmap_reverse in Hl, Hnr. simpl in Hl, Hnr.
  assert (chain s (reverse (t_root <$> ls0) ++ x :: (t_root <$> rs0))) as Hc
    by done.
  assert (tree_ok s (Tree x a ks)) as Ht.
  { apply Forall_app in Hall as [_ Hall]. by apply Forall_cons in Hall as [? _]. }
  apply tree_ok_unfold in Ht as (Hname & Hch & Hks).
  (* pop *)
  destruct (tree_node_pop_chain s _ x _ Hc) as (s1 & Hpop & Hpost & Hc1).
  rewrite free_chain_S, (bind_Done _ _ _ _ _ Hpop).
  pose proof (pop_payload _ _ _ _ _ Hpost) as Hpay.
  assert (∃ n1, nodes s1 !! x = Some n1 ∧ name n1 = a ∧
            child_head n1 = head (t_root <$> ks) ∧
            next n1 = None ∧ previous n1 = None)
    as (n1 & Hx1 & Hname1 & Hch1 & Hnext1 & Hprev1).
  { pose proof (pop_next _ _ _ _ _ Hpost x) as H1.
    pose proof (pop_previous _ _ _ _ _ Hpost x) as H2.
    pose proof (sp_name _ _ Hpay x) as H3.
    pose proof (sp_child_head _ _ Hpay x) as H4.
    rewrite decide_True in H1, H2 by done. rewrite Hname in H3. rewrite Hch in H4.
    apply field_Some in H1 as (n1 & Hn1 & E1).
    apply field_Some in H2 as (n2 & Hn2 & E2).
    apply field_Some in H3 as (n3 & Hn3 & E3).
    apply field_Some in H4 as (n4 & Hn4 & E4).
    rewrite Hn1 in Hn2, Hn3, Hn4.
    injection Hn2 as <-. injection Hn3 as <-. injection Hn4 as <-.
    by exists n1. }
  rewrite (bind_Done _ _ _ _ _ (load_Done _ _ _ Hx1)).
  assert (∀ q, q ∈ flat_map flat ks → nodes s1 !! q = nodes s !! q) as Hfr1.
  { intros q Hq. apply (pop_frame _ _ _ _ _ Hpost).
    - by intros ->.
    - intros Hh%head_elem. apply (Hkrem q Hq), roots_flat, Hroots. by left.
    - intros Hh%head_elem. apply (Hkrem q Hq), roots_flat, Hroots. by right. }
  (* the child chain *)
  assert (∃ s2, (if child_head n1 is Some _
                 then free_chain fuel (child_head n1) else ret tt) s1
                = Done tt s2 ∧
                freed s1 s2 (flat_map flat ks) (flat_map names ks)
                  (flat_map post_order ks)) as (s2 & Hkids & Hf2).
  { rewrite Hch1. destruct (head (t_root <$> ks)) as [c|] eqn:Eh.
    - destruct (IH s1 [] ks) as (s2 & Hrun & Hf); simpl.
      + by eapply forest_ok_agree.
      + done.
      + done.
      + intros b Hb. rewrite (sp_strs _ _ Hpay). apply Hlive.
        rewrite flat_map_app. simpl. rewrite !elem_of_app. auto.
      + rewrite flat_map_app in Hlen. simpl in Hlen.
        rewrite !length_app in Hlen. simpl in Hlen.
        rewrite !length_app in Hlen. lia.
      + simpl in Hrun. rewrite Eh in Hrun. by exists s2.
    - destruct ks; [|done]. exists s1. split; [done|apply freed_refl]. }
  rewrite (bind_Done _ _ _ _ _ Hkids).
  (* the node itself *)
  assert (nodes s2 !! x = Some n1) as Hx2.
  { rewrite (fr_nodes _ _ _ _ _ Hf2). by rewrite decide_False. }
  rewrite (bind_Done _ _ _ _ _ (upd_Done _ _ _ _ Hx2)).
  destruct (tree_node_free_Done (with_nodes <[x:=set_child_head None n1]> s2)
              x (set_child_head None n1)) as (s4 & Hfree & Hf4);
    [by simpl; rewrite lookup_insert_eq|done..| |].
  { simpl. intros b Hb. rewrite (fr_strs _ _ _ _ _ Hf2).
    rewrite Hname1 in Hb. revert Hb. intros ->.
    rewrite decide_False by (apply Hnak; left).
    rewrite (sp_strs _ _ Hpay). apply Hlive.
    rewrite flat_map_app. simpl. rewrite !elem_of_app, elem_of_cons. tauto. }
  rewrite (bind_Done _ _ _ _ _ Hfree). simpl in Hf4. rewrite Hname1 in Hf4.
  assert (freed s2 s4 [x] (option_list a) [x]) as Hf24.
  { destruct Hf4 as [Hn4 Hs4 Hi4 Ho4 Hr4]. split; try done.
    intros q. rewrite Hn4. simpl. case_decide as Hq; [done|].
    rewrite lookup_insert_ne; [done|]. intros ->. apply Hq. left. }
  pose proof (freed_trans _ _ _ _ _ _ _ _ _ Hf2 Hf24) as Hf14.
  assert (∀ q, q ∈ flat_map flat rem → nodes s4 !! q = nodes s1 !! q) as Hfr4.
  { intros q Hq. rewrite (fr_nodes _ _ _ _ _ Hf14).
    rewrite decide_False; [done|].
    intros [Hin| ->%list_elem_of_singleton]%elem_of_app; [|done].
    by apply (Hkrem q). }
  (* the rest of the chain *)
  destruct (IH s4 ls0 rs0) as (s5 & Hrest & Hf5); fold rem.
  - split.
    + destruct Hc1 as [_ Hl1]. unfold rem. rewrite fmap_app, fmap_reverse.
      eapply links_ext; [|exact Hl1].
      intros q Hq. unfold field. rewrite Hfr4; [done|].
      apply roots_flat, Hroots. by rewrite elem_of_app, elem_of_reverse in Hq.
    + apply Forall_forall. intros t' Ht'.
      assert (t' ∈ reverse ls0 ++ Tree x a ks :: rs0) as Ht'0.
      { unfold rem in Ht'. rewrite elem_of_app in Ht'. rewrite elem_of_app,
          elem_of_cons. tauto. }
      assert (t_root t' ∈ flat_map flat rem) as Hr'.
      { apply elem_of_flat_map. exists t'. split; [done|apply t_root_flat]. }
      rewrite Forall_forall in Hall.
      eapply tree_ok_root_links; [| | |by apply Hall].
      * unfold field. rewrite (Hfr4 _ Hr').
        apply (sp_name _ _ Hpay).
      * unfold field. rewrite (Hfr4 _ Hr').
        apply (sp_child_head _ _ Hpay).
      * intros q Hq.
        assert (q ∈ flat_map flat rem) as Hqr.
        { apply elem_of_flat_map. exists t'. split; [done|].
          destruct t'. by right. }
        rewrite (Hfr4 _ Hqr).
        pose proof (kids_not_roots _ _ _ Hnd Ht'0 Hq) as Hnr'.
        rewrite fmap_app, fmap_reverse in Hnr'. simpl in Hnr'.
        rewrite elem_of_app, elem_of_reverse, elem_of_cons in Hnr'.
        apply (pop_frame _ _ _ _ _ Hpost).
        -- intros ->. tauto.
        -- intros Hh%head_elem. tauto.
        -- intros Hh%head_elem. tauto.
  - done.
  - done.
  - intros b Hb. rewrite (fr_strs _ _ _ _ _ Hf14).
    rewrite decide_False.
    + rewrite (sp_strs _ _ Hpay). apply Hlive.
      rewrite flat_map_app. simpl. unfold rem in Hb.
      rewrite flat_map_app in Hb. rewrite !elem_of_app in *. tauto.
    + intros Hin. apply (Hndisj b); [|done]. simpl.
      rewrite elem_of_app in *. tauto.
  - rewrite flat_map_app in Hlen. simpl in Hlen. unfold rem.
    rewrite flat_map_app. rewrite !length_app in *. simpl in Hlen.
    rewrite !length_app in Hlen. lia.
  - exists s5. split; [exact Hrest|].
    pose proof (freed_trans _ _ _ _ _ _ _ _ _ Hf14 Hf5) as Hf15.
    destruct Hf15 as [Hn Hs Hi Ho Hr]. split.
    + intros q. rewrite Hn.
      destruct (decide (q ∈ flat_map flat (reverse ls0 ++ Tree x a ks :: rs0)))
        as [Hq|Hq]; rewrite flat_map_app in Hq; simpl in Hq;
        rewrite !elem_of_app, elem_of_cons, elem_of_app in Hq.
      * rewrite decide_True; [done|]. unfold rem.
        rewrite flat_map_app, !elem_of_app, list_elem_of_singleton. tauto.
      * rewrite decide_False.
        -- apply (pop_frame _ _ _ _ _ Hpost).
           ++ intros ->. tauto.
           ++ intros Hh%head_elem%roots_flat.
              rewrite elem_of_flat_map_reverse in Hq. tauto.
           ++ intros Hh%head_elem%roots_flat. tauto.
        -- unfold rem.
           rewrite flat_map_app, !elem_of_app, list_elem_of_singleton. tauto.
    + intros b. rewrite Hs, (sp_strs _ _ Hpay).
      destruct (decide (b ∈ flat_map names (reverse ls0 ++ Tree x a ks :: rs0)))
        as [Hb|Hb]; rewrite flat_map_app in Hb; simpl in Hb;
        rewrite !elem_of_app in Hb.
      * rewrite decide_True; [done|]. unfold rem.
        rewrite flat_map_app, !elem_of_app. tauto.
      * rewrite decide_False; [done|]. unfold rem.
        rewrite flat_map_app, !elem_of_app. tauto.
    + rewrite Hi. apply (sp_items _ _ Hpay).
    + rewrite Ho. apply (sp_oracle _ _ Hpay).
    + rewrite Hr, (sp_released _ _ Hpay). simpl.
      by rewrite <- !app_assoc.
Qed.

Lemma flat_map_Permutation {A B} (f g : A → list B) (l : list A) :
  Forall (λ x, f x ≡ₚ g x) l → flat_map f l ≡ₚ flat_map g l.
Proof.
  induction 1 as [|x l Hx _ IH]; simpl; [done|]. by rewrite Hx, IH.
Qed.

Lemma post_order_flat t : post_order t ≡ₚ flat t.
Proof.
  induction t as [x a ks IH] using tree_ind2. simpl.
  rewrite (flat_map_Permutation _ _ _ IH).
  by rewrite Permutation_app_comm.
Qed.

Lemma post_order_forest_flat ls t rs :
  flat_map post_order (t :: ls ++ rs)
  ≡ₚ flat_map flat (reverse ls ++ t :: rs).
Proof.
  rewrite (flat_map_Permutation post_order flat).
  - simpl. rewrite !flat_map_app. simpl.
    assert (flat_map flat (reverse ls) ≡ₚ flat_map flat ls) as ->.
    { induction ls as [|k ls IH]; [done|].
      rewrite reverse_cons, flat_map_app. simpl.
      rewrite IH, app_nil_r. apply Permutation_app_comm. }
    rewrite !app_assoc. apply Permutation_app_tail, Permutation_app_comm.
  - apply Forall_forall. intros ? _. apply post_order_flat.
Qed.

Lemma flat_map_split {A B} (f : A → list B) (l : list A) (x : A) :
  x ∈ l → ∃ l1 l2, flat_map f l = l1 ++ f x ++ l2.
Proof.
  intros (l1 & l2 & ->)%list_elem_of_split.
  exists (flat_map f l1), (flat_map f l2). by rewrite flat_map_app.
Qed.

(** The releases of a subtree are contiguous, the child chain first and the
    root of the subtree last. *)
Lemma post_order_subtree t t' :
  t' ∈ subtrees t → ∃ l1 l2, post_order t = l1 ++ post_order t' ++ l2.
Proof.
  induction t as [x a ks IH] using tree_ind2.
  simpl. intros [->|Hin]%elem_of_cons.
  - exists [], []. simpl. by rewrite app_nil_r.
  - apply elem_of_flat_map in Hin as (k & Hk & Hin).
    rewrite Forall_forall in IH.
    destruct (IH k Hk Hin) as (l1 & l2 & E).
    destruct (flat_map_split post_order ks k Hk) as (m1 & m2 & ->).
    exists (m1 ++ l1), (l2 ++ m2 ++ [x]). rewrite E.
    by rewrite <- !app_assoc.
Qed.

Lemma post_order_forest_subtree ts t' :
  t' ∈ flat_map subtrees ts →
  ∃ l1 l2, flat_map post_order ts
           = l1 ++ flat_map post_order (t_kids t') ++ t_root t' :: l2.
Proof.
  intros (t & Ht & Hin)%elem_of_flat_map.
  destruct (post_order_subtree t t' Hin) as (l1 & l2 & E).
  destruct (flat_map_split post_order ts t Ht) as (m1 & m2 & ->).
  exists (m1 ++ l1), (l2 ++ m2). rewrite E.
  destruct t'. simpl. by rewrite <- !app_assoc.
Qed.

(** C7: [tree_node_free_recursive] on a null chain does nothing; on a
    reference to a root [t] of a well-formed forest of [N] nodes it returns
    after exactly [N] releases, one per node of the forest, the child chain
    of every node being released in full right before the node itself;
    afterwards no node of the forest is live and every other node is
    untouched. *)
Theorem tree_node_free_recursive_spec (s : state) (ls rs : list tree)
    (t : tree) (fuel : nat) :
  forest_ok s (reverse ls ++ t :: rs) →
  NoDup (flat_map flat (reverse ls ++ t :: rs)) →
  NoDup (flat_map names (reverse ls ++ t :: rs)) →
  (∀ b, b ∈ flat_map names (reverse ls ++ t :: rs) → is_Some (strs s !! b)) →
  length (flat_map flat (reverse ls ++ t :: rs)) < fuel →
  tree_node_free_recursive fuel None s = Done tt s ∧
  ∃ s', tree_node_free_recursive fuel (Some (t_root t)) s = Done tt s' ∧
    released s' = released s ++ flat_map post_order (t :: ls ++ rs) ∧
    length (released s')
    = length (released s) + length (flat_map flat (reverse ls ++ t :: rs)) ∧
    flat_map post_order (t :: ls ++ rs)
    ≡ₚ flat_map flat (reverse ls ++ t :: rs) ∧
    (∀ t', t' ∈ flat_map subtrees (t :: ls ++ rs) →
       ∃ l1 l2, released s' = released s ++ l1 ++
                  flat_map post_order (t_kids t') ++ t_root t' :: l2) ∧
    (∀ q, q ∈ flat_map flat (reverse ls ++ t :: rs) → nodes s' !! q = None) ∧
    (∀ q, q ∉ flat_map flat (reverse ls ++ t :: rs) →
       nodes s' !! q = nodes s !! q).
Proof.
  intros Hok Hnd Hnn Hlive Hlen. split; [done|].
  destruct (free_chain_forest fuel s (t :: ls) rs) as (s' & Hrun & Hf).
  1-5: by rewrite reverse_cons, <- app_assoc.
  rewrite reverse_cons, <- app_assoc in Hf.
  change ((t :: ls) ++ rs) with (t :: ls ++ rs) in Hf.
  change ([t] ++ rs) with (t :: rs) in Hf.
  change (free_chain fuel (Some (t_root t)) s = Done tt s') in Hrun.
  exists s'. split_and!.
  - done.
  - apply (fr_released _ _ _ _ _ Hf).
  - rewrite (fr_released _ _ _ _ _ Hf), length_app.
    by rewrite (post_order_forest_flat ls t rs).
  - apply post_order_forest_flat.
  - intros t' Ht'. rewrite (fr_released _ _ _ _ _ Hf).
    destruct (post_order_forest_subtree _ _ Ht') as (l1 & l2 & E).
    exists l1, l2. by rewrite E.
  - intros q Hq. rewrite (fr_nodes _ _ _ _ _ Hf). by rewrite decide_True.
  - intros q Hq. rewrite (fr_nodes _ _ _ _ _ Hf). by rewrite decide_False.
Qed.

Lemma grows_refl s : grows s s.
Proof. by split. Qed.

Lemma grows_trans s1 s2 s3 : grows s1 s2 → grows s2 s3 → grows s1 s3.
Proof.
  intros [Hn1 Hl1 Hs1 Hi1 Hr1] [Hn2 Hl2 Hs2 Hi2 Hr2]. split.
  - intros q. by rewrite Hn2.
  - auto.
  - by etrans.
  - by etrans.
  - congruence.
Qed.

Lemma grows_field {A} (f : tree_node → A) s s' q :
  (∀ n, f (set_label None n) = f n) →
  grows s s' → field f s' q = field f s q.
Proof.
  intros Hf [Hn _ _ _ _]. specialize (Hn q). unfold field.
  destruct (nodes s' !! q) as [n'|], (nodes s !! q) as [n|];
    try done.
  cbn [fmap option_fmap option_map] in *.
  assert (set_label None n' = set_label None n) as E by congruence.
  by rewrite <- (Hf n'), <- (Hf n), E.
Qed.

Lemma alloc_granted_inv b s s' :
  alloc_granted s = Done b s' →
  nodes s' = nodes s ∧ strs s' = strs s ∧ items s' = items s ∧
  released s' = released s.
Proof.
  unfold alloc_granted. destruct (oracle s); by intros [= <- <-].
Qed.

Lemma alloc_granted_grows b s s' : alloc_granted s = Done b s' → grows s s'.
Proof.
  intros (Hn & Hs & Hi & Hr)%alloc_granted_inv.
  split; rewrite ?Hn, ?Hs, ?Hi, ?Hr; try done.
  unfold field. by rewrite Hn.
Qed.

Lemma talloc_str_inv t r s s' :
  talloc_str t s = Done r s' →
  nodes s' = nodes s ∧ items s' = items s ∧ released s' = released s ∧
  match r with
  | None => strs s' = strs s
  | Some a => strs s !! a = None ∧ strs s' = <[a := t]> (strs s)
  end.
Proof.
  unfold talloc_str. intros (ok & s1 & Ha & H)%bind_inv.
  apply alloc_granted_inv in Ha as (Hn & Hs & Hi & Hr).
  destruct ok.
  - unfold bind, get_state, modify, ret in H. simplify_eq/=.
    rewrite Hs. split_and!; try done. rewrite <- Hs. apply fresh_str.
  - unfold ret in H. by simplify_eq.
Qed.

Lemma new_item_inv nm d r s s' :
  new_item nm d s = Done r s' →
  nodes s' = nodes s ∧ strs s' = strs s ∧ released s' = released s ∧
  match r with
  | None => items s' = items s
  | Some i => items s !! i = None ∧
              ∃ c, nm = Some c ∧ items s' = <[i := Item c d None]> (items s)
  end.
Proof.
  unfold new_item. destruct nm as [c|].
  - intros (ok & s1 & Ha & H)%bind_inv.
    apply alloc_granted_inv in Ha as (Hn & Hs & Hi & Hr).
    destruct ok.
    + unfold bind, get_state, modify, ret in H. simplify_eq/=.
      rewrite Hi. split_and!; try done; [rewrite <- Hi; apply fresh_item|eauto].
    + unfold ret in H. by simplify_eq.
  - unfold ret. by intros [= <- <-].
Qed.

Lemma put_item_inv lbl d i arr p r s s' :
  put_item lbl d i arr p s = Done r s' →
  i < length arr ∧
  nodes s' = nodes s ∧ strs s' = strs s ∧ released s' = released s ∧
  match r with
  | None => items s' = items s
  | Some it => items s !! it = None ∧
               ∃ c, lbl = Some c ∧
                    items s' = <[it := Item c d (Some p)]> (items s)
  end.
Proof.
  unfold put_item. intros (item & s1 & Hnew & H)%bind_inv.
  apply new_item_inv in Hnew as (Hn & Hs & Hr & Hi).
  apply bind_inv in H as ([] & s2 & Hchk & H).
  case_decide as Hlt; [|done]. unfold ret in Hchk. simplify_eq.
  apply bind_inv in H as ([] & s3 & Hset & H).
  unfold ret in H. simplify_eq.
  destruct r as [it|]; simpl in Hset.
  - destruct Hi as (Hfresh & c & -> & Hi).
    unfold bind, load_item, modify in Hset. rewrite Hi in Hset.
    rewrite lookup_insert_eq in Hset. simplify_eq/=.
    rewrite Hi, insert_insert_eq. eauto 10.
  - unfold ret in Hset. by simplify_eq.
Qed.

Lemma put_item_grows lbl d i arr p r s s' :
  put_item lbl d i arr p s = Done r s' → grows s s'.
Proof.
  intros (_ & Hn & Hs & Hr & Hi)%put_item_inv.
  split; rewrite ?Hn, ?Hs, ?Hr; try done.
  - unfold field. by rewrite Hn.
  - destruct r as [it|].
    + destruct Hi as (Hfresh & c & _ & ->). by apply insert_subseteq.
    + by rewrite Hi.
Qed.

Lemma bind_assoc {A B C} (m : M A) (k1 : A → M B) (k2 : B → M C) s :
  bind (bind m k1) k2 s = bind m (λ a, bind (k1 a) k2) s.
Proof. unfold bind. by destruct (m s). Qed.

Lemma bind_ext {A B} (m : M A) (k1 k2 : A → M B) s :
  (∀ a s', k1 a s' = k2 a s') → bind m k1 s = bind m k2 s.
Proof. intros H. unfold bind. by destruct (m s). Qed.

Lemma build_items_S fuel i p arr s :
  build_items (S fuel) i (Some p) arr s =
  (n <- load p ;;
   r <- derive_label p n ;;
   match r with
   | None => ret None
   | Some lbl =>
       item <- put_item lbl (Heap <$> name n) i arr p ;;
       build_items fuel (S i) (next n) (<[i := item]> arr)
   end) s.
Proof.
  cbn [build_items]. apply bind_ext; intros n s0.
  apply bind_ext; intros [lbl|] s1; [|done].
  unfold put_item. rewrite bind_assoc. apply bind_ext; intros item s2.
  rewrite bind_assoc. apply bind_ext; intros [] s3.
  rewrite bind_assoc. by apply bind_ext; intros [] s4.
Qed.

Lemma derive_label_inv p n r s s' :
  nodes s !! p = Some n →
  derive_label p n s = Done r s' →
  grows s s' ∧
  (∀ q, q ≠ p → nodes s' !! q = nodes s !! q) ∧
  (child_head n ≠ None → label n = None) ∧
  (child_head n = None → s' = s ∧ r = Some (Heap <$> name n)) ∧
  items s' = items s.
Proof.
  intros Hp. unfold derive_label. destruct (child_head n) as [c|] eqn:Ec.
  - intros ([] & s1 & Hass & H)%bind_inv.
    unfold SMB_ASSERT in Hass.
    destruct (label n) as [|] eqn:El; simpl in Hass; [done|].
    unfold ret in Hass. injection Hass as <-.
    apply bind_inv in H as (nm & s2 & Hnm & H).
    assert (s2 = s) as ->.
    { destruct (name n); [|done]. unfold read_str in Hnm.
      destruct (strs s !! _); by simplify_eq. }
    apply bind_inv in H as (l & s3 & Hl & H).
    apply talloc_str_inv in Hl as (Hn3 & Hi3 & Hr3 & Hs3).
    apply bind_inv in H as ([] & s4 & Hupd & H).
    apply upd_inv in Hupd as (n' & Hn' & ->).
    unfold ret in H. simplify_eq.
    rewrite Hn3, Hp in Hn'. simplify_eq.
    split_and!.
    + split; simpl.
      * intros q. rewrite lookup_insert, Hn3. case_decide; [|done].
        subst q. by rewrite Hp.
      * intros q a. unfold field. simpl. rewrite lookup_insert, Hn3.
        case_decide; [|done]. subst q. rewrite Hp. simpl. by rewrite El.
      * destruct l as [a|]; [|by rewrite Hs3].
        destruct Hs3 as [Hfresh ->]. by apply insert_subseteq.
      * by rewrite Hi3.
      * done.
    + intros q Hq. simpl. by rewrite lookup_insert_ne, Hn3.
    + done.
    + done.
    + done.
  - unfold ret. intros [= <- <-]. split_and!; try done; apply grows_refl.
Qed.

Lemma build_items_grows fuel : ∀ i tmp arr s r s',
  build_items fuel i tmp arr s = Done r s' → grows s s'.
Proof.
  induction fuel as [|fuel IH]; intros i [p|] arr s r s' H;
    try (unfold build_items, ret in H; simplify_eq; apply grows_refl).
  rewrite build_items_S in H.
  apply bind_inv in H as (n & s0 & Hload & H).
  apply load_inv in Hload as [Hp ->].
  apply bind_inv in H as (lbl & s1 & Hlbl & H).
  apply (derive_label_inv _ _ _ _ _ Hp) in Hlbl as (Hg1 & _).
  destruct lbl as [lbl|].
  - apply bind_inv in H as (item & s2 & Hput & H).
    apply put_item_grows in Hput. apply IH in H.
    eauto using grows_trans.
  - unfold ret in H. by simplify_eq.
Qed.

Lemma count_next_inv fuel : ∀ tmp k n s s',
  count_next fuel tmp k s = Done n s' → s' = s.
Proof.
  induction fuel as [|fuel IH]; intros [p|] k n s s' H;
    try (unfold count_next, ret in H; by simplify_eq).
  simpl in H. apply bind_inv in H as (nd & s0 & Hload & H).
  apply load_inv in Hload as [_ ->]. by apply IH in H.
Qed.

Lemma count_next_nexts fuel : ∀ s x l k,
  nexts s x l → length l ≤ fuel →
  count_next fuel x k s = Done (k + length l) s.
Proof.
  induction fuel as [|fuel IH]; intros s x [|p l] k Hl Hlen; simpl in *;
    try lia; subst.
  - unfold ret. by rewrite Nat.add_0_r.
  - unfold ret. by rewrite Nat.add_0_r.
  - destruct Hl as [-> Hl]. unfold field in Hl.
    destruct (nodes s !! p) as [n|] eqn:Hp; [|done]. simpl in Hl.
    rewrite (bind_Done _ _ _ _ _ (load_Done _ _ _ Hp)).
    rewrite (IH s (next n) l (S k)) by (done || lia).
    f_equal. lia.
Qed.

Lemma talloc_zero_array_grows n r s s' :
  talloc_zero_array n s = Done r s' → grows s s'.
Proof.
  unfold talloc_zero_array. intros (ok & s1 & Ha & H)%bind_inv.
  unfold ret in H. simplify_eq. by eapply alloc_granted_grows.
Qed.

(** How an update ends. *)
Lemma tree_view_update_inv fuel view list_ w view' s s' :
  tree_view_update fuel view list_ s = Done (w, view') s' →
  ∀ start, start = (if list_ is None then root view else list_) →
  ∃ n arr s0,
    count_next fuel start 0 s = Done n s ∧
    talloc_zero_array (n + 1) s = Done arr s0 ∧
    match arr with
    | None => w = WERR_NOMEM ∧ view' = view ∧ s' = s0
    | Some arr =>
        ∃ r s1, build_items fuel 0 start arr s0 = Done r s1 ∧
          match r with
          | None => w = WERR_NOMEM ∧ view' = view ∧ s' = s1
          | Some arr' =>
              w = WERR_OK ∧
              ∃ v2, tree_view_free_current_items
                      (set_menu (set_menu_items (unpost_menu (menu view)) arr')
                         view) s1 = Done v2 s' ∧
                    view' = set_current_items (Some arr') v2
          end
    end.
Proof.
  unfold tree_view_update. intros H start Hstart. rewrite <- Hstart in H.
  apply bind_inv in H as (n & s0 & Hcount & H).
  pose proof (count_next_inv _ _ _ _ _ _ Hcount) as ->.
  apply bind_inv in H as (arr & s1 & Harr & H).
  exists n, arr, s1. split_and!; try done.
  destruct arr as [arr|].
  - apply bind_inv in H as (r & s2 & Hbuild & H).
    exists r, s2. split; [done|].
    destruct r as [arr'|].
    + apply bind_inv in H as (v2 & s3 & Hfree & H).
      unfold ret in H. simplify_eq. split; [done|]. by exists v2.
    + unfold ret in H. by simplify_eq.
  - unfold ret in H. by simplify_eq.
Qed.

Lemma build_items_label_refused fuel i p n a arr o s :
  nodes s !! p = Some n → child_head n ≠ None → label n = None →
  name n = Some a → is_Some (strs s !! a) → oracle s = false :: o →
  ∃ s', build_items (S fuel) i (Some p) arr s = Done None s'.
Proof.
  intros Hp Hc Hl Hn [t Ht] Ho.
  rewrite build_items_S, (bind_Done _ _ _ _ _ (load_Done _ _ _ Hp)).
  unfold derive_label. destruct (child_head n); [|done].
  rewrite Hl, Hn. unfold bind at 1. unfold bind at 1. simpl.
  unfold bind at 1. rewrite Ht.
  unfold bind at 1. unfold talloc_str, alloc_granted, bind at 1. rewrite Ho.
  unfold ret at 1. unfold bind at 1.
  rewrite (upd_Done _ _ n) by done. eauto.
Qed.

Lemma keeps_refl s : keeps_labels s s.
Proof. by split. Qed.

Lemma keeps_trans s1 s2 s3 :
  keeps_labels s1 s2 → keeps_labels s2 s3 → keeps_labels s1 s3.
Proof. intros [H1 E1] [H2 E2]. split; [auto|congruence]. Qed.

Lemma keeps_bind {A B} (m : M A) (k : A → M B) :
  keeps m → (∀ a, keeps (k a)) → keeps (bind m k).
Proof.
  intros Hm Hk s b s' (a & s1 & H1 & H2)%bind_inv.
  eapply keeps_trans; [by eapply Hm|by eapply Hk].
Qed.

Lemma keeps_ret {A} (a : A) : keeps (ret a).
Proof. intros s b s' [_ ->]%ret_inv. apply keeps_refl. Qed.

Lemma keeps_fail {A} (m : M A) : (∀ s a s', m s ≠ Done a s') → keeps m.
Proof. intros H s a s' Hrun. by apply H in Hrun. Qed.

Lemma keeps_load p : keeps (load p).
Proof. intros s n s' [_ ->]%load_inv. apply keeps_refl. Qed.

Lemma keeps_upd p f : (∀ n, label (f n) = label n) → keeps (upd p f).
Proof.
  intros Hf s u s' (n & Hp & ->)%upd_inv. split; [|done].
  intros q a. unfold field. simpl. rewrite lookup_insert.
  case_decide; [|done]. subst. rewrite Hp. simpl. by rewrite Hf.
Qed.

Lemma keeps_talloc_zero_node : keeps talloc_zero_node.
Proof.
  intros s r s'. unfold talloc_zero_node. intros (ok & s1 & Ha & H)%bind_inv.
  apply alloc_granted_inv in Ha as (Hn & Hs & Hi & Hr).
  destruct ok.
  - unfold bind, get_state, modify, ret in H. simplify_eq/=.
    split; [|done]. intros q a. unfold field. simpl.
    rewrite lookup_insert, Hn. by case_decide.
  - unfold ret in H. simplify_eq. split; [|done].
    intros q a. unfold field. by rewrite Hn.
Qed.

Lemma keeps_talloc_str t : keeps (talloc_str t).
Proof.
  intros s r s' (Hn & Hi & _)%talloc_str_inv. split; [|done].
  intros q a. unfold field. by rewrite Hn.
Qed.

Lemma keeps_talloc_free_str a : keeps (talloc_free_str a).
Proof.
  intros s u s'. unfold talloc_free_str. destruct a as [a|].
  - destruct (strs s !! a); [|done]. by intros [= _ <-].
  - unfold ret. intros [= _ <-]. apply keeps_refl.
Qed.

Lemma keeps_talloc_free_node p : keeps (talloc_free_node p).
Proof.
  intros s u s'. unfold talloc_free_node. destruct (nodes s !! p); [|done].
  intros [= _ <-]. split; [|done].
  intros q a. unfold field. simpl. rewrite lookup_delete.
  by case_decide.
Qed.

Lemma keeps_SMB_ASSERT b : keeps (SMB_ASSERT b).
Proof. destruct b; [apply keeps_ret|by apply keeps_fail]. Qed.

Ltac keeps_step :=
  first
    [ apply keeps_ret
    | apply keeps_load
    | apply keeps_upd; intros []; reflexivity
    | apply keeps_talloc_zero_node
    | apply keeps_talloc_str
    | apply keeps_talloc_free_str
    | apply keeps_talloc_free_node
    | apply keeps_SMB_ASSERT
    | assumption
    | apply keeps_bind; [|intros ?]
    | match goal with
      | |- keeps (match ?x with _ => _ end) => destruct x
      end ].

Lemma keeps_tree_node_new par nm : keeps (tree_node_new par nm).
Proof. unfold tree_node_new. repeat keeps_step. Qed.

Lemma keeps_tree_node_append a b : keeps (tree_node_append a b).
Proof. unfold tree_node_append. repeat keeps_step. Qed.

Lemma keeps_tree_node_pop pl : keeps (tree_node_pop pl).
Proof. unfold tree_node_pop. repeat keeps_step. Qed.

Lemma keeps_tree_node_free p : keeps (tree_node_free p).
Proof. unfold tree_node_free. repeat keeps_step. Qed.

Lemma keeps_free_chain fuel : ∀ pl, keeps (free_chain fuel pl).
Proof.
  induction fuel as [|fuel IH]; intros pl; [by apply keeps_fail|].
  cbn [free_chain].
  apply keeps_bind; [apply keeps_tree_node_pop|intros [[node|] pl']];
    [|apply keeps_ret].
  apply keeps_bind; [apply keeps_load|intros n].
  apply keeps_bind; [destruct (child_head n); [apply IH|apply keeps_ret]|].
  intros _. apply keeps_bind; [apply keeps_upd; by intros []|intros _].
  apply keeps_bind; [apply keeps_tree_node_free|intros _]. apply IH.
Qed.

Lemma keeps_tree_node_free_recursive fuel pl :
  keeps (tree_node_free_recursive fuel pl).
Proof.
  unfold tree_node_free_recursive. destruct pl; [|apply keeps_ret].
  apply keeps_free_chain.
Qed.

Lemma label_inv_keeps s s' view :
  keeps_labels s s' → label_inv s view → label_inv s' view.
Proof.
  intros [Hl Hi] Hinv p a Hp.
  destruct (Hinv p a (Hl p a Hp)) as (i & Hin & Hnode).
  exists i. split; [done|]. unfold item_node. by rewrite Hi.
Qed.

Lemma shrinks_refl s : shrinks s s.
Proof. by split. Qed.

Lemma shrinks_trans s1 s2 s3 : shrinks s1 s2 → shrinks s2 s3 → shrinks s1 s3.
Proof.
  intros [Hn1 Hl1 Hz1 Hs1 Hi1 Hr1] [Hn2 Hl2 Hz2 Hs2 Hi2 Hr2]. split.
  - intros q. by rewrite Hn2.
  - auto.
  - auto.
  - by etrans.
  - by etrans.
  - congruence.
Qed.

Lemma free_items_loop_cons item arr s :
  free_items_loop (Some item :: arr) s
  = (free_step item ;; free_items_loop arr) s.
Proof.
  cbn [free_items_loop]. unfold free_step.
  rewrite !bind_assoc. apply bind_ext; intros tmp s1.
  by rewrite !bind_assoc.
Qed.

Lemma free_step_inv item s s' :
  free_step item s = Done tt s' →
  ∃ It, items s !! item = Some It ∧
        items s' = delete item (items s) ∧
        shrinks s s' ∧
        (∀ p, it_userptr It = Some p →
              field label s' p = Some None ∧
              ∀ a, field label s p = Some (Some a) → strs s' !! a = None) ∧
        (∀ q, it_userptr It ≠ Some q → nodes s' !! q = nodes s !! q).
Proof.
  unfold free_step. intros (tmp & s1 & Hu & H)%bind_inv.
  unfold item_userptr in Hu. apply bind_inv in Hu as (It & s0 & Hit & Hu).
  unfold load_item in Hit. destruct (items s !! item) as [It'|] eqn:Ei; [|done].
  unfold ret in Hu. simplify_eq.
  apply bind_inv in H as ([] & s2 & Hclr & H).
  unfold free_item, bind, load_item, modify in H.
  destruct (items s2 !! item) as [It2|] eqn:Ei2; [|done]. simplify_eq.
  exists It. split; [done|].
  destruct (it_userptr It) as [p|] eqn:Ep.
  - apply bind_inv in Hclr as (n & s3 & Hload & Hclr).
    apply load_inv in Hload as [Hp ->].
    destruct (label n) as [a|] eqn:El.
    + apply bind_inv in Hclr as ([] & s4 & Hfree & Hupd).
      unfold talloc_free_str in Hfree.
      destruct (strs s1 !! a) as [t|] eqn:Ea; [|done]. simplify_eq.
      apply upd_inv in Hupd as (n' & Hn' & ->). simpl in Hn'.
      rewrite Hp in Hn'. simplify_eq. simpl. split_and!.
      * done.
      * split; simpl; try done.
        -- intros q. rewrite lookup_insert. case_decide; [|done].
           subst. by rewrite Hp.
        -- intros q b. unfold field. simpl. rewrite lookup_insert.
           by case_decide.
        -- intros q. unfold field. simpl. rewrite lookup_insert.
           by case_decide.
        -- apply delete_subseteq.
        -- apply delete_subseteq.
      * intros ? [= <-]. unfold field. simpl. rewrite lookup_insert_eq.
        split; [done|]. intros b. rewrite Hp. simpl. rewrite El.
        intros [= <-]. apply lookup_delete_eq.
      * intros q Hq. simpl. rewrite lookup_insert_ne; [done|congruence].
    + unfold ret in Hclr. simplify_eq. simpl. split_and!.
      * done.
      * split; simpl; try done. apply delete_subseteq.
      * intros ? [= <-]. unfold field. simpl. rewrite Hp. simpl. rewrite El.
        split; [done|]. by intros b.
      * done.
  - unfold ret in Hclr. simplify_eq. simpl. split_and!; try done.
    split; simpl; try done. apply delete_subseteq.
Qed.

Lemma free_items_loop_inv arr : ∀ s s',
  free_items_loop arr s = Done tt s' →
  shrinks s s' ∧
  (∀ i, i ∉ array_items arr → items s' !! i = items s !! i) ∧
  (∀ i p, i ∈ array_items arr → item_node s i = Some p →
      field label s' p = Some None ∧
      ∀ a, field label s p = Some (Some a) → strs s' !! a = None).
Proof.
  induction arr as [|[item|] arr IH]; intros s s' H.
  - done.
  - rewrite free_items_loop_cons in H.
    apply bind_inv in H as ([] & s1 & Hstep & H).
    apply free_step_inv in Hstep as (It & Hit & Hdel & Hsh & Hclr & Hfr).
    apply IH in H as (Hsh' & Hkeep & Hall).
    split_and!.
    + by eapply shrinks_trans.
    + simpl. intros i [Hne Hi]%not_elem_of_cons.
      rewrite (Hkeep i Hi), Hdel. by apply lookup_delete_ne.
    + simpl. intros i p [->|Hi]%elem_of_cons Hnode.
      * unfold item_node in Hnode. rewrite Hit in Hnode. simpl in Hnode.
        destruct (Hclr p Hnode) as [Hnull Hgone]. split.
        -- by apply (sh_null _ _ Hsh').
        -- intros a Ha. eapply lookup_weaken_None; [by apply Hgone|].
           apply Hsh'.
      * destruct (decide (i = item)) as [->|Hne].
        { unfold item_node in Hnode. rewrite Hit in Hnode. simpl in Hnode.
          destruct (Hclr p Hnode) as [Hnull Hgone]. split.
          - by apply (sh_null _ _ Hsh').
          - intros a Ha. eapply lookup_weaken_None; [by apply Hgone|].
            apply Hsh'. }
        assert (item_node s1 i = Some p) as Hnode1.
        { unfold item_node. rewrite Hdel, lookup_delete_ne by done. done. }
        destruct (Hall i p Hi Hnode1) as [Hnull Hgone]. split; [done|].
        intros a Ha.
        destruct (decide (it_userptr It = Some p)) as [Hp|Hp].
        -- destruct (Hclr p Hp) as [_ Hgone'].
           eapply lookup_weaken_None; [by apply Hgone'|]. apply Hsh'.
        -- apply Hgone. unfold field. by rewrite (Hfr p Hp).
  - unfold free_items_loop, ret in H. simplify_eq. split_and!.
    + apply shrinks_refl.
    + done.
    + simpl. intros i p Hi. by apply elem_of_nil in Hi.
Qed.

Lemma nexts_grows s s' x l : grows s s' → nexts s' x l ↔ nexts s x l.
Proof.
  intros Hg. revert x. induction l as [|p l IH]; intros x; simpl; [done|].
  rewrite (grows_field next s s') by done.
  destruct (field next s p); [|done]. by rewrite IH.
Qed.

Lemma nexts_functional s x l1 l2 : nexts s x l1 → nexts s x l2 → l1 = l2.
Proof.
  revert x l2. induction l1 as [|p l1 IH]; intros x [|q l2]; simpl.
  - done.
  - by intros -> [? _].
  - by intros [-> _] ?.
  - intros [-> H1] [[= <-] H2].
    destruct (field next s p); [|done]. f_equal. by eapply IH.
Qed.

Lemma count_next_length fuel : ∀ s x k n s',
  count_next fuel x k s = Done n s' → ∃ l, nexts s x l ∧ n = k + length l.
Proof.
  induction fuel as [|fuel IH]; intros s [p|] k n s' H; simpl in H;
    try done.
  - unfold ret in H. simplify_eq. exists []. split; [done|]. simpl. lia.
  - apply bind_inv in H as (nd & s0 & Hload & H).
    apply load_inv in Hload as [Hp ->].
    apply IH in H as (l & Hl & ->).
    exists (p :: l). split.
    + simpl. split; [done|]. unfold field. by rewrite Hp.
    + simpl. lia.
  - unfold ret in H. simplify_eq. exists []. split; [done|]. simpl. lia.
Qed.

Lemma nexts_suffix s x l1 p l2 :
  nexts s x (l1 ++ p :: l2) → nexts s (Some p) (p :: l2).
Proof.
  revert x. induction l1 as [|q l1 IH]; intros x; simpl.
  - by intros [-> ?].
  - intros [_ H]. destruct (field next s q); [|done]. by eapply IH.
Qed.

Lemma nexts_NoDup s x l : nexts s x l → NoDup l.
Proof.
  revert x. induction l as [|p l IH]; intros x Hl; [constructor|].
  pose proof Hl as [-> Hl']. simpl in Hl'.
  destruct (field next s p) as [nx|] eqn:En; [|done].
  constructor; [|by eapply IH].
  intros (l1 & l2 & ->)%list_elem_of_split.
  pose proof (nexts_suffix _ _ _ _ _ Hl') as Hs.
  pose proof (nexts_functional _ _ _ _ Hl Hs) as E.
  apply (f_equal length) in E. simpl in E. rewrite length_app in E.
  simpl in E. lia.
Qed.

Lemma put_item_oracle lbl d i arr p s :
  i < length arr →
  ∃ r s', put_item lbl d i arr p s = Done r s' ∧ nodes s' = nodes s ∧
          strs s' = strs s ∧
          oracle s' = drop (if lbl is Some _ then 1 else 0) (oracle s).
Proof.
  intros Hi. unfold put_item, new_item, set_item_userptr, load_item.
  destruct lbl as [c|].
  - unfold alloc_granted, bind, get_state, modify, ret.
    destruct (oracle s) as [|[] o] eqn:Ho; simpl;
      rewrite decide_True by done; simpl; rewrite ?lookup_insert_eq;
      rewrite ?drop_0; eauto 10.
  - unfold bind, ret. rewrite decide_True by done. rewrite drop_0. eauto 10.
Qed.

Lemma requests_same s s' l :
  (∀ q, field child_head s' q = field child_head s q) →
  (∀ q, field name s' q = field name s q) →
  requests s' l = requests s l.
Proof.
  intros Hc Hn. induction l as [|q l IH]; simpl; [done|]. rewrite IH.
  f_equal. specialize (Hc q). specialize (Hn q). unfold field in Hc, Hn.
  destruct (nodes s' !! q) as [n'|], (nodes s !! q) as [n|]; try done.
  simpl in *. injection Hc as Hc. injection Hn as Hn.
  unfold requests_of. by rewrite Hc, Hn.
Qed.

Lemma nexts_fields s s' x l :
  (∀ q, field next s' q = field next s q) → nexts s x l → nexts s' x l.
Proof.
  intros Hn. revert x. induction l as [|p l IH]; intros x; simpl; [done|].
  rewrite Hn. destruct (field next s p); [|done]. intros [-> ?]. auto.
Qed.

Lemma build_items_refused p l2 fuel : ∀ l1 i tmp arr s,
  nexts s tmp (l1 ++ p :: l2) → length (l1 ++ p :: l2) ≤ fuel →
  i + length l1 < length arr →
  (∀ q, q ∈ l1 ++ [p] → field child_head s q ≠ Some None →
        field label s q = Some None ∧
        ∃ a, field name s q = Some (Some a) ∧ is_Some (strs s !! a)) →
  field child_head s p ≠ Some None →
  oracle s !! requests s l1 = Some false →
  ∃ s', build_items fuel i tmp arr s = Done None s'.
Proof.
  induction fuel as [|fuel IH]; intros l1 i tmp arr s Hl Hlen Hi Hwf Hc Ho.
  { rewrite length_app in Hlen. simpl in Hlen. lia. }
  destruct l1 as [|q l1]; simpl in Hl, Hlen, Ho.
  - destruct Hl as [-> Hl].
    destruct (Hwf p) as (Hlab & a & Hname & Hlive); [left|done|].
    unfold field in Hl, Hc, Hlab, Hname.
    destruct (nodes s !! p) as [n|] eqn:Hp; [|done]. simpl in *.
    destruct (oracle s) as [|[] o] eqn:Hos; try done.
    eapply build_items_label_refused; try done; congruence.
  - pose proof (nexts_NoDup s tmp (q :: l1 ++ p :: l2) Hl) as Hnd.
    apply NoDup_cons in Hnd as [Hnq _].
    destruct Hl as [-> Hl]. rewrite build_items_S.
    unfold field in Hl. destruct (nodes s !! q) as [n|] eqn:Hq; [|done].
    simpl in Hl, Hi, Ho.
    rewrite (bind_Done _ _ _ _ _ (load_Done _ _ _ Hq)).
    (* the step at [q] returns, and what it leaves behind *)
    assert (requests_of n ≤ length (oracle s)) as Hreq.
    { apply lookup_lt_Some in Ho. lia. }
    assert ((∃ s1, derive_label q n s = Done None s1) ∨
            ∃ lb s1, derive_label q n s = Done (Some lb) s1 ∧
              oracle s1 = drop (if child_head n is Some _ then 1 else 0)
                            (oracle s) ∧
              (lb = None ↔ child_head n = None ∧ name n = None) ∧
              strs s ⊆ strs s1 ∧
              (∀ x, x ≠ q → nodes s1 !! x = nodes s !! x) ∧
              (∀ x, set_label None <$> nodes s1 !! x
                    = set_label None <$> nodes s !! x))
      as [[s1 Hnone]|(lb & s1 & Hlbl & Ho1 & Hlb & Hs1 & Hfr1 & Hn1)].
    { destruct (child_head n) as [c|] eqn:Ec.
      - destruct (Hwf q) as (Hlab & a & Hname & [t Ht]); [left| |].
        { unfold field. rewrite Hq. simpl. by rewrite Ec. }
        unfold field in Hlab, Hname. rewrite Hq in Hlab, Hname.
        simpl in Hlab, Hname.
        injection Hlab as Hlab. injection Hname as Hname.
        unfold requests_of in Hreq. rewrite Ec in Hreq.
        destruct (oracle s) as [|b o] eqn:Hos; [simpl in Hreq; lia|].
        destruct b.
        + right. unfold derive_label. rewrite Ec, Hlab, Hname.
          unfold SMB_ASSERT, read_str, talloc_str, alloc_granted, upd, load,
            store, bind, ret, get_state, modify. simpl.
          repeat first [rewrite Ht | rewrite Hos | rewrite Hq
                       | progress simpl].
          eexists _, _. split; [done|]. simpl.
          split_and!.
          * by rewrite drop_0.
          * split; [done|]. by intros [? _].
          * apply insert_subseteq, fresh_str.
          * intros x Hx. by rewrite lookup_insert_ne.
          * intros x. rewrite lookup_insert. case_decide; [|done].
            subst x. by rewrite Hq.
        + left. unfold derive_label. rewrite Ec, Hlab, Hname.
          unfold SMB_ASSERT, read_str, talloc_str, alloc_granted, upd, load,
            store, bind, ret, get_state, modify. simpl.
          repeat first [rewrite Ht | rewrite Hos | rewrite Hq
                       | progress simpl].
          by eexists.
      - right. exists (Heap <$> name n), s. unfold derive_label. rewrite Ec.
        split; [done|]. rewrite drop_0. split_and!; try done.
        split.
        + intros Hn. split; [done|]. by destruct (name n).
        + by intros [_ ->]. }
    { rewrite (bind_Done _ _ _ _ _ Hnone). by exists s1. }
    rewrite (bind_Done _ _ _ _ _ Hlbl).
    destruct (put_item_oracle lb (Heap <$> name n) i arr q s1)
      as (r & s2 & Hput & Hn2 & Hs2 & Ho2); [lia|].
    rewrite (bind_Done _ _ _ _ _ Hput).
    assert (∀ {A} (f : tree_node → A) x,
              (∀ m, f (set_label None m) = f m) →
              field f s2 x = field f s x) as Hf.
    { intros A f x Hfm. unfold field. rewrite Hn2.
      specialize (Hn1 x).
      destruct (nodes s1 !! x) as [m1|], (nodes s !! x) as [m|];
        try done.
      simpl in *. assert (set_label None m1 = set_label None m) as E
        by congruence.
      by rewrite <- (Hfm m1), <- (Hfm m), E. }
    assert (oracle s2 = drop (requests_of n) (oracle s)) as Ho2'.
    { rewrite Ho2, Ho1, drop_drop. f_equal. unfold requests_of.
      destruct (child_head n) as [c|] eqn:Ec.
      - destruct lb; [done|]. by destruct (proj1 Hlb eq_refl).
      - destruct lb as [c|], (name n) as [a|] eqn:En; try done.
        + by pose proof (proj2 Hlb (conj eq_refl eq_refl)).
        + by destruct (proj1 Hlb eq_refl). }
    apply (IH l1).
    + by apply (nexts_fields s); [intros x; apply Hf|].
    + lia.
    + rewrite length_insert. lia.
    + intros x Hx Hcx. rewrite Hf in Hcx by done.
      assert (x ≠ q) as Hxq.
      { intros ->. apply Hnq.
        apply elem_of_app in Hx as [?|?%list_elem_of_singleton];
          apply elem_of_app; [by left|right; subst; left]. }
      destruct (Hwf x) as (Hlab & a & Hname & [t Ht]); [by right|done|].
      unfold field. rewrite Hn2, (Hfr1 x Hxq). split; [done|].
      exists a. split; [done|]. exists t. rewrite Hs2.
      eapply lookup_weaken; [done|done].
    + by rewrite Hf.
    + rewrite (requests_same s s2) by (intros x; by apply Hf).
      by rewrite Ho2', lookup_drop.
Qed.

(** C8, amended: [tree_view_update] returns [WERR_NOMEM] whenever the item
    array is refused, and whenever the array is granted and the label text
    of a node with children is refused, at whatever place of the chain the
    node is and whatever became of the requests for display items before
    it (a refused display item is not noticed: the loop goes on).  For the
    loop to get to the node, the nodes with children up to it have a live
    name and no label yet.  Whenever the update returns [WERR_NOMEM] the
    view is as it was, every item and every text block that was live still
    is, and no link field or name of any node has changed. *)
Theorem tree_view_update_no_memory (fuel : nat) (view : tree_view)
    (list_ : option ptr) (s : state) :
  (∀ l o, nexts s (if list_ is None then root view else list_) l →
      length l ≤ fuel → oracle s = false :: o →
      tree_view_update fuel view list_ s
      = Done (WERR_NOMEM, view) (with_oracle o s)) ∧
  (∀ l1 p l2,
      nexts s (if list_ is None then root view else list_) (l1 ++ p :: l2) →
      length (l1 ++ p :: l2) ≤ fuel →
      (∀ q, q ∈ l1 ++ [p] → field child_head s q ≠ Some None →
            field label s q = Some None ∧
            ∃ a, field name s q = Some (Some a) ∧ is_Some (strs s !! a)) →
      field child_head s p ≠ Some None →
      oracle s !! 0 = Some true →
      oracle s !! (1 + requests s l1) = Some false →
      ∃ s', tree_view_update fuel view list_ s
            = Done (WERR_NOMEM, view) s') ∧
  (∀ view' s',
      tree_view_update fuel view list_ s = Done (WERR_NOMEM, view') s' →
      view' = view ∧
      (∀ i it, items s !! i = Some it → items s' !! i = Some it) ∧
      (∀ a t, strs s !! a = Some t → strs s' !! a = Some t) ∧
      (∀ q, field parent s' q = field parent s q ∧
            field child_head s' q = field child_head s q ∧
            field previous s' q = field previous s q ∧
            field next s' q = field next s q ∧
            field name s' q = field name s q) ∧
      released s' = released s).
Proof.
  split_and!.
  - intros l o Hl Hlen Ho. unfold tree_view_update.
    rewrite (bind_Done _ _ _ _ _ (count_next_nexts _ _ _ _ 0 Hl Hlen)).
    unfold talloc_zero_array, alloc_granted, bind. by rewrite Ho.
  - intros l1 p l2 Hl Hlen Hwf Hc Harr Ho. unfold tree_view_update.
    rewrite (bind_Done _ _ _ _ _ (count_next_nexts _ _ _ _ 0 Hl Hlen)).
    destruct (oracle s) as [|[] o] eqn:Hos; try done.
    set (s0 := with_oracle o s).
    assert (talloc_zero_array (0 + length (l1 ++ p :: l2) + 1) s
            = Done (Some (replicate (0 + length (l1 ++ p :: l2) + 1) None)) s0)
      as Ha.
    { unfold talloc_zero_array, alloc_granted, bind, ret. by rewrite Hos. }
    rewrite (bind_Done _ _ _ _ _ Ha).
    destruct (build_items_refused p l2 fuel l1 0
                (if list_ is None then root view else list_)
                (replicate (0 + length (l1 ++ p :: l2) + 1) None) s0)
      as [s1 Hb]; try done.
    + by apply (nexts_fields s).
    + rewrite length_replicate, length_app. simpl. lia.
    + rewrite (requests_same s s0) by done. exact Ho.
    + rewrite (bind_Done _ _ _ _ _ Hb). by exists s1.
  - intros view' s' H.
    destruct (tree_view_update_inv _ _ _ _ _ _ _ H _ eq_refl)
      as (n & arr & s0 & Hc & Ha & Hrest).
    apply talloc_zero_array_grows in Ha.
    assert (view' = view ∧ grows s s') as [-> Hg].
    { destruct arr as [arr|].
      - destruct Hrest as (r & s1 & Hb & Hrest).
        apply build_items_grows in Hb.
        destruct r as [arr'|]; [by destruct Hrest|].
        destruct Hrest as (_ & -> & ->). eauto using grows_trans.
      - by destruct Hrest as (_ & -> & ->). }
    split_and!; try done.
    + intros i it Hi. eapply lookup_weaken; [exact Hi|apply Hg].
    + intros a t Ha'. eapply lookup_weaken; [exact Ha'|apply Hg].
    + intros q. split_and!; by apply grows_field.
    + apply Hg.
Qed.

Lemma build_items_built fuel : ∀ i tmp arr s arr' s',
  build_items fuel i tmp arr s = Done (Some arr') s' →
  i ≤ length arr →
  ∃ l, nexts s tmp l ∧ built s s' l i arr arr'.
Proof.
  induction fuel as [|fuel IH]; intros i [p|] arr s arr' s' H Hi;
    try (unfold build_items, ret in H; simplify_eq; exists [];
         split; [done|]; split; simpl;
         [by auto|by intros ? ?%elem_of_nil|done|lia|done|done]).
  1: by simpl in H.
  rewrite build_items_S in H.
  apply bind_inv in H as (n & s0 & Hload & H).
  apply load_inv in Hload as [Hp ->].
  apply bind_inv in H as (lbl & s1 & Hlbl & H).
  pose proof (derive_label_inv _ _ _ _ _ Hp Hlbl)
    as (Hg1 & Hfr1 & Hass & Hleaf & Hi1).
  destruct lbl as [lbl|]; [|unfold ret in H; by simplify_eq].
  apply bind_inv in H as (item & s2 & Hput & H).
  pose proof (put_item_grows _ _ _ _ _ _ _ _ Hput) as Hg2.
  apply put_item_inv in Hput as (Hlt & Hn2 & Hs2 & Hr2 & Hit2).
  pose proof (build_items_grows _ _ _ _ _ _ _ H) as Hg3.
  apply IH in H as (l & Hl & Hb); [|rewrite length_insert; lia].
  assert (grows s s2) as Hg12 by eauto using grows_trans.
  exists (p :: l). split.
  { simpl. split; [done|]. unfold field. rewrite Hp. simpl.
    by apply (nexts_grows s s2). }
  destruct Hb as [Hlab Hasrt Hlen Hbound Hbefore Hslots].
  rewrite length_insert in Hlen, Hbound.
  split.
  - intros q a Hq. destruct (decide (q = p)) as [->|Hne]; [right; left|].
    destruct (Hlab q a Hq) as [Hq2|Hq2]; [|right; by right].
    left. unfold field in *. by rewrite Hn2, (Hfr1 q Hne) in Hq2.
  - intros q [->|Hq]%elem_of_cons Hch.
    + unfold field in *. rewrite Hp in *. simpl in *.
      rewrite Hass; [done|]. congruence.
    + rewrite <- (grows_field child_head s s2) in Hch by done.
      pose proof (Hasrt q Hq Hch) as Hnull.
      destruct (decide (q = p)) as [->|Hne].
      * destruct (child_head n) as [c|] eqn:Ec.
        -- unfold field. rewrite Hp. simpl. by rewrite Hass.
        -- destruct (Hleaf eq_refl) as [-> _].
           unfold field in *. by rewrite Hn2 in Hnull.
      * unfold field in *. by rewrite Hn2, (Hfr1 q Hne) in Hnull.
  - done.
  - simpl. lia.
  - intros k Hk. rewrite Hbefore by lia.
    apply list_lookup_insert_ne. lia.
  - intros [|k] q Hq; simpl in Hq.
    + simplify_eq. rewrite Nat.add_0_r. exists item. split.
      * rewrite Hbefore by lia. by apply list_lookup_insert_eq.
      * intros it ->. destruct Hit2 as (Hfresh & c & -> & Hit2).
        rewrite Hi1 in Hfresh. split; [done|].
        exists (Item c (Heap <$> name n) (Some q)). split; [|done].
        eapply lookup_weaken; [|apply Hg3]. rewrite Hit2.
        apply lookup_insert_eq.
    + destruct (Hslots k q Hq) as (o & Ho & Hnew).
      exists o. split; [by rewrite <- Nat.add_succ_comm|].
      intros it ->. destruct (Hnew it eq_refl) as (Hfresh & It & HIt & Hu).
      split; [|eauto].
      eapply lookup_weaken_None; [exact Hfresh|apply Hg12].
Qed.

Lemma tree_view_free_current_items_inv v v' s s' :
  tree_view_free_current_items v s = Done v' s' →
  shrinks s s' ∧
  (∀ i, i ∉ posted_items v → items s' !! i = items s !! i) ∧
  (∀ i p, i ∈ posted_items v → item_node s i = Some p →
      field label s' p = Some None ∧
      ∀ a, field label s p = Some (Some a) → strs s' !! a = None).
Proof.
  unfold tree_view_free_current_items, posted_items.
  destruct (current_items v) as [arr|].
  - intros ([] & s1 & Hloop & H)%bind_inv. unfold ret in H. simplify_eq.
    by apply free_items_loop_inv.
  - unfold ret. intros [= <- <-]. split_and!.
    + apply shrinks_refl.
    + done.
    + intros i p Hi. by apply elem_of_nil in Hi.
Qed.

Lemma talloc_zero_array_inv n arr s s' :
  talloc_zero_array n s = Done (Some arr) s' →
  nodes s' = nodes s ∧ strs s' = strs s ∧ items s' = items s ∧ length arr = n.
Proof.
  unfold talloc_zero_array. intros (ok & s1 & Ha & H)%bind_inv.
  apply alloc_granted_inv in Ha as (Hn & Hs & Hi & _).
  unfold ret in H. destruct ok; simplify_eq.
  by rewrite length_replicate.
Qed.

Lemma array_items_full (its : list positive) :
  array_items ((Some <$> its) ++ [None]) = its.
Proof. induction its as [|i its IH]; simpl; [done|]. f_equal. apply IH. Qed.

Lemma build_items_asserts fuel i p n arr s :
  nodes s !! p = Some n → child_head n ≠ None → label n ≠ None →
  build_items (S fuel) i (Some p) arr s = Panic.
Proof.
  intros Hp Hc Hl.
  rewrite build_items_S, (bind_Done _ _ _ _ _ (load_Done _ _ _ Hp)).
  unfold derive_label. destruct (child_head n); [|done].
  destruct (label n); [|done]. done.
Qed.

(** C9, amended: a successful update releases the label text of every node
    referenced by the item list shown before and leaves the label field of
    each of them null; it found a null label at every node with children of
    the chain it displays, and its loop dies in [SMB_ASSERT] on a node with
    children whose label is not null.  If, before the update, only nodes
    referenced by the list on display carried a label, and the update has
    built every item of the new list, the same holds afterwards for the new
    list. *)
Theorem tree_view_update_labels (fuel : nat) (view view' : tree_view)
    (list_ : option ptr) (s s' : state) :
  tree_view_update fuel view list_ s = Done (WERR_OK, view') s' →
  (∀ i p, i ∈ posted_items view → item_node s i = Some p →
      field label s' p = Some None ∧
      ∀ a, field label s p = Some (Some a) → strs s' !! a = None) ∧
  (∀ l p, nexts s (if list_ is None then root view else list_) l →
      p ∈ l → field child_head s p ≠ Some None →
      field label s p = Some None) ∧
  (∀ i p n arr s0,
      nodes s0 !! p = Some n → child_head n ≠ None → label n ≠ None →
      build_items (S fuel) i (Some p) arr s0 = Panic) ∧
  (label_inv s view →
   (∀ i, i ∈ posted_items view → is_Some (items s !! i)) →
   current_items view' = Some ((Some <$> posted_items view') ++ [None]) →
   label_inv s' view') ∧
  (∀ v s0 s1, label_inv s0 v →
     (∃ par nm r, tree_node_new par nm s0 = Done r s1) ∨
     (∃ a b, tree_node_append a b s0 = Done tt s1) ∨
     (∃ pl r, tree_node_pop pl s0 = Done r s1) ∨
     (∃ fuel' pl, tree_node_free_recursive fuel' pl s0 = Done tt s1) →
     label_inv s1 v).
Proof.
  intros H.
  destruct (tree_view_update_inv _ _ _ _ _ _ _ H _ eq_refl)
    as (n & arr & s0 & Hc & Ha & Hrest).
  destruct arr as [arr|]; [|by destruct Hrest].
  destruct Hrest as (r & s1 & Hb & Hrest).
  destruct r as [arr'|]; [|by destruct Hrest].
  destruct Hrest as (_ & v2 & Hfree & ->).
  apply talloc_zero_array_inv in Ha as (Hn0 & Hs0 & Hi0 & Hlen0).
  pose proof (build_items_grows _ _ _ _ _ _ _ Hb) as Hg.
  apply build_items_built in Hb as (l & Hl & Hbuilt); [|lia].
  apply tree_view_free_current_items_inv in Hfree as (Hsh & Hkeep & Hclr).
  change (posted_items (set_menu _ view)) with (posted_items view) in *.
  assert (∀ {A} (f : tree_node → A) q, field f s0 q = field f s q) as Hf0.
  { intros A f q. unfold field. by rewrite Hn0. }
  assert (nexts s (if list_ is None then root view else list_) l) as Hl'.
  { clear -Hl Hn0. revert Hl.
    generalize (if list_ is None then root view else list_).
    induction l as [|p l IH]; intros x; simpl; [done|].
    unfold field. rewrite Hn0. destruct (nodes s !! p); simpl; [|done].
    intros [-> ?]. auto. }
  assert (∀ i p, i ∈ posted_items view → item_node s i = Some p →
      field label s' p = Some None ∧
      ∀ a, field label s p = Some (Some a) → strs s' !! a = None) as HA.
  { intros i p Hi Hnode.
    assert (item_node s1 i = Some p) as Hnode1.
    { unfold item_node in *.
      destruct (items s !! i) as [It|] eqn:Ei; [|done].
      rewrite <- Hi0 in Ei.
      by rewrite (lookup_weaken _ _ _ _ Ei (g_items _ _ Hg)). }
    destruct (Hclr i p Hi Hnode1) as [Hnull Hgone]. split; [done|].
    intros a Ha. apply Hgone, (g_label _ _ Hg). by rewrite Hf0. }
  split_and!.
  - exact HA.
  - intros l0 p Hl0 Hp Hch.
    rewrite (nexts_functional _ _ _ _ Hl0 Hl') in Hp.
    rewrite <- Hf0 in Hch. rewrite <- Hf0.
    by apply (b_assert _ _ _ _ _ _ Hbuilt).
  - intros. by eapply build_items_asserts.
  - intros Hinv Hlive Hfull p a Hp.
    pose proof (sh_label _ _ Hsh _ _ Hp) as Hp1.
    destruct (b_label _ _ _ _ _ _ Hbuilt _ _ Hp1) as [Hold|Hnew].
    + (* a label from before the update has been released *)
      rewrite Hf0 in Hold.
      destruct (Hinv p a Hold) as (i & Hi & Hnode).
      destruct (HA i p Hi Hnode) as [Hnull _]. congruence.
    + (* a label made by this update belongs to a node on display *)
      apply list_elem_of_lookup in Hnew as [k Hk].
      destruct (b_slots _ _ _ _ _ _ Hbuilt k p Hk) as (o & Ho & Hitem).
      simpl in Ho, Hfull. injection Hfull as Hfull.
      pose proof (count_next_length _ _ _ _ _ _ Hc) as (l1 & Hl1 & ->).
      rewrite (nexts_functional _ _ _ _ Hl1 Hl') in *. simpl in Hlen0.
      pose proof (b_length _ _ _ _ _ _ Hbuilt) as Hlen'.
      unfold posted_items in *. simpl in *.
      rewrite Hfull, array_items_full in *.
      set (its := array_items arr') in *.
      assert (length its = length l) as Hits.
      { rewrite length_app, length_fmap in Hlen'. simpl in Hlen'. lia. }
      assert (k < length its) as Hk'.
      { rewrite Hits. by eapply lookup_lt_Some. }
      destruct (lookup_lt_is_Some_2 its k Hk') as [it Hit].
      assert (o = Some it) as ->.
      { rewrite lookup_app_l in Ho by (rewrite length_fmap; lia).
        rewrite list_lookup_fmap, Hit in Ho. by simplify_eq/=. }
      destruct (Hitem it eq_refl) as (Hfresh & It & HIt & Hu).
      exists it. split; [by eapply list_elem_of_lookup_2|].
      unfold item_node. rewrite Hkeep.
      * rewrite HIt. done.
      * intros Hin. destruct (Hlive it Hin) as [? Hx].
        rewrite <- Hi0 in Hx. congruence.
  - intros v t0 t1 Hinv Hop. eapply label_inv_keeps; [|exact Hinv].
    destruct Hop as [(par & nm & r & Hop)|[(a & b & Hop)|[(pl & r & Hop)|
      (fuel' & pl & Hop)]]].
    + by eapply keeps_tree_node_new.
    + by eapply keeps_tree_node_append.
    + by eapply keeps_tree_node_pop.
    + by eapply keeps_tree_node_free_recursive.
Qed.

(** ** The items an update posts *)

Lemma derive_label_text p n lbl s s' :
  nodes s !! p = Some n →
  derive_label p n s = Done (Some lbl) s' →
  (child_head n = None ∧ lbl = Heap <$> name n ∧ s' = s) ∨
  (∃ c a nm, child_head n = Some c ∧ lbl = Some (Heap a) ∧
     strs s !! a = None ∧ node_name s p = Some nm ∧
     strs s' = <[a := ("+" +:+ nm)%string]> (strs s) ∧
     nodes s' = <[p := set_label (Some a) n]> (nodes s)).
Proof.
  intros Hp. unfold derive_label. destruct (child_head n) as [c|] eqn:Ec.
  - intros ([] & s1 & Hass & H)%bind_inv.
    unfold SMB_ASSERT in Hass.
    destruct (label n) as [|] eqn:El; simpl in Hass; [done|].
    unfold ret in Hass. injection Hass as <-.
    apply bind_inv in H as (nm & s2 & Hnm & H).
    destruct (name n) as [a0|] eqn:En; [|done]. unfold read_str in Hnm.
    destruct (strs s !! a0) as [t|] eqn:Ea0; [|done].
    injection Hnm as <- <-.
    apply bind_inv in H as (l & s3 & Hl & H).
    apply talloc_str_inv in Hl as (Hn3 & Hi3 & Hr3 & Hs3).
    apply bind_inv in H as ([] & s4 & Hupd & H).
    apply upd_inv in Hupd as (n' & Hn' & ->).
    unfold ret in H. destruct l as [a|]; [|done]. injection H as <- <-.
    rewrite Hn3, Hp in Hn'. injection Hn' as <-.
    destruct Hs3 as [Hfresh Hs3].
    right. exists c, a, t. split_and!; try done.
    + unfold node_name. rewrite Hp. simpl. rewrite En. simpl. done.
    + simpl. by rewrite Hn3.
  - unfold ret. intros [= <- <-]. by left.
Qed.

Lemma node_name_grows_back s s' p nm :
  grows s s' →
  (∀ q a, field name s q = Some (Some a) → is_Some (strs s !! a)) →
  node_name s' p = Some nm → node_name s p = Some nm.
Proof.
  intros Hg Hlive. unfold node_name.
  pose proof (grows_field name s s' p (λ _, eq_refl) Hg) as Hf.
  specialize (Hlive p). unfold field in Hf, Hlive.
  destruct (nodes s !! p) as [n|], (nodes s' !! p) as [n'|];
    try done.
  cbn in Hf, Hlive. injection Hf as Hf. cbn. rewrite Hf.
  destruct (name n) as [a|]; cbn; [|done].
  destruct (Hlive a eq_refl) as [t Ht].
  rewrite (lookup_weaken _ _ _ _ Ht (g_strs _ _ Hg)). by rewrite Ht.
Qed.

Lemma names_live_grows s s' :
  grows s s' →
  (∀ q a, field name s q = Some (Some a) → is_Some (strs s !! a)) →
  ∀ q a, field name s' q = Some (Some a) → is_Some (strs s' !! a).
Proof.
  intros Hg Hlive q a. rewrite (grows_field name s s') by done.
  intros [t Ht]%Hlive. exists t.
  eapply lookup_weaken; [exact Ht|apply Hg].
Qed.

Lemma build_items_texts fuel : ∀ i tmp arr s arr' s' l,
  build_items fuel i tmp arr s = Done (Some arr') s' →
  nexts s tmp l →
  (∀ q a, field name s q = Some (Some a) → is_Some (strs s !! a)) →
  (∀ k p it, l !! k = Some p → arr' !! (i + k) = Some (Some it) →
     item_made s s' p it) ∧
  (∀ q, field child_head s q = Some None →
     field label s' q = field label s q).
Proof.
  induction fuel as [|fuel IH]; intros i [p|] arr s arr' s' l H Hl Hlive.
  - done.
  - unfold build_items, ret in H. simplify_eq. destruct l; [|by destruct Hl].
    split; [by intros k p it ?|done].
  - rewrite build_items_S in H. destruct l as [|p' l]; [done|].
    destruct Hl as [[= <-] Hl].
    apply bind_inv in H as (n & s0 & Hload & H).
    apply load_inv in Hload as [Hp ->].
    unfold field in Hl. rewrite Hp in Hl. simpl in Hl.
    apply bind_inv in H as (lbl & s1 & Hlbl & H).
    pose proof (derive_label_inv _ _ _ _ _ Hp Hlbl)
      as (Hg1 & Hfr1 & Hass & Hleaf & Hi1).
    destruct lbl as [lbl|]; [|unfold ret in H; by simplify_eq].
    pose proof (derive_label_text _ _ _ _ _ Hp Hlbl) as Htext.
    apply bind_inv in H as (item & s2 & Hput & H).
    pose proof (put_item_grows _ _ _ _ _ _ _ _ Hput) as Hg2.
    apply put_item_inv in Hput as (Hlt & Hn2 & Hs2 & Hr2 & Hit2).
    pose proof (build_items_grows _ _ _ _ _ _ _ H) as Hg3.
    pose proof H as Hbuilt.
    apply build_items_built in Hbuilt as (l0 & Hl0 & Hbuilt);
      [|rewrite length_insert; lia].
    assert (grows s s2) as Hg12 by eauto using grows_trans.
    assert (nexts s2 (next n) l) as Hl2 by by apply (nexts_grows s s2).
    rewrite (nexts_functional _ _ _ _ Hl0 Hl2) in Hbuilt. clear l0 Hl0.
    destruct (IH _ _ _ _ _ _ _ H Hl2 (names_live_grows _ _ Hg12 Hlive))
      as (Hmade & Hkeep).
    split.
    + intros [|k] q it Hq Hslot; simpl in Hq.
      * (* the item of the node at hand *)
        injection Hq as <-. rewrite Nat.add_0_r in Hslot.
        rewrite (b_before _ _ _ _ _ _ Hbuilt) in Hslot by lia.
        rewrite list_lookup_insert_eq in Hslot by done.
        injection Hslot as ->.
        destruct Hit2 as (Hfresh & c & -> & Hit2).
        exists (Item c (Heap <$> name n) (Some p)). split.
        { eapply lookup_weaken; [|apply Hg3]. rewrite Hit2.
          apply lookup_insert_eq. }
        simpl.
        destruct Htext as [(Hc & Hlbl' & ->)|
          (c' & a & nm & Hc & [= ->] & Hfa & Hnm & Hs1 & Hn1)].
        -- left. unfold field. rewrite Hp. simpl. rewrite Hc.
           split; [done|].
           destruct (name n) as [a|]; [|done]. injection Hlbl' as ->. eauto.
        -- right. exists c', a, nm. unfold field at 1. rewrite Hp. simpl.
           rewrite Hc. split_and!; try done.
           ++ apply (g_label _ _ Hg3). unfold field. rewrite Hn2, Hn1.
              by rewrite lookup_insert_eq.
           ++ eapply lookup_weaken; [|apply Hg3].
              rewrite Hs2, Hs1. apply lookup_insert_eq.
      * (* an item of the rest of the chain *)
        rewrite <- Nat.add_succ_comm in Hslot.
        destruct (Hmade k q it Hq Hslot) as (It & HIt & Hcase).
        exists It. split; [done|].
        rewrite !(grows_field child_head s s2) in Hcase by done.
        rewrite !(grows_field name s s2) in Hcase by done.
        destruct Hcase as [Hcase|(c' & a & nm & Hc & Hname & Hlab & Hfa & Hnm & Hs')];
          [by left|right].
        exists c', a, nm. split_and!; try done.
        -- eapply lookup_weaken_None; [exact Hfa|apply Hg12].
        -- by apply (node_name_grows_back s s2).
    + intros q Hq.
      rewrite Hkeep by (by rewrite (grows_field child_head s s2)).
      destruct (decide (q = p)) as [->|Hne].
      * unfold field in Hq. rewrite Hp in Hq. simpl in Hq.
        destruct (Hleaf ltac:(congruence)) as [-> _].
        unfold field. by rewrite Hn2.
      * unfold field. by rewrite Hn2, (Hfr1 q Hne).
  - unfold build_items, ret in H. simplify_eq. destruct l; [|by destruct Hl].
    split; [by intros k p it ?|done].
Qed.

Lemma shrinks_field {A} (f : tree_node → A) s s' q :
  (∀ n, f (set_label None n) = f n) →
  shrinks s s' → field f s' q = field f s q.
Proof.
  intros Hf [Hn _ _ _ _ _]. specialize (Hn q). unfold field.
  destruct (nodes s' !! q) as [n'|], (nodes s !! q) as [n|];
    try done.
  cbn [fmap option_fmap option_map] in *.
  assert (set_label None n' = set_label None n) as E by congruence.
  by rewrite <- (Hf n'), <- (Hf n), E.
Qed.

Lemma free_step_strs item s s' b :
  free_step item s = Done tt s' →
  (∀ p, item_node s item = Some p → field label s p ≠ Some (Some b)) →
  strs s' !! b = strs s !! b.
Proof.
  unfold free_step. intros (tmp & s1 & Hu & H)%bind_inv Hb.
  unfold item_userptr in Hu. apply bind_inv in Hu as (It & s0 & Hit & Hu).
  unfold load_item in Hit. destruct (items s !! item) as [It'|] eqn:Ei; [|done].
  unfold ret in Hu. simplify_eq.
  apply bind_inv in H as ([] & s2 & Hclr & H).
  unfold free_item, bind, load_item, modify in H.
  destruct (items s2 !! item) as [It2|] eqn:Ei2; [|done]. simplify_eq.
  simpl. unfold item_node in Hb. rewrite Ei in Hb. simpl in Hb.
  destruct (it_userptr It) as [p|] eqn:Ep.
  - specialize (Hb p eq_refl).
    apply bind_inv in Hclr as (n & s3 & Hload & Hclr).
    apply load_inv in Hload as [Hp ->].
    unfold field in Hb. rewrite Hp in Hb. simpl in Hb.
    destruct (label n) as [a|] eqn:El.
    + apply bind_inv in Hclr as ([] & s4 & Hfree & Hupd).
      unfold talloc_free_str in Hfree.
      destruct (strs s1 !! a) as [t|] eqn:Ea; [|done]. simplify_eq.
      apply upd_inv in Hupd as (n' & Hn' & ->). simpl.
      apply lookup_delete_ne. congruence.
    + unfold ret in Hclr. by simplify_eq.
  - unfold ret in Hclr. by simplify_eq.
Qed.

Lemma free_items_loop_strs arr b : ∀ s s',
  free_items_loop arr s = Done tt s' →
  (∀ i p, i ∈ array_items arr → item_node s i = Some p →
          field label s p ≠ Some (Some b)) →
  strs s' !! b = strs s !! b.
Proof.
  induction arr as [|[item|] arr IH]; intros s s' H Hb.
  - done.
  - rewrite free_items_loop_cons in H.
    apply bind_inv in H as ([] & s1 & Hstep & H).
    pose proof (free_step_strs _ _ _ b Hstep) as Hs1.
    apply free_step_inv in Hstep as (It & Hit & Hdel & Hsh & _).
    rewrite (IH _ _ H).
    + apply Hs1. intros p. apply Hb. simpl. apply elem_of_cons. by left.
    + intros i p Hi Hnode Hlab. apply (Hb i p).
      * simpl. apply elem_of_cons. by right.
      * unfold item_node in *.
        destruct (items s1 !! i) as [It1|] eqn:Ei; [|done].
        by rewrite (lookup_weaken _ _ _ _ Ei (sh_items _ _ Hsh)).
      * by apply (sh_label _ _ Hsh).
  - unfold free_items_loop, ret in H. by simplify_eq.
Qed.

Lemma tree_view_free_current_items_strs v v' s s' b :
  tree_view_free_current_items v s = Done v' s' →
  (∀ i p, i ∈ posted_items v → item_node s i = Some p →
          field label s p ≠ Some (Some b)) →
  strs s' !! b = strs s !! b.
Proof.
  unfold tree_view_free_current_items, posted_items.
  destruct (current_items v) as [arr|].
  - intros ([] & s1 & Hloop & H)%bind_inv. unfold ret in H. simplify_eq.
    by apply free_items_loop_strs.
  - unfold ret. by intros [= <- <-].
Qed.

Lemma text_okb_sound s : text_okb s = true → text_ok s.
Proof.
  unfold text_okb. intros H%Is_true_true_2%forallb_True.
  rewrite Forall_forall in H.
  assert (∀ q n, nodes s !! q = Some n →
            n ∈ (map_to_list (nodes s)).*2) as Hin.
  { intros q n Hq. apply list_elem_of_fmap. exists (q, n).
    split; [done|]. by apply elem_of_map_to_list. }
  assert (∀ {A} (f : tree_node → A) q v, field f s q = Some v →
            ∃ n, n ∈ (map_to_list (nodes s)).*2 ∧ f n = v) as Hfield.
  { intros A f q v. unfold field.
    destruct (nodes s !! q) as [n|] eqn:Eq; [|done].
    intros [= <-]. eauto. }
  split.
  - intros q a (n & Hn & Ea)%Hfield.
    apply H in Hn. apply andb_True in Hn as [[Hn _]%andb_True _].
    rewrite Ea in Hn. by apply bool_decide_unpack in Hn.
  - intros q a (n & Hn & Ea)%Hfield.
    apply H in Hn. apply andb_True in Hn as [[_ Hn]%andb_True _].
    rewrite Ea in Hn. by apply bool_decide_unpack in Hn.
  - intros q p a (n & Hn & Ea)%Hfield (m & Hm & Eb)%Hfield.
    apply H in Hn. apply andb_True in Hn as [_ Hn].
    apply forallb_True in Hn. rewrite Forall_forall in Hn.
    specialize (Hn m Hm). rewrite Ea, Eb in Hn. simpl in Hn.
    by rewrite bool_decide_eq_true_2 in Hn.
Qed.

(** C1, amended: names and labels being live text blocks, no block serving
    as both, and the items shown before being live, a successful update that
    has built every item, and whose previous list refers to no node of the
    chain that has children, posts as many items as the chain has nodes
    (walking [next]); the item in place [k] points back to the node in place
    [k] of the chain and displays what [shows] says: the name of the node,
    with "+" in front exactly when [child_head] is not null.  A null chain
    argument stands for the root chain of the view.  Names and [child_head]
    are the same before and after. *)
Theorem tree_view_update_items (fuel : nat) (view view' : tree_view)
    (list_ : option ptr) (s s' : state) (l : list ptr) :
  tree_view_update fuel view list_ s = Done (WERR_OK, view') s' →
  nexts s (if list_ is None then root view else list_) l →
  text_ok s →
  (∀ i, i ∈ posted_items view → is_Some (items s !! i)) →
  (∀ i p, i ∈ posted_items view → item_node s i = Some p → p ∈ l →
          field child_head s p = Some None) →
  current_items view' = Some ((Some <$> posted_items view') ++ [None]) →
  length (posted_items view') = length l ∧
  ∀ k p, l !! k = Some p →
    ∃ it, posted_items view' !! k = Some it ∧
          item_node s' it = Some p ∧
          item_text s' it = shows s' p ∧
          shows s' p = shows s p ∧
          is_Some (shows s p).
Proof.
  intros H Hl' Hok Hlive Hsep Hfull.
  destruct (tree_view_update_inv _ _ _ _ _ _ _ H _ eq_refl)
    as (n & arr & s0 & Hc & Ha & Hrest).
  destruct arr as [arr|]; [|by destruct Hrest].
  destruct Hrest as (r & s1 & Hb & Hrest).
  destruct r as [arr'|]; [|by destruct Hrest].
  destruct Hrest as (_ & v2 & Hfree & ->).
  apply talloc_zero_array_inv in Ha as (Hn0 & Hs0 & Hi0 & Hlen0).
  pose proof (build_items_grows _ _ _ _ _ _ _ Hb) as Hg.
  assert (∀ {A} (f : tree_node → A) q, field f s0 q = field f s q) as Hf0.
  { intros A f q. unfold field. by rewrite Hn0. }
  assert (∀ q, node_name s0 q = node_name s q) as Hnm0.
  { intros q. unfold node_name. by rewrite Hn0, Hs0. }
  assert (nexts s0 (if list_ is None then root view else list_) l) as Hl.
  { clear -Hl' Hn0. revert Hl'.
    generalize (if list_ is None then root view else list_).
    induction l as [|p l IH]; intros x; simpl; [done|].
    unfold field. rewrite Hn0. destruct (nodes s !! p); simpl; [|done].
    intros [-> ?]. auto. }
  assert (∀ q a, field name s0 q = Some (Some a) → is_Some (strs s0 !! a))
    as Hlive0.
  { intros q a. rewrite Hf0, Hs0. apply Hok. }
  destruct (build_items_texts _ _ _ _ _ _ _ _ Hb Hl Hlive0)
    as (Hmade & Hleaf).
  apply build_items_built in Hb as (l0 & Hl0 & Hbuilt); [|lia].
  rewrite (nexts_functional _ _ _ _ Hl0 Hl) in Hbuilt. clear l0 Hl0.
  pose proof (λ b, tree_view_free_current_items_strs _ _ _ _ b Hfree)
    as Hstrs.
  apply tree_view_free_current_items_inv in Hfree as (Hsh & Hkeep & Hclr).
  change (posted_items (set_menu _ view)) with (posted_items view) in *.
  (* what the list shown before refers to, after the building loop *)
  assert (∀ i q, i ∈ posted_items view → item_node s1 i = Some q →
            item_node s i = Some q) as Hold.
  { intros i q Hi. unfold item_node.
    destruct (Hlive i Hi) as [It Ei]. rewrite Ei.
    rewrite <- Hi0 in Ei.
    by rewrite (lookup_weaken _ _ _ _ Ei (g_items _ _ Hg)). }
  (* a label of such a node is a label from before the update *)
  assert (∀ i q a, i ∈ posted_items view → item_node s1 i = Some q →
            field label s1 q = Some (Some a) →
            field label s q = Some (Some a)) as Hlab.
  { intros i q a Hi Hnode Hq.
    destruct (b_label _ _ _ _ _ _ Hbuilt _ _ Hq) as [Hq0|Hin].
    - by rewrite <- Hf0.
    - rewrite <- Hf0, <- (Hleaf q); [done|].
      rewrite Hf0. eapply Hsep; eauto. }
  (* the name blocks survive *)
  assert (∀ q a, field name s q = Some (Some a) →
            strs s' !! a = strs s !! a) as Hnames.
  { intros q a Hq. destruct (names_live _ Hok _ _ Hq) as [t Ht].
    rewrite Hstrs.
    - rewrite Ht. eapply lookup_weaken; [|apply Hg]. by rewrite Hs0.
    - intros i q' Hi Hnode Hq'.
      by apply (label_not_name _ Hok q' q a (Hlab _ _ _ Hi Hnode Hq')). }
  assert (∀ q, node_name s' q = node_name s q) as Hnm.
  { intros q. unfold node_name.
    pose proof (shrinks_field name s1 s' q (λ _, eq_refl) Hsh) as E1.
    pose proof (grows_field name s0 s1 q (λ _, eq_refl) Hg) as E2.
    rewrite E2, Hf0 in E1. pose proof (Hnames q) as Hq.
    unfold field in E1, Hq.
    destruct (nodes s' !! q) as [n'|], (nodes s !! q) as [nq|]; try done.
    cbn in E1, Hq |- *. injection E1 as ->.
    destruct (name nq) as [a|]; cbn; [|done]. by apply Hq. }
  assert (∀ q, field child_head s' q = field child_head s q) as Hch.
  { intros q. rewrite (shrinks_field child_head s1 s') by done.
    by rewrite (grows_field child_head s0 s1), Hf0. }
  assert (∀ q, shows s' q = shows s q) as Hshows.
  { intros q. unfold shows. by rewrite Hch, Hnm. }
  (* the new array *)
  simpl in Hfull. injection Hfull as Hfull.
  pose proof (b_length _ _ _ _ _ _ Hbuilt) as Hlen'.
  change (posted_items (set_current_items (Some arr') v2))
    with (array_items arr') in *.
  set (its := array_items arr') in *. clearbody its. subst arr'.
  pose proof (count_next_length _ _ _ _ _ _ Hc) as (l1 & Hl1 & ->).
  rewrite (nexts_functional _ _ _ _ Hl1 Hl') in *. simpl in Hlen0.
  assert (length its = length l) as Hits.
  { rewrite length_app, length_fmap in Hlen'. simpl in Hlen'. lia. }
  split; [done|].
  intros k p Hk.
  assert (k < length its) as Hk'.
  { rewrite Hits. by eapply lookup_lt_Some. }
  destruct (lookup_lt_is_Some_2 its k Hk') as [it Hit].
  assert (((Some <$> its) ++ [None]) !! (0 + k) = Some (Some it)) as Hslot.
  { simpl. rewrite lookup_app_l by (rewrite length_fmap; lia).
    by rewrite list_lookup_fmap, Hit. }
  destruct (b_slots _ _ _ _ _ _ Hbuilt k p Hk) as (o & Ho & Hitem).
  rewrite Hslot in Ho. injection Ho as <-.
  destruct (Hitem it eq_refl) as (Hfresh & It & HIt & Hu).
  destruct (Hmade k p it Hk Hslot) as (It' & HIt' & Hcase).
  rewrite HIt in HIt'. injection HIt' as <-.
  assert (items s' !! it = Some It) as HIt'.
  { rewrite Hkeep; [done|]. intros Hin. destruct (Hlive it Hin) as [? Hx].
    rewrite <- Hi0 in Hx. congruence. }
  exists it. split; [done|]. split.
  { unfold item_node. by rewrite HIt'. }
  rewrite Hshows. split; [|split; [done|]].
  - unfold item_text. rewrite HIt'. simpl.
    destruct Hcase as [(Hc0 & a & Hname & ->)|
      (c & a & nm & Hc0 & -> & Hlab1 & Hfa & Hnm1 & Ha1)]; simpl.
    + rewrite Hf0 in Hc0, Hname. unfold shows. rewrite Hc0.
      rewrite (Hnames _ _ Hname). unfold node_name. unfold field in Hname.
      destruct (nodes s !! p) as [np|]; [|done]. cbn in Hname |- *.
      injection Hname as ->. done.
    + rewrite Hf0 in Hc0. rewrite Hnm0 in Hnm1.
      unfold shows. rewrite Hc0, Hnm1. simpl.
      rewrite Hstrs; [done|].
      intros i q Hi Hnode Hq.
      destruct (labels_live _ Hok _ _ (Hlab _ _ _ Hi Hnode Hq)) as [t Ht].
      rewrite <- Hs0 in Ht. congruence.
  - destruct Hcase as [(Hc0 & a & Hname & _)|
      (c & a & nm & Hc0 & _ & _ & _ & Hnm1 & _)].
    + rewrite Hf0 in Hc0, Hname. unfold shows. rewrite Hc0.
      destruct (names_live _ Hok _ _ Hname) as [t Ht].
      exists t. unfold node_name. unfold field in Hname.
      destruct (nodes s !! p) as [np|]; [|done]. cbn in Hname |- *.
      injection Hname as ->. done.
    + rewrite Hf0 in Hc0. rewrite Hnm0 in Hnm1.
      unfold shows. rewrite Hc0, Hnm1. by eexists.
Qed.

Ltac conj_split := repeat match goal with |- _ ∧ _ => split end.

Ltac leaf :=
  first [ compute_done
        | vm_compute; conj_split; first [reflexivity | exact I] ].

Ltac concrete := unfold chain; cbn [appendable]; conj_split; leaf.

(** ** Popping the head of a parented chain *)

(** C2: popping the current head "c1" of the child chain of "p" through a
    chain reference held by the caller leaves [child_head] of "p" on "c1",
    which is no longer in the chain: the remaining chain is "c2" alone. *)
Theorem pop_head_keeps_stale_child_head :
  ∃ s', tree_node_pop (Some 2%positive) family
        = Done (Some 2%positive, Some 3%positive) s' ∧
        field child_head family 1 = Some (Some 2%positive) ∧
        chain family [2; 3]%positive ∧
        field parent family 3 = Some (Some 1%positive) ∧
        chain s' [3%positive] ∧
        field parent s' 3 = Some (Some 1%positive) ∧
        field child_head s' 1 = Some (Some 2%positive).
Proof. eexists. split; [vm_compute; reflexivity|]. concrete. Qed.

(** C4: after popping the head "c1" of the child chain of "p", the popped
    node has no sibling links, the chain reference has advanced to "c2", and
    [tree_node_first] on it still returns the popped node "c1". *)
Theorem first_after_pop_returns_popped :
  ∃ s', tree_node_pop (Some 2%positive) family
        = Done (Some 2%positive, Some 3%positive) s' ∧
        field next s' 2 = Some None ∧
        field previous s' 2 = Some None ∧
        chain s' [3%positive] ∧
        tree_node_first 5 (Some 3%positive) s' = Done (Some 2%positive) s'.
Proof. eexists. split; [vm_compute; reflexivity|]. concrete. Qed.

(** ** Updating a view *)

(** C1, as the claim states it: the chain has three nodes, the request for
    the item of "c" is refused (the fifth request: the array, the item of
    "a", the label and the item of "b" come first), the update returns
    [WERR_OK], and the list it posts has two items. *)
Lemma update_posts_fewer_items :
  nexts abc0 (Some 1%positive) [1; 2; 3]%positive ∧
  ∃ view',
    eval (tree_view_update 5 (showing [1%positive]) (Some 1%positive))
      (with_oracle [true; true; true; true; false] abc0)
    = Some (WERR_OK, view') ∧
    posted_items view' = [2; 3]%positive ∧
    length (posted_items view') ≠ length [1; 2; 3]%positive.
Proof.
  split; [concrete|]. eexists. split; [vm_compute; reflexivity|].
  split; [vm_compute; reflexivity|]. vm_compute. discriminate.
Qed.

(** When the list shown before refers to a node of the chain that has
    children: a view shows the root "a" while it is childless; "a" then gets
    a child and the view is updated on the same chain.  The update succeeds,
    posts one item that points back to "a", and "a" has a non-null
    [child_head], but the item does not display "+a": the label built for
    it was released together with the previous item list, so the text
    pointer of the item dangles and the label of "a" is null. *)
Theorem update_same_chain_releases_new_label :
  eval (tree_node_new None "a" ;; tree_view_new 5 (Some 1%positive))
    empty_state = Some (Some (showing [2%positive])) ∧
  texts (exec (tree_node_new None "a" ;; tree_view_new 5 (Some 1%positive))
           empty_state) (showing [2%positive]) = [Some "a"%string] ∧
  ∃ s', tree_view_update 5 (showing [2%positive]) (Some 1%positive) shown
        = Done (WERR_OK, showing [3%positive]) s' ∧
        nexts shown (Some 1%positive) [1%positive] ∧
        back_refs s' (showing [3%positive]) = [Some 1%positive] ∧
        field child_head s' 1 = Some (Some 2%positive) ∧
        node_name s' 1 = Some "a"%string ∧
        (∃ it, items s' !! 3%positive = Some it ∧ it_name it = Heap 3) ∧
        strs s' !! 3%positive = None ∧
        texts s' (showing [3%positive]) = [None] ∧
        field label s' 1 = Some None.
Proof.
  split; [vm_compute; reflexivity|]. split; [vm_compute; reflexivity|].
  eexists. split; [vm_compute; reflexivity|].
  split_and!; try (vm_compute; done).
  eexists. split; vm_compute; reflexivity.
Qed.

(** C3, as the spec states it: the three assertions of the scenario do not
    hold together, because the last one fails. *)
Lemma scenario_label_not_kept :
  ¬ (texts abc1 (showing [2; 3; 4]%positive)
       = [Some "a"; Some "+b"; Some "c"]%string ∧
     texts abc2 (showing [5%positive]) = [Some "b1"%string] ∧
     node_label abc2 2 = Some "+b"%string).
Proof. intros (_ & _ & H). vm_compute in H. discriminate. Qed.

(** C3, amended: in the scenario of the root chain "a", "b", "c" where "b"
    has the single child "b1", the first update (the one [tree_view_new]
    makes) posts "a", "+b", "c" in this order and leaves "+b" in the label of
    "b"; the update to the child chain of "b" posts the single item "b1",
    releases the text "+b" and resets the label of "b" to null. *)
Theorem scenario_abc :
  tree_view_new 5 (Some 1%positive) abc
  = Done (Some (showing [2; 3; 4]%positive)) abc1 ∧
  tree_view_shell (Some 1%positive) abc = Done (showing [1%positive]) abc0 ∧
  tree_view_update 5 (showing [1%positive]) (Some 1%positive) abc0
  = Done (WERR_OK, showing [2; 3; 4]%positive) abc1 ∧
  texts abc1 (showing [2; 3; 4]%positive)
  = [Some "a"; Some "+b"; Some "c"]%string ∧
  back_refs abc1 (showing [2; 3; 4]%positive)
  = [Some 1; Some 2; Some 3]%positive ∧
  node_label abc1 2 = Some "+b"%string ∧
  field child_head abc1 2 = Some (Some 4%positive) ∧
  tree_view_update 5 (showing [2; 3; 4]%positive) (Some 4%positive) abc1
  = Done (WERR_OK, showing [5%positive]) abc2 ∧
  texts abc2 (showing [5%positive]) = [Some "b1"%string] ∧
  back_refs abc2 (showing [5%positive]) = [Some 4%positive] ∧
  field label abc2 2 = Some None ∧
  (∀ a, field label abc1 2 = Some (Some a) → strs abc2 !! a = None).
Proof.
  split_and!; try (vm_compute; reflexivity).
  intros a Ha. vm_compute in Ha. injection Ha as <-. vm_compute. reflexivity.
Qed.

(** C8, as the spec states it: the request for the item of "a" is refused
    (the second request; the first one, for the array, is granted), and the
    update nevertheless returns [WERR_OK], with a null slot where the item
    of "a" should be. *)
Lemma update_ignores_refused_item :
  nexts abc0 (Some 1%positive) [1; 2; 3]%positive ∧
  eval (tree_view_update 5 (showing [1%positive]) (Some 1%positive))
    (with_oracle [true; false] abc0)
  = Some (WERR_OK,
          TreeView (Some 1%positive)
            (Some (Menu [None; Some 2; Some 3; None]%positive false))
            (Some [None; Some 2; Some 3; None]%positive)) ∧
  fst <$> eval (tree_view_update 5 (showing [1%positive]) (Some 1%positive))
            (with_oracle [true; false] abc0)
  ≠ Some WERR_NOMEM.
Proof.
  split; [concrete|]. split; [vm_compute; reflexivity|].
  vm_compute. discriminate.
Qed.

(** C9, as the claim states it: after an update that failed for lack of
    memory, "a" carries a label although no item on display refers to it. *)
Lemma failed_update_breaks_label_inv :
  label_inv pair (showing [1%positive]) ∧
  tree_view_update 5 (showing [1%positive]) (Some 1%positive) pair
  = Done (WERR_NOMEM, showing [1%positive]) pair_failed ∧
  ¬ label_inv pair_failed (showing [1%positive]).
Proof.
  split_and!.
  - intros p a Hp. exfalso.
    assert (map_Forall (λ _ n, label n = None) (nodes pair)) as Hall
      by compute_done.
    unfold field in Hp. destruct (nodes pair !! p) as [n|] eqn:En; [|done].
    apply Hall in En. simpl in Hp. congruence.
  - vm_compute. reflexivity.
  - intros Hinv.
    destruct (Hinv 1%positive 5%positive) as (i & Hi & Hnode).
    { vm_compute. reflexivity. }
    apply list_elem_of_singleton in Hi as ->.
    vm_compute in Hnode. discriminate.
Qed.

(** ** The theorems at work on the scenarios *)

Lemma tree_node_new_failure_keeps_parent_witness :
  nodes lone_parent !! 1%positive
  = Some (TreeNode (Some 1%positive) None None None None None) ∧
  ∃ s', tree_node_new (Some 1%positive) "c" lone_parent = Done None s' ∧
        nodes s' !! 1%positive
        = Some (TreeNode (Some 1%positive) None None None None None).
Proof.
  assert (nodes lone_parent !! 1%positive
          = Some (TreeNode (Some 1%positive) None None None None None)) as H
    by (vm_compute; reflexivity).
  split; [exact H|].
  destruct (tree_node_new_failure_keeps_parent 1 _ "c" lone_parent H)
    as (_ & Hname & Hkeep & _).
  destruct (Hname [] eq_refl) as [s' Hs']. exists s'.
  split; [exact Hs'|]. exact (proj1 (Hkeep s' Hs')).
Defined.

Lemma tree_node_pop_spec_witness :
  chain abc (reverse [1%positive] ++ 2%positive :: [3%positive]) ∧
  length [1%positive] + length [3%positive] + 1 < 5 ∧
  ∃ s', pop_all 5 (Some 2%positive) abc = Done [2; 1; 3]%positive s'.
Proof.
  assert (chain abc (reverse [1%positive] ++ 2%positive :: [3%positive]))
    as H1 by concrete.
  assert (length [1%positive] + length [3%positive] + 1 < 5) as H2
    by (simpl; lia).
  split; [exact H1|]. split; [exact H2|].
  exact (proj2 (proj2 (tree_node_pop_spec abc [1%positive] [3%positive]
                         2%positive 5 H1 H2))).
Defined.

Lemma tree_node_first_after_appends_witness :
  chain brood [2%positive] ∧
  field parent brood 2 = Some (Some 1%positive) ∧
  appendable brood (Some 1%positive) [2%positive] [(2, 3); (2, 4)]%positive ∧
  3%positive ∈ chain_after [2%positive] [(2, 3); (2, 4)]%positive ∧
  ∃ s', appends [(2, 3); (2, 4)]%positive brood = Done tt s' ∧
        chain s' [2; 4; 3]%positive ∧
        tree_node_first 2 (Some 3%positive) s' = Done (Some 2%positive) s'.
Proof.
  assert (chain brood [2%positive]) as H1 by concrete.
  assert (field parent brood 2 = Some (Some 1%positive)) as H2
    by (vm_compute; reflexivity).
  assert (∀ p, Some 1%positive = Some p →
               field child_head brood p = Some (Some 2%positive)) as H3
    by (intros p [= <-]; vm_compute; reflexivity).
  assert (appendable brood (Some 1%positive) [2%positive]
            [(2, 3); (2, 4)]%positive) as H4 by concrete.
  assert (3%positive ∈ chain_after [2%positive] [(2, 3); (2, 4)]%positive)
    as H5 by compute_done.
  split_and!; [exact H1|exact H2|exact H4|exact H5|].
  apply (tree_node_first_after_appends brood 2 (Some 1%positive)
           [(2, 3); (2, 4)]%positive 3 2 H1 H2 H3 H4 H5).
  simpl. lia.
Defined.

Lemma tree_node_free_recursive_spec_witness :
  forest_ok abc abc_forest ∧
  NoDup (flat_map flat abc_forest) ∧
  NoDup (flat_map names abc_forest) ∧
  length (flat_map flat abc_forest) < 10 ∧
  ∃ s', tree_node_free_recursive 10 (Some 2%positive) abc = Done tt s' ∧
        released s' = [4; 2; 1; 3]%positive.
Proof.
  assert (forest_ok abc abc_forest) as H1.
  { split; [vm_compute; done|]. repeat constructor; vm_compute; done. }
  assert (NoDup (flat_map flat abc_forest)) as H2 by compute_done.
  assert (NoDup (flat_map names abc_forest)) as H3 by compute_done.
  assert (∀ b, b ∈ flat_map names abc_forest → is_Some (strs abc !! b)) as H4.
  { intros b Hb. simpl in Hb.
    repeat (apply elem_of_cons in Hb as [->|Hb]; [by vm_compute; eexists|]).
    by apply elem_of_nil in Hb. }
  assert (length (flat_map flat abc_forest) < 10) as H5 by (simpl; lia).
  split_and!; [exact H1|exact H2|exact H3|exact H5|].
  destruct (tree_node_free_recursive_spec abc [Tree 1 (Some 1%positive) []]
              [Tree 3 (Some 3%positive) []]
              (Tree 2 (Some 2%positive) [Tree 4 (Some 4%positive) []]) 10
              H1 H2 H3 H4 H5) as (_ & s' & Hrun & Hrel & _).
  exists s'. split; [exact Hrun|exact Hrel].
Defined.

Lemma tree_view_update_no_memory_witness :
  nexts abc0 (Some 1%positive) [1; 2; 3]%positive ∧
  tree_view_update 5 (showing [1%positive]) (Some 1%positive)
    (with_oracle [false] abc0)
  = Done (WERR_NOMEM, showing [1%positive]) abc0 ∧
  nexts pair (Some 1%positive) [1; 2]%positive ∧
  oracle pair !! (1 + requests pair [1%positive]) = Some false ∧
  ∃ s', tree_view_update 5 (showing [1%positive]) (Some 1%positive) pair
        = Done (WERR_NOMEM, showing [1%positive]) s'.
Proof.
  assert (nexts (with_oracle [false] abc0) (Some 1%positive)
            [1; 2; 3]%positive) as H1 by concrete.
  assert (nexts pair (Some 1%positive) ([1%positive] ++ 2%positive :: []))
    as H2 by concrete.
  assert (oracle pair !! (1 + requests pair [1%positive]) = Some false)
    as H3 by (vm_compute; reflexivity).
  split; [exact H1|]. split.
  { exact (proj1 (tree_view_update_no_memory 5 (showing [1%positive])
                    (Some 1%positive) (with_oracle [false] abc0))
             [1; 2; 3]%positive [] H1 (le_S _ _ (le_S _ _ (le_n 3)))
             eq_refl). }
  split; [exact H2|]. split; [exact H3|].
  refine (proj1 (proj2 (tree_view_update_no_memory 5 (showing [1%positive])
                          (Some 1%positive) pair))
            [1%positive] 2%positive [] H2 _ _ _ _ H3).
  - simpl. lia.
  - intros q Hq _.
    apply elem_of_cons in Hq as [->|Hq];
      [|apply elem_of_cons in Hq as [->|Hq];
        [|apply elem_of_nil in Hq; destruct Hq]].
    + split; [vm_compute; reflexivity|].
      exists 1%positive. split; [vm_compute; reflexivity|].
      vm_compute. eexists. reflexivity.
    + split; [vm_compute; reflexivity|].
      exists 2%positive. split; [vm_compute; reflexivity|].
      vm_compute. eexists. reflexivity.
  - vm_compute. discriminate.
  - vm_compute. reflexivity.
Defined.

Lemma tree_view_update_labels_witness :
  tree_view_update 5 (showing [2; 3; 4]%positive) (Some 4%positive) abc1
  = Done (WERR_OK, showing [5%positive]) abc2 ∧
  item_node abc1 3 = Some 2%positive ∧
  field label abc2 2 = Some None.
Proof.
  assert (tree_view_update 5 (showing [2; 3; 4]%positive) (Some 4%positive)
            abc1 = Done (WERR_OK, showing [5%positive]) abc2) as H
    by (vm_compute; reflexivity).
  assert (item_node abc1 3 = Some 2%positive) as Hnode
    by (vm_compute; reflexivity).
  split; [exact H|]. split; [exact Hnode|].
  refine (proj1 (proj1 (tree_view_update_labels 5 _ _ _ _ _ H)
                   3%positive 2%positive _ Hnode)).
  compute_done.
Defined.

Lemma tree_view_update_items_witness :
  tree_view_update 5 (showing [1%positive]) (Some 1%positive) abc0
  = Done (WERR_OK, showing [2; 3; 4]%positive) abc1 ∧
  nexts abc0 (Some 1%positive) [1; 2; 3]%positive ∧
  text_ok abc0 ∧
  field child_head abc0 2 = Some (Some 4%positive) ∧
  item_node abc1 3 = Some 2%positive ∧
  item_text abc1 3 = Some "+b"%string.
Proof.
  assert (tree_view_update 5 (showing [1%positive]) (Some 1%positive) abc0
          = Done (WERR_OK, showing [2; 3; 4]%positive) abc1) as H
    by (vm_compute; reflexivity).
  assert (nexts abc0 (Some 1%positive) [1; 2; 3]%positive) as Hl by concrete.
  assert (text_ok abc0) as Hok
    by (apply text_okb_sound; vm_compute; reflexivity).
  assert (∀ i, i ∈ posted_items (showing [1%positive]) →
            is_Some (items abc0 !! i)) as Hlive.
  { intros i ->%list_elem_of_singleton. vm_compute. by eexists. }
  assert (∀ i p, i ∈ posted_items (showing [1%positive]) →
            item_node abc0 i = Some p → p ∈ [1; 2; 3]%positive →
            field child_head abc0 p = Some None) as Hsep.
  { intros i p ->%list_elem_of_singleton Hp. vm_compute in Hp.
    discriminate. }
  split_and!; [exact H|exact Hl|exact Hok|vm_compute; reflexivity|..].
  - destruct (proj2 (tree_view_update_items 5 _ _ _ _ _ _
                       H Hl Hok Hlive Hsep eq_refl) 1 2%positive eq_refl)
      as (it & Hit & Hnode & _).
    injection Hit as <-. exact Hnode.
  - destruct (proj2 (tree_view_update_items 5 _ _ _ _ _ _
                       H Hl Hok Hlive Hsep eq_refl) 1 2%positive eq_refl)
      as (it & Hit & _ & Htext & Hsame & _).
    injection Hit as <-. rewrite Htext, Hsame. vm_compute. reflexivity.
Defined.

(** * Further properties of the code *)

(** ** Creating nodes *)

Lemma tree_node_new_Done (parent_ : option ptr) (name_ : string)
    (s : state) :
  grants 2 s →
  (∀ p, parent_ = Some p → is_Some (nodes s !! p)) →
  ∃ node a s',
    tree_node_new parent_ name_ s = Done (Some node) s' ∧
    nodes s !! node = None ∧ strs s !! a = None ∧
    nodes s' !! node = Some (TreeNode (Some a) None parent_ None None None) ∧
    strs s' = <[a := name_]> (strs s) ∧
    (∀ q, q ≠ node → parent_ ≠ Some q → nodes s' !! q = nodes s !! q) ∧
    (∀ p pn, parent_ = Some p → nodes s !! p = Some pn →
       nodes s' !! p
       = Some (set_child_head
                 (if child_head pn is None then Some node else child_head pn)
                 pn)) ∧
    items s' = items s ∧ released s' = released s ∧
    oracle s' = drop 2 (oracle s).
Proof.
  intros Hg Hlive.
  pose proof (fresh_node s) as Hfn. pose proof (fresh_str s) as Hfs.
  exists (fresh (dom (nodes s))), (fresh (dom (strs s))).
  unfold grants in Hg.
  destruct parent_ as [p|].
  - destruct (Hlive p eq_refl) as [pn Hp].
    assert (p ≠ fresh (dom (nodes s))) as Hne by congruence.
    unfold_new.
    destruct (oracle s) as [|[] [|[] o]] eqn:Ho; try done; look.
    all: destruct (child_head pn) as [c|] eqn:Ec; look.
    all: eexists; split; [reflexivity|]; simpl.
    all: split_and!; try done; look; try done.
    all: try (intros q Hq1 Hq2; look; by rewrite ?lookup_insert_ne by congruence).
    all: intros p' pn' [= <-]; rewrite Hp; intros [= <-]; look.
    all: rewrite ?Ec; try done.
    all: destruct pn; simpl in *; by subst.
  - unfold_new.
    destruct (oracle s) as [|[] [|[] o]] eqn:Ho; try done; look.
    all: eexists; split; [reflexivity|]; simpl.
    all: split_and!; try done; look; try done.
    all: intros q Hq1 Hq2; by look.
Qed.

(** X1: [tree_node_new] with both requests granted: the node it returns is
    new and detached, carries a copy of the name and the given parent; the
    parent, if any, gets it as [child_head] when it had none, and nothing
    else changes. *)
Theorem tree_node_new_spec (parent_ : option ptr) (name_ : string)
    (s : state) :
  grants 2 s →
  (∀ p, parent_ = Some p → is_Some (nodes s !! p)) →
  ∃ node a s',
    tree_node_new parent_ name_ s = Done (Some node) s' ∧
    nodes s !! node = None ∧ strs s !! a = None ∧
    nodes s' !! node = Some (TreeNode (Some a) None parent_ None None None) ∧
    strs s' = <[a := name_]> (strs s) ∧
    (∀ q, q ≠ node → parent_ ≠ Some q → nodes s' !! q = nodes s !! q) ∧
    (∀ p pn, parent_ = Some p → nodes s !! p = Some pn →
       nodes s' !! p
       = Some (set_child_head
                 (if child_head pn is None then Some node else child_head pn)
                 pn)) ∧
    items s' = items s ∧ released s' = released s ∧
    oracle s' = drop 2 (oracle s).
Proof. apply tree_node_new_Done. Qed.


(** ** Splicing and joining chains *)

Lemma fields_lookup s s' q :
  field name s' q = field name s q →
  field label s' q = field label s q →
  field parent s' q = field parent s q →
  field child_head s' q = field child_head s q →
  field previous s' q = field previous s q →
  field next s' q = field next s q →
  nodes s' !! q = nodes s !! q.
Proof.
  unfold field.
  destruct (nodes s' !! q) as [[]|], (nodes s !! q) as [[]|]; simpl;
    try done.
  by intros [= ->] [= ->] [= ->] [= ->] [= ->] [= ->].
Qed.

Lemma state_eq s s' :
  (∀ q, nodes s' !! q = nodes s !! q) →
  strs s' = strs s → items s' = items s → oracle s' = oracle s →
  released s' = released s → s' = s.
Proof.
  destruct s, s'; simpl. intros Hn%map_eq -> -> -> ->. by rewrite Hn.
Qed.

Lemma same_payload_trans s1 s2 s3 :
  same_payload s1 s2 → same_payload s2 s3 → same_payload s1 s3.
Proof.
  intros [] []. split; intros; congruence.
Qed.

Lemma chain_parts s l1 a l2 :
  chain s (l1 ++ a :: l2) →
  ∃ na, nodes s !! a = Some na ∧
        previous na = head (reverse l1) ∧ next na = head l2 ∧
        (a ∉ l1) ∧ (a ∉ l2) ∧
        (∀ b, b ∈ l1 ++ l2 → b ≠ a ∧ is_Some (nodes s !! b)).
Proof.
  intros [Hnd Hl].
  pose proof (λ x, links_live _ _ _ _ x Hl) as Hlive.
  apply links_app in Hl as [_ Hl]. simpl in Hl.
  destruct Hl as (Hp & Hn & _).
  rewrite hd_or_None in Hp, Hn.
  apply field_Some in Hp as (na & Hna & Hp).
  apply field_Some in Hn as (na' & Hna' & Hn).
  rewrite Hna in Hna'. injection Hna' as <-.
  apply NoDup_app in Hnd as (_ & Hd & Hnd2).
  apply NoDup_cons in Hnd2 as [Ha2 _].
  assert (a ∉ l1) as Ha1.
  { intros Hin. apply (Hd a Hin). left. }
  exists na. split_and!; try done.
  intros b Hb. split.
  - intros ->. apply elem_of_app in Hb as [?|?]; done.
  - apply Hlive. rewrite elem_of_app, elem_of_cons.
    apply elem_of_app in Hb. tauto.
Qed.

(** X3: [tree_node_append] splices a detached node in right after [a] and
    keeps the tail of the chain behind it; only sibling links are written. *)
Theorem tree_node_append_splice (s : state) (l1 l2 : list ptr) (a r : ptr) :
  chain s (l1 ++ a :: l2) → r ∉ l1 ++ a :: l2 →
  field previous s r = Some None → field next s r = Some None →
  ∃ s', tree_node_append a r s = Done tt s' ∧
        chain s' (l1 ++ a :: r :: l2) ∧
        same_payload s s' ∧
        (∀ q, q ≠ a → q ≠ r → head l2 ≠ Some q →
              nodes s' !! q = nodes s !! q).
Proof.
  intros Hc Hr Hrp Hrn.
  destruct (chain_parts _ _ _ _ Hc) as (na & Hna & _ & Han & Ha1 & Ha2 & Hoth).
  apply field_Some in Hrn as (nr & Hnr & Hrn).
  assert (a ≠ r) as Har.
  { intros ->. apply Hr, elem_of_app. right. left. }
  destruct (tree_node_append_Done s a r na nr Hna Hnr Har Hrn)
    as (s' & Happ & Hpost).
  { intros b Hb. rewrite Han in Hb.
    assert (b ∈ l2) as Hin by (destruct l2; simplify_eq/=; left).
    destruct (Hoth b) as [? ?]; [apply elem_of_app; by right|].
    split_and!; try done.
    intros ->. apply Hr, elem_of_app. right. by right. }
  rewrite Han in Hpost.
  exists s'. split_and!; try done.
  - by eapply append_post_chain.
  - apply Hpost.
  - intros q Hqa Hqr Hq2.
    pose proof (app_payload _ _ _ _ _ Hpost) as Hpay.
    apply fields_lookup; try apply Hpay.
    + rewrite (app_previous _ _ _ _ _ Hpost).
      by rewrite !decide_False.
    + rewrite (app_next _ _ _ _ _ Hpost).
      by rewrite !decide_False.
Qed.

(** X4: When [a] is the last node of its chain, [tree_node_append] keeps
    what follows [r]: appending the head of a second chain joins the two
    chains. *)
Theorem tree_node_append_joins (s : state) (l1 l2 : list ptr) (a r : ptr) :
  chain s (l1 ++ [a]) → chain s (r :: l2) →
  (∀ q, q ∈ l1 ++ [a] → q ∉ r :: l2) →
  ∃ s', tree_node_append a r s = Done tt s' ∧
        chain s' (l1 ++ a :: r :: l2) ∧
        same_payload s s'.
Proof.
  intros Hc1 Hc2 Hdis.
  destruct (chain_parts _ _ _ _ Hc1) as (na & Hna & _ & Han & _).
  destruct (chain_parts s [] r l2 Hc2) as (nr & Hnr & Hrp & Hrn & _).
  simpl in Han, Hrp.
  assert (a ≠ r) as Har.
  { intros ->. apply (Hdis r); [apply elem_of_app; right|]; left. }
  destruct Hc1 as [Hnd1 Hl1], Hc2 as [Hnd2 Hl2].
  eexists. split; [|split].
  - unfold_ops. rewrite Hna. simpl. rewrite Han. look. reflexivity.
  - split.
    + replace (l1 ++ a :: r :: l2) with ((l1 ++ [a]) ++ r :: l2)
        by by rewrite <- app_assoc.
      apply NoDup_app. split_and!; done.
    + replace (l1 ++ a :: r :: l2) with ((l1 ++ [a]) ++ r :: l2)
        by by rewrite <- app_assoc.
      apply links_app. rewrite reverse_snoc. simpl. split.
      * apply links_app in Hl1 as [Hl1 Hla]. simpl in Hla.
        apply links_app. rewrite hd_or_None in *. simpl. split.
        -- eapply links_ext; [|exact Hl1]. intros q Hq.
           assert (q ≠ a).
           { intros ->. apply NoDup_app in Hnd1 as (_ & Hd & _).
             apply (Hd a Hq). left. }
           assert (q ≠ r).
           { intros ->. apply (Hdis r); [apply elem_of_app; by left|left]. }
           split; by fields.
        -- destruct Hla as (Hap & _ & _).
           apply field_Some in Hap as (na' & Hna' & Hap).
           rewrite Hna in Hna'. injection Hna' as <-.
           split_and!; [|by fields|done].
           fields. by rewrite Hap.
      * simpl in Hl2. destruct Hl2 as (_ & Hrn' & Hl2).
        split_and!.
        -- by fields.
        -- fields. by rewrite Hrn.
        -- eapply links_ext; [|exact Hl2]. intros q Hq.
           assert (q ≠ r).
           { intros ->. by apply NoDup_cons in Hnd2 as [? _]. }
           assert (q ≠ a).
           { intros ->. apply (Hdis a); [apply elem_of_app; right; left|].
             by right. }
           split; by fields.
  - split; fields.
Qed.


(** ** Round trips of pop and append *)

Lemma chain_as_cursor s l1 a l2 :
  chain s (l1 ++ a :: l2) → chain s (reverse (reverse l1) ++ a :: l2).
Proof. by rewrite reverse_involutive. Qed.

(** X5: Popping a node that has a previous neighbour [a] and appending it
    again after [a] gives back the state the pop started from. *)
Theorem pop_then_append_restores (s : state) (l1 l2 : list ptr) (a x : ptr) :
  chain s (l1 ++ a :: x :: l2) →
  ∃ s1, tree_node_pop (Some x) s = Done (Some x, Some a) s1 ∧
        chain s1 (l1 ++ a :: l2) ∧
        tree_node_append a x s1 = Done tt s.
Proof.
  intros Hc.
  assert (chain s (reverse (a :: reverse l1) ++ x :: l2)) as Hc'.
  { by rewrite reverse_cons, reverse_involutive, <- app_assoc. }
  destruct (tree_node_pop_chain _ _ _ _ Hc') as (s1 & Hpop & Hpost & Hc1).
  rewrite reverse_cons, reverse_involutive, <- app_assoc in Hc1.
  simpl in Hpop, Hpost, Hc1.
  exists s1. split; [done|]. split; [done|].
  destruct (chain_parts _ _ _ _ Hc1) as (na & Hna & _ & Han & Ha1 & Ha2 & Hoth).
  destruct (chain_parts s (l1 ++ [a]) x l2) as (nx & Hnx & Hxp & Hxn & Hx1 & Hx2 & _).
  { by rewrite <- app_assoc. }
  rewrite reverse_snoc in Hxp. simpl in Hxp.
  assert (a ≠ x) as Hax.
  { intros ->. apply Hx1, elem_of_app. right. left. }
  assert (∃ nx1, nodes s1 !! x = Some nx1 ∧ next nx1 = None) as (nx1 & Hnx1 & Hx1n).
  { pose proof (pop_next _ _ _ _ _ Hpost x) as Hn.
    rewrite decide_True in Hn by done.
    apply field_Some in Hn as (nx1 & ? & ?). eauto. }
  destruct (tree_node_append_Done s1 a x na nx1 Hna Hnx1 Hax Hx1n)
    as (s2 & Happ & Hpost2).
  { intros b Hb. rewrite Han in Hb.
    assert (b ∈ l2) as Hin by (destruct l2; simplify_eq/=; left).
    destruct (Hoth b) as [? ?]; [apply elem_of_app; by right|].
    split_and!; try done. by intros ->. }
  rewrite Han in Hpost2. rewrite Happ. f_equal.
  pose proof (same_payload_trans _ _ _ (pop_payload _ _ _ _ _ Hpost)
                (app_payload _ _ _ _ _ Hpost2)) as Hpay.
  destruct Hc as [Hnd Hl].
  apply links_app in Hl as [_ Hl]. simpl in Hl.
  destruct Hl as (_ & Han0 & Hxp0 & Hxn0 & Hl2).
  rewrite hd_or_None in Hxn0.
  apply state_eq; try apply Hpay.
  intros q. apply fields_lookup; try apply Hpay.
  - rewrite (app_previous _ _ _ _ _ Hpost2), (pop_previous _ _ _ _ _ Hpost).
    destruct (decide (q = x)) as [->|Hqx]; [done|].
    destruct (decide (head l2 = Some q)) as [Hq|Hq]; [|done].
    destruct l2 as [|b l2]; simplify_eq/=. by destruct Hl2 as (-> & _).
  - rewrite (app_next _ _ _ _ _ Hpost2), (pop_next _ _ _ _ _ Hpost).
    destruct (decide (q = a)) as [->|Hqa]; [done|].
    destruct (decide (q = x)) as [->|Hqx]; [done|].
    rewrite decide_False by congruence. done.
Qed.

(** X6: Appending a detached node after [a] and popping it again gives back
    the state the append started from, the reference being left on [a]. *)
Theorem append_then_pop_restores (s : state) (l1 l2 : list ptr) (a r : ptr) :
  chain s (l1 ++ a :: l2) → r ∉ l1 ++ a :: l2 →
  field previous s r = Some None → field next s r = Some None →
  ∃ s1, tree_node_append a r s = Done tt s1 ∧
        chain s1 (l1 ++ a :: r :: l2) ∧
        tree_node_pop (Some r) s1 = Done (Some r, Some a) s.
Proof.
  intros Hc Hr Hrp Hrn.
  destruct (chain_parts _ _ _ _ Hc) as (na & Hna & _ & Han & Ha1 & Ha2 & Hoth).
  pose proof Hrn as Hrn0.
  apply field_Some in Hrn as (nr & Hnr & Hrn).
  assert (a ≠ r) as Har.
  { intros ->. apply Hr, elem_of_app. right. left. }
  destruct (tree_node_append_Done s a r na nr Hna Hnr Har Hrn)
    as (s1 & Happ & Hpost).
  { intros b Hb. rewrite Han in Hb.
    assert (b ∈ l2) as Hin by (destruct l2; simplify_eq/=; left).
    destruct (Hoth b) as [? ?]; [apply elem_of_app; by right|].
    split_and!; try done.
    intros ->. apply Hr, elem_of_app. right. by right. }
  rewrite Han in Hpost.
  pose proof (append_post_chain _ _ _ _ _ _ Hc Hr Hpost) as Hc1.
  exists s1. split; [done|]. split; [done|].
  assert (chain s1 (reverse (a :: reverse l1) ++ r :: l2)) as Hc'.
  { by rewrite reverse_cons, reverse_involutive, <- app_assoc. }
  destruct (tree_node_pop_chain _ _ _ _ Hc') as (s2 & Hpop & Hpost2 & _).
  cbn [hd_or head] in Hpop, Hpost2. rewrite Hpop. f_equal.
  pose proof (same_payload_trans _ _ _ (app_payload _ _ _ _ _ Hpost)
                (pop_payload _ _ _ _ _ Hpost2)) as Hpay.
  destruct Hc as [Hnd Hl].
  apply links_app in Hl as [_ Hl]. simpl in Hl.
  destruct Hl as (_ & Han0 & Hl2).
  rewrite hd_or_None in Han0.
  apply state_eq; try apply Hpay.
  intros q. apply fields_lookup; try apply Hpay.
  - rewrite (pop_previous _ _ _ _ _ Hpost2), (app_previous _ _ _ _ _ Hpost).
    destruct (decide (q = r)) as [->|Hqr]; [done|].
    destruct (decide (head l2 = Some q)) as [Hq|Hq]; [|done].
    destruct l2 as [|b l2]; simplify_eq/=. by destruct Hl2 as (-> & _).
  - rewrite (pop_next _ _ _ _ _ Hpost2), (app_next _ _ _ _ _ Hpost).
    destruct (decide (q = r)) as [->|Hqr]; [done|].
    destruct (decide (Some a = Some q)) as [[= <-]|Hqa]; [done|].
    rewrite decide_False by congruence. done.
Qed.


(** ** Populating a chain *)

Lemma set_child_head_same n : set_child_head (child_head n) n = n.
Proof. by destruct n. Qed.

(** X2: The first node created under a parent without child, or without
    parent, is a chain of its own, headed by itself. *)
Theorem tree_node_new_starts_chain (par : option ptr) (nm : string)
    (s : state) :
  grants 2 s →
  (∀ p, par = Some p → field child_head s p = Some None) →
  ∃ r s', tree_node_new par nm s = Done (Some r) s' ∧
          nodes s !! r = None ∧
          headed r par s' [r] ∧
          node_name s' r = Some nm.
Proof.
  intros Hg Hpar.
  destruct (tree_node_new_Done par nm s Hg)
    as (r & a & s' & Hnew & Hfr & Hfa & Hr & Hs & Hoth & Hp & _).
  { intros p Hp. apply Hpar in Hp. unfold field in Hp.
    destruct (nodes s !! p); [by eexists|done]. }
  exists r, s'. split_and!; try done.
  - split; [split|split_and!].
    + apply NoDup_singleton.
    + simpl. unfold field. by rewrite Hr.
    + done.
    + intros x ->%list_elem_of_singleton. unfold field. by rewrite Hr.
    + intros p ->. pose proof (Hpar p eq_refl) as Hc.
      apply field_Some in Hc as (pn & Hpn & Hc).
      unfold field. rewrite (Hp p pn eq_refl Hpn). simpl. by rewrite Hc.
  - unfold node_name. rewrite Hr. simpl. by rewrite Hs, lookup_insert_eq.
Qed.

(** X7: Creating a node under the parent of a headed chain and appending it
    after a node of the chain keeps the chain headed by the same node: the
    new node sits right after [a], [child_head] of the parent is unchanged,
    and [tree_node_first] still answers with the head from every node. *)
Theorem add_after_keeps_head (h : ptr) (par : option ptr) (s : state)
    (l : list ptr) (a : ptr) (nm : string) (fuel : nat) :
  headed h par s l → a ∈ l → grants 2 s → length l ≤ fuel →
  ∃ r s', add_after par a nm s = Done (Some r) s' ∧
          nodes s !! r = None ∧
          headed h par s' (insert_after a r l) ∧
          node_name s' r = Some nm ∧
          ∀ x, x ∈ insert_after a r l →
               tree_node_first fuel (Some x) s' = Done (Some h) s'.
Proof.
  intros Hh Ha Hg Hlen.
  pose proof Hh as (Hc & Hhd & Hpar & Hch).
  destruct (tree_node_new_Done par nm s Hg)
    as (r & b & s1 & Hnew & Hfr & Hfb & Hr & Hs & Hoth & Hp & _).
  { intros p Hp. apply Hch in Hp. unfold field in Hp.
    destruct (nodes s !! p); [by eexists|done]. }
  assert (∀ q, q ≠ r → nodes s1 !! q = nodes s !! q) as Hsame.
  { intros q Hq. destruct (decide (par = Some q)) as [->|Hne].
    - pose proof (Hch q eq_refl) as Hcq.
      apply field_Some in Hcq as (pn & Hpn & Hcq).
      rewrite (Hp q pn eq_refl Hpn), Hpn, Hcq. simpl.
      by rewrite <- Hcq, set_child_head_same.
    - by apply Hoth. }
  assert (r ∉ l) as Hrl.
  { intros Hin. destruct Hc as [_ Hl].
    destruct (links_live _ _ _ _ _ Hl Hin) as [? ?]. congruence. }
  assert (∀ {A} (f : tree_node → A) q, q ∈ l → field f s1 q = field f s q)
    as Hf.
  { intros A f q Hq. unfold field. rewrite Hsame; [done|].
    by intros ->. }
  assert (headed h par s1 l) as Hh1.
  { split_and!; try done.
    - destruct Hc as [Hnd Hl]. split; [done|].
      eapply links_ext; [|exact Hl]. intros q Hq. by rewrite !Hf.
    - intros x Hx. rewrite Hf by done. auto.
    - intros p ->. unfold field. rewrite Hsame; [by apply Hch|].
      intros ->. pose proof (Hch r eq_refl) as Hcr. unfold field in Hcr.
      by rewrite Hfr in Hcr. }
  destruct (appends_headed h par [(a, r)] s1 l Hh1) as (s2 & Happ & Hh2).
  { simpl. unfold field. rewrite Hr. simpl. done. }
  simpl in Happ, Hh2.
  apply bind_inv in Happ as ([] & s2' & Happ & Hret).
  unfold ret in Hret. injection Hret as ->.
  exists r, s2. split_and!; try done.
  - unfold add_after. rewrite (bind_Done _ _ _ _ _ Hnew).
    by rewrite (bind_Done _ _ _ _ _ Happ).
  - destruct (tree_node_append_chain s1 l a r) as (s3 & nx & Happ' & Hpost & _);
      try done; try (apply Hh1).
    { unfold field. by rewrite Hr. }
    { unfold field. by rewrite Hr. }
    rewrite Happ in Happ'. injection Happ' as <-.
    pose proof (app_payload _ _ _ _ _ Hpost) as Hpay.
    pose proof (sp_name _ _ Hpay r) as Hnm. unfold field in Hnm.
    rewrite Hr in Hnm. simpl in Hnm.
    unfold node_name. destruct (nodes s2 !! r) as [n2|]; [|done].
    simpl in Hnm |- *. injection Hnm as ->. simpl.
    by rewrite (sp_strs _ _ Hpay), Hs, lookup_insert_eq.
  - intros x Hx.
    apply (tree_node_first_headed h par s2 (insert_after a r l)); try done.
    rewrite insert_after_length by done. lia.
Qed.


(** ** Releasing one node *)

(** X8: [tree_node_free] dies in one of its three assertions unless the node
    has no child and no sibling link; on such a node it gives back the name
    and the node, and nothing else: a label the node still carries stays
    allocated. *)
Theorem tree_node_free_spec (s : state) (x : ptr) (n : tree_node) :
  nodes s !! x = Some n →
  (∀ a, name n = Some a → is_Some (strs s !! a)) →
  if is_null (child_head n) && is_null (next n) && is_null (previous n)
  then ∃ s', tree_node_free x s = Done tt s' ∧
             freed s s' [x] (option_list (name n)) [x] ∧
             ∀ b, label n = Some b → name n ≠ Some b →
                  strs s' !! b = strs s !! b
  else tree_node_free x s = Panic.
Proof.
  intros Hx Hname.
  destruct (child_head n) as [c|] eqn:Ec; simpl.
  { unfold tree_node_free, bind, load. by rewrite Hx, Ec. }
  destruct (next n) as [nx|] eqn:En; simpl.
  { unfold tree_node_free, bind, load. by rewrite Hx, Ec, En. }
  destruct (previous n) as [pv|] eqn:Ep; simpl.
  { unfold tree_node_free, bind, load. by rewrite Hx, Ec, En, Ep. }
  destruct (tree_node_free_Done s x n Hx Ec En Ep Hname) as (s' & Hfree & Hfr).
  exists s'. split; [done|]. split; [done|].
  intros b Hb Hne. rewrite (fr_strs _ _ _ _ _ Hfr).
  rewrite decide_False; [done|].
  destruct (name n); simpl; [|by intros ?%elem_of_nil].
  intros ->%list_elem_of_singleton. done.
Qed.


(** ** The text released with a forest *)

(** X19: [tree_node_free_recursive] gives back the names of the nodes of the
    forest and no other text: a label that a node of the forest carries
    stays allocated, and no item is touched. *)
Theorem tree_node_free_recursive_texts (s : state) (ls rs : list tree)
    (t : tree) (fuel : nat) :
  forest_ok s (reverse ls ++ t :: rs) →
  NoDup (flat_map flat (reverse ls ++ t :: rs)) →
  NoDup (flat_map names (reverse ls ++ t :: rs)) →
  (∀ b, b ∈ flat_map names (reverse ls ++ t :: rs) → is_Some (strs s !! b)) →
  length (flat_map flat (reverse ls ++ t :: rs)) < fuel →
  ∃ s', tree_node_free_recursive fuel (Some (t_root t)) s = Done tt s' ∧
    (∀ b, b ∈ flat_map names (reverse ls ++ t :: rs) → strs s' !! b = None) ∧
    (∀ b, b ∉ flat_map names (reverse ls ++ t :: rs) →
          strs s' !! b = strs s !! b) ∧
    (∀ q a, q ∈ flat_map flat (reverse ls ++ t :: rs) →
            field label s q = Some (Some a) →
            a ∉ flat_map names (reverse ls ++ t :: rs) →
            nodes s' !! q = None ∧ strs s' !! a = strs s !! a) ∧
    items s' = items s.
Proof.
  intros Hok Hnd Hnn Hlive Hlen.
  destruct (free_chain_forest fuel s (t :: ls) rs) as (s' & Hrun & Hf).
  1-5: by rewrite reverse_cons, <- app_assoc.
  rewrite reverse_cons, <- app_assoc in Hf.
  change ((t :: ls) ++ rs) with (t :: ls ++ rs) in Hf.
  change ([t] ++ rs) with (t :: rs) in Hf.
  change (free_chain fuel (Some (t_root t)) s = Done tt s') in Hrun.
  exists s'. split_and!.
  - done.
  - intros b Hb. rewrite (fr_strs _ _ _ _ _ Hf). by rewrite decide_True.
  - intros b Hb. rewrite (fr_strs _ _ _ _ _ Hf). by rewrite decide_False.
  - intros q a Hq _ Ha. split.
    + rewrite (fr_nodes _ _ _ _ _ Hf). by rewrite decide_True.
    + rewrite (fr_strs _ _ _ _ _ Hf). by rewrite decide_False.
  - apply (fr_items _ _ _ _ _ Hf).
Qed.


(** ** Releasing the list of a view *)

Lemma array_items_app its rest :
  array_items ((Some <$> its) ++ None :: rest) = its.
Proof. induction its as [|i its IH]; simpl; [done|]. f_equal. apply IH. Qed.

Lemma free_step_Done item s :
  is_Some (items s !! item) →
  (∀ p, item_node s item = Some p → is_Some (nodes s !! p)) →
  (∀ q a, field label s q = Some (Some a) → is_Some (strs s !! a)) →
  ∃ s', free_step item s = Done tt s'.
Proof.
  intros [It HIt] Hnode Hlive.
  unfold free_step, item_userptr, free_item, load_item, bind, ret, modify.
  rewrite HIt. unfold item_node in Hnode. rewrite HIt in Hnode.
  simpl in Hnode.
  destruct (it_userptr It) as [p|]; [|simpl; rewrite ?HIt; eauto].
  destruct (Hnode p eq_refl) as [n Hn]. unfold load. rewrite Hn.
  specialize (Hlive p). unfold field in Hlive. rewrite Hn in Hlive.
  simpl in Hlive.
  destruct (label n) as [a|]; [|simpl; rewrite ?HIt; eauto].
  destruct (Hlive a eq_refl) as [t Ht].
  unfold talloc_free_str, upd, load, store, bind. rewrite Ht. simpl.
  repeat first [rewrite Hn | rewrite HIt | progress simpl]. eauto.
Qed.

Lemma free_step_keeps_ok item its s s' :
  free_step item s = Done tt s' →
  items_ok s (item :: its) → labels_ok s →
  items_ok s' its ∧ labels_ok s'.
Proof.
  intros Hstep [Hnd Hlive Hnode] [Hll Hinj].
  pose proof (λ b, free_step_strs _ _ _ b Hstep) as Hstrs.
  apply free_step_inv in Hstep as (It & HIt & Hdel & Hsh & Hclr & Hfr).
  apply NoDup_cons in Hnd as [Hni Hnd].
  split; split.
  - done.
  - intros i Hi. rewrite Hdel, lookup_delete_ne by (by intros ->).
    apply Hlive. by right.
  - intros i p Hi Hp.
    assert (item_node s i = Some p) as Hp0.
    { unfold item_node in *. rewrite Hdel in Hp.
      by rewrite lookup_delete_ne in Hp by (by intros ->). }
    destruct (Hnode i p) as [n Hn]; [by right|done|].
    pose proof (sh_nodes _ _ Hsh p) as Hq. rewrite Hn in Hq.
    destruct (nodes s' !! p); [by eexists|done].
  - intros q a Hq.
    pose proof (sh_label _ _ Hsh _ _ Hq) as Hq0.
    rewrite Hstrs; [by eapply Hll|].
    intros p Hp Hpl.
    assert (p = q) as -> by by eapply Hinj.
    unfold item_node in Hp. rewrite HIt in Hp. simpl in Hp.
    destruct (Hclr q Hp) as [Hnull _]. congruence.
  - intros p q a Hp Hq. eapply Hinj; by apply (sh_label _ _ Hsh).
Qed.

Lemma free_items_loop_Done its rest : ∀ s,
  items_ok s its → labels_ok s →
  ∃ s', free_items_loop ((Some <$> its) ++ None :: rest) s = Done tt s' ∧
        labels_ok s'.
Proof.
  induction its as [|item its IH]; intros s Hok Hlab.
  - exists s. done.
  - change ((Some <$> item :: its) ++ None :: rest)
      with (Some item :: ((Some <$> its) ++ None :: rest)).
    rewrite free_items_loop_cons.
    destruct (free_step_Done item s) as [s1 Hstep].
    + apply Hok. left.
    + intros p. apply Hok. left.
    + apply Hlab.
    + destruct (free_step_keeps_ok _ _ _ _ Hstep Hok Hlab) as [Hok1 Hlab1].
      rewrite (bind_Done _ _ _ _ _ Hstep). by apply IH.
Qed.

Lemma free_items_loop_gone its rest : ∀ s s' i,
  free_items_loop ((Some <$> its) ++ None :: rest) s = Done tt s' →
  i ∈ its → items s' !! i = None.
Proof.
  induction its as [|item its IH]; intros s s' i Hloop Hi.
  { by apply elem_of_nil in Hi. }
  change ((Some <$> item :: its) ++ None :: rest)
    with (Some item :: ((Some <$> its) ++ None :: rest)) in Hloop.
  rewrite free_items_loop_cons in Hloop.
  apply bind_inv in Hloop as ([] & s1 & Hstep & Hloop).
  destruct (decide (i = item)) as [->|Hne].
  - pose proof (free_items_loop_inv _ _ _ Hloop) as (Hsh & _).
    apply free_step_inv in Hstep as (It & HIt & Hdel & _).
    eapply lookup_weaken_None; [|apply Hsh].
    rewrite Hdel. apply lookup_delete_eq.
  - apply elem_of_cons in Hi as [?|Hi]; [done|]. by eapply IH.
Qed.

(** X9: [tree_view_free_current_items] on a well-formed list that the menu
    of the view does not hold (the display library gives back no item that a
    menu holds, so the list has been taken off the menu first): it returns,
    every item up to the first null slot is given back, the nodes the items
    point to lose their label and the text of it, and the list of the view
    is null, so that a second call does nothing.  No other text block, item
    or node field is touched. *)
Theorem tree_view_free_current_items_spec (view : tree_view) (s : state)
    (its : list positive) (rest : list (option positive)) :
  current_items view = Some ((Some <$> its) ++ None :: rest) →
  off_menu view its →
  items_ok s its → labels_ok s →
  ∃ s',
    tree_view_free_current_items view s
    = Done (set_current_items None view) s' ∧
    tree_view_free_current_items (set_current_items None view) s'
    = Done (set_current_items None view) s' ∧
    (∀ i, items s' !! i = if decide (i ∈ its) then None else items s !! i) ∧
    (∀ i p, i ∈ its → item_node s i = Some p →
       field label s' p = Some None ∧
       ∀ a, field label s p = Some (Some a) → strs s' !! a = None) ∧
    (∀ b, (∀ i p, i ∈ its → item_node s i = Some p →
                  field label s p ≠ Some (Some b)) →
          strs s' !! b = strs s !! b) ∧
    shrinks s s' ∧ labels_ok s'.
Proof.
  intros Hcur _ Hok Hlab.
  destruct (free_items_loop_Done its rest s Hok Hlab) as (s' & Hloop & Hlab').
  exists s'.
  assert (tree_view_free_current_items view s
          = Done (set_current_items None view) s') as Hrun.
  { unfold tree_view_free_current_items. rewrite Hcur.
    by rewrite (bind_Done _ _ _ _ _ Hloop). }
  pose proof (λ b, tree_view_free_current_items_strs _ _ _ _ b Hrun) as Hstrs.
  pose proof (tree_view_free_current_items_inv _ _ _ _ Hrun)
    as (Hsh & Hkeep & Hclr).
  unfold posted_items in Hstrs, Hkeep, Hclr.
  rewrite Hcur, array_items_app in Hstrs, Hkeep, Hclr.
  split_and!; try done.
  intros i. case_decide as Hi; [|by apply Hkeep].
  by eapply free_items_loop_gone.
Qed.


(** ** An update that is refused nothing *)

Lemma alloc_granted_Done s :
  all_granted s →
  ∃ s', alloc_granted s = Done true s' ∧ all_granted s'.
Proof.
  unfold all_granted, alloc_granted. destruct (oracle s) as [|[] o] eqn:Ho.
  - intros _. exists s. by rewrite Ho.
  - simpl. intros Hg. eexists. split; [done|]. done.
  - done.
Qed.

Lemma talloc_str_Done t s :
  all_granted s →
  ∃ a s', talloc_str t s = Done (Some a) s' ∧ all_granted s'.
Proof.
  intros (s1 & Ha & Hg)%alloc_granted_Done. unfold talloc_str.
  rewrite (bind_Done _ _ _ _ _ Ha). unfold bind, get_state, modify, ret.
  eexists _, _. split; [done|]. done.
Qed.

Lemma put_item_Done c d i arr p s :
  all_granted s → i < length arr →
  ∃ it s', put_item (Some c) d i arr p s = Done (Some it) s' ∧
           all_granted s'.
Proof.
  intros (s1 & Ha & Hg)%alloc_granted_Done Hi.
  unfold put_item, new_item, set_item_userptr, load_item.
  rewrite bind_assoc, (bind_Done _ _ _ _ _ Ha).
  unfold bind, get_state, modify, ret.
  rewrite decide_True by done. simpl. rewrite lookup_insert_eq.
  eexists _, _. split; [done|]. done.
Qed.

Lemma derive_label_Done p n a t s :
  nodes s !! p = Some n → all_granted s →
  name n = Some a → strs s !! a = Some t →
  (child_head n ≠ None → label n = None) →
  ∃ lbl s', derive_label p n s = Done (Some (Some lbl)) s' ∧
            all_granted s'.
Proof.
  intros Hp Hg Hn Ha Hl. unfold derive_label.
  destruct (child_head n) as [c|].
  - rewrite Hl by done. rewrite Hn. simpl.
    destruct (talloc_str_Done ("+" +:+ t) s Hg) as (b & s1 & Hb & Hg1).
    pose proof (talloc_str_inv _ _ _ _ Hb) as (Hn1 & _).
    unfold bind at 1. unfold SMB_ASSERT, ret. simpl.
    unfold bind at 1. unfold read_str. rewrite Ha.
    rewrite (bind_Done _ _ _ _ _ Hb).
    unfold upd, load, store, bind, ret. rewrite Hn1, Hp. simpl.
    rewrite Hn1, Hp. eexists _, _. split; [done|]. done.
  - rewrite Hn. eexists _, _. split; [done|]. done.
Qed.

Lemma nexts_live s x l q : nexts s x l → q ∈ l → is_Some (nodes s !! q).
Proof.
  revert x. induction l as [|p l IH]; intros x; simpl.
  - intros _ Hq. by apply elem_of_nil in Hq.
  - intros [-> H] [->|Hq]%elem_of_cons.
    + unfold field in H. destruct (nodes s !! p); [by eexists|done].
    + destruct (field next s p); [|done]. by eapply IH.
Qed.

Lemma labels_ok_new_label s s' p n a t :
  labels_ok s → nodes s !! p = Some n → strs s !! a = None →
  nodes s' = <[p := set_label (Some a) n]> (nodes s) →
  strs s' = <[a := t]> (strs s) →
  labels_ok s'.
Proof.
  intros [Hlive Hinj] Hp Ha Hn' Hs'.
  assert (∀ q b, q ≠ p → field label s' q = Some (Some b) →
            field label s q = Some (Some b) ∧ b ≠ a) as Hold.
  { intros q b Hq. unfold field. rewrite Hn', lookup_insert_ne by done.
    intros Hb. split; [done|]. intros ->.
    destruct (Hlive q a Hb) as [? ?]. congruence. }
  assert (∀ b, field label s' p = Some (Some b) → b = a) as Hnew.
  { intros b. unfold field. rewrite Hn', lookup_insert_eq. simpl. congruence. }
  split.
  - intros q b Hq. rewrite Hs'. destruct (decide (q = p)) as [->|Hne].
    + rewrite (Hnew b Hq), lookup_insert_eq. by eexists.
    + destruct (Hold q b Hne Hq) as [Hq0 Hb].
      rewrite lookup_insert_ne by done. by eapply Hlive.
  - intros q1 q2 b H1 H2.
    destruct (decide (q1 = p)) as [->|Hne1], (decide (q2 = p)) as [->|Hne2].
    + done.
    + destruct (Hold q2 b Hne2 H2) as [_ Hb]. by apply Hnew in H1.
    + destruct (Hold q1 b Hne1 H1) as [_ Hb]. by apply Hnew in H2.
    + destruct (Hold q1 b Hne1 H1) as [? _], (Hold q2 b Hne2 H2) as [? _].
      by eapply Hinj.
Qed.

Lemma labels_ok_same s s' :
  labels_ok s → nodes s' = nodes s → strs s' = strs s → labels_ok s'.
Proof.
  intros [Hlive Hinj] Hn Hs. split; unfold field; rewrite ?Hn, ?Hs.
  - apply Hlive.
  - apply Hinj.
Qed.

Lemma build_items_Done fuel : ∀ l i tmp arr s,
  nexts s tmp l → length l ≤ fuel → i + length l ≤ length arr →
  all_granted s → displayable s l → labels_ok s →
  ∃ its s',
    build_items fuel i tmp arr s
    = Done (Some (take i arr ++ (Some <$> its) ++ drop (i + length l) arr)) s' ∧
    length its = length l ∧ all_granted s' ∧ labels_ok s' ∧ NoDup its ∧
    (∀ it, it ∈ its → items s !! it = None) ∧
    (∀ k it, its !! k = Some it →
       ∃ p, l !! k = Some p ∧ item_node s' it = Some p) ∧
    (∀ q, q ∈ l → field child_head s q ≠ Some None →
       ∃ a, field label s' q = Some (Some a)).
Proof.
  induction fuel as [|fuel IH]; intros [|p l] i tmp arr s Hl Hlen Hi Hg Hd Hlab;
    simpl in Hlen; try lia.
  - simpl in Hl. subst tmp. exists [], s. simpl.
    rewrite Nat.add_0_r, take_drop. split_and!; try done; [constructor|..].
    + by intros it ?%elem_of_nil.
    + by intros q ?%elem_of_nil.
  - simpl in Hl. subst tmp. exists [], s. simpl.
    rewrite Nat.add_0_r, take_drop. split_and!; try done; [constructor|..].
    + by intros it ?%elem_of_nil.
    + by intros q ?%elem_of_nil.
  - pose proof (nexts_NoDup _ _ _ Hl) as Hnd.
    apply NoDup_cons in Hnd as [Hp' Hnd].
    destruct Hl as [-> Hl]. rewrite build_items_S.
    unfold field in Hl. destruct (nodes s !! p) as [n|] eqn:Hp; [|done].
    simpl in Hl, Hi.
    rewrite (bind_Done _ _ _ _ _ (load_Done _ _ _ Hp)).
    destruct (Hd p) as [(a & Hna & [t Ht]) Hnull]; [left|].
    unfold field in Hna, Hnull. rewrite Hp in Hna, Hnull.
    simpl in Hna, Hnull. injection Hna as Hna.
    destruct (derive_label_Done p n a t s Hp Hg Hna Ht)
      as (lbl & s1 & Hlbl & Hg1).
    { intros Hc. assert (Some (label n) = Some None) as [= ->]; [|done].
      apply Hnull. congruence. }
    rewrite (bind_Done _ _ _ _ _ Hlbl).
    pose proof (derive_label_inv _ _ _ _ _ Hp Hlbl)
      as (Hgr1 & Hfr1 & _ & _ & Hi1).
    pose proof (derive_label_text _ _ _ _ _ Hp Hlbl) as Htext.
    destruct (put_item_Done lbl (Heap <$> name n) i arr p s1 Hg1)
      as (it & s2 & Hput & Hg2); [lia|].
    rewrite (bind_Done _ _ _ _ _ Hput).
    pose proof (put_item_grows _ _ _ _ _ _ _ _ Hput) as Hgr2.
    pose proof (put_item_inv _ _ _ _ _ _ _ _ Hput)
      as (_ & Hn2 & Hs2 & _ & Hfresh & c & _ & Hit2).
    assert (grows s s2) as Hgr by by eapply grows_trans.
    assert (labels_ok s2) as Hlab2.
    { destruct Htext as [(_ & _ & ->)|
        (c' & b & nm & _ & _ & Hfb & _ & Hs1 & Hn1)].
      - by apply (labels_ok_same s).
      - apply (labels_ok_new_label s s2 p n b ("+" +:+ nm)%string);
          try done; congruence. }
    assert (displayable s2 l) as Hd2.
    { intros q Hq.
      assert (q ≠ p) as Hne by (by intros ->).
      destruct (Hd q) as [(b & Hb & [u Hu]) Hqn]; [by right|].
      assert (∀ {A} (f : tree_node → A), field f s2 q = field f s q) as Hf.
      { intros A f. unfold field. by rewrite Hn2, (Hfr1 q Hne). }
      rewrite !Hf. split; [|done]. exists b. split; [done|]. exists u.
      eapply lookup_weaken; [done|apply Hgr]. }
    destruct (IH l (S i) (next n) (<[i := Some it]> arr) s2)
      as (its & s' & Hrun & Hlen' & Hg' & Hlab' & Hnd' & Hfr' & Hnode' & Hset');
      try done.
    { by apply (nexts_grows s s2). }
    { lia. }
    { rewrite length_insert. lia. }
    pose proof (build_items_grows _ _ _ _ _ _ _ Hrun) as Hgr3.
    exists (it :: its), s'. split_and!.
    + rewrite Hrun. do 2 f_equal.
      rewrite (take_S_r _ _ (Some it))
        by (apply list_lookup_insert_eq; lia).
      rewrite take_insert_ge by lia.
      rewrite drop_insert_lt by lia.
      rewrite <- app_assoc. simpl.
      replace (i + S (length l)) with (S (i + length l)) by lia. done.
    + simpl. by rewrite Hlen'.
    + done.
    + done.
    + constructor; [|done]. intros Hin.
      specialize (Hfr' it Hin). rewrite Hit2, lookup_insert_eq in Hfr'. done.
    + intros j [->|Hj]%elem_of_cons.
      * by rewrite <- Hi1.
      * eapply lookup_weaken_None; [by apply Hfr'|apply Hgr].
    + intros [|k] j Hk; simpl in Hk.
      * injection Hk as <-. exists p. split; [done|].
        assert (items s' !! it = Some (Item c (Heap <$> name n) (Some p)))
          as E.
        { eapply lookup_weaken; [|apply Hgr3].
          rewrite Hit2. apply lookup_insert_eq. }
        unfold item_node. by rewrite E.
      * by apply Hnode'.
    + intros q [->|Hq]%elem_of_cons Hc.
      * destruct Htext as [(Hc0 & _)|
          (c' & b & nm & _ & _ & Hfb & _ & Hs1 & Hn1)].
        { unfold field in Hc. rewrite Hp in Hc. simpl in Hc. congruence. }
        exists b. apply (g_label _ _ Hgr3). unfold field.
        by rewrite Hn2, Hn1, lookup_insert_eq.
      * apply Hset'; [done|].
        by rewrite (grows_field child_head s s2).
Qed.

Lemma items_ok_grows s s' its :
  grows s s' → items_ok s its → items_ok s' its.
Proof.
  intros Hg [Hnd Hlive Hnode]. split; [done| |].
  - intros i [It Hi]%Hlive. exists It.
    eapply lookup_weaken; [done|apply Hg].
  - intros i p Hi Hp.
    destruct (Hlive i Hi) as [It HIt].
    assert (item_node s i = Some p) as Hp0.
    { unfold item_node in *.
      rewrite (lookup_weaken _ _ _ _ HIt (g_items _ _ Hg)) in Hp.
      by rewrite HIt. }
    destruct (Hnode i p Hi Hp0) as [n Hn].
    pose proof (g_nodes _ _ Hg p) as Hq. rewrite Hn in Hq.
    destruct (nodes s' !! p); [by eexists|done].
Qed.

Lemma free_step_oracle item s s' :
  free_step item s = Done tt s' → oracle s' = oracle s.
Proof.
  unfold free_step. intros (tmp & s1 & Hu & H)%bind_inv.
  unfold item_userptr in Hu. apply bind_inv in Hu as (It & s0 & Hit & Hu).
  unfold load_item in Hit. destruct (items s !! item) as [It'|] eqn:Ei; [|done].
  unfold ret in Hu. simplify_eq.
  apply bind_inv in H as ([] & s2 & Hclr & H).
  unfold free_item, bind, load_item, modify in H.
  destruct (items s2 !! item) as [It2|] eqn:Ei2; [|done]. simplify_eq.
  simpl.
  destruct (it_userptr It) as [p|] eqn:Ep.
  - apply bind_inv in Hclr as (n & s3 & Hload & Hclr).
    apply load_inv in Hload as [Hp ->].
    destruct (label n) as [a|] eqn:El.
    + apply bind_inv in Hclr as ([] & s4 & Hfree & Hupd).
      unfold talloc_free_str in Hfree.
      destruct (strs s1 !! a) as [t|] eqn:Ea; [|done]. simplify_eq.
      by apply upd_inv in Hupd as (n' & Hn' & ->).
    + unfold ret in Hclr. by simplify_eq.
  - unfold ret in Hclr. by simplify_eq.
Qed.

Lemma free_items_loop_oracle arr : ∀ s s',
  free_items_loop arr s = Done tt s' → oracle s' = oracle s.
Proof.
  induction arr as [|[item|] arr IH]; intros s s' Hloop; [done| |].
  - rewrite free_items_loop_cons in Hloop.
    apply bind_inv in Hloop as ([] & s1 & Hstep & Hloop).
    rewrite (IH _ _ Hloop). by eapply free_step_oracle.
  - unfold free_items_loop, ret in Hloop. by simplify_eq.
Qed.

Lemma free_items_loop_frame arr : ∀ s s' q,
  free_items_loop arr s = Done tt s' →
  (∀ i, i ∈ array_items arr → item_node s i ≠ Some q) →
  nodes s' !! q = nodes s !! q.
Proof.
  induction arr as [|[item|] arr IH]; intros s s' q Hloop Hq; [done| |].
  - rewrite free_items_loop_cons in Hloop.
    apply bind_inv in Hloop as ([] & s1 & Hstep & Hloop).
    apply free_step_inv in Hstep as (It & HIt & Hdel & Hsh & _ & Hfr).
    rewrite (IH _ _ q Hloop).
    + apply Hfr. intros Hu. apply (Hq item); [left|].
      unfold item_node. by rewrite HIt.
    + intros i Hi Hnode. apply (Hq i); [by right|].
      unfold item_node in *.
      destruct (items s1 !! i) as [It1|] eqn:Ei; [|done].
      by rewrite (lookup_weaken _ _ _ _ Ei (sh_items _ _ Hsh)).
  - unfold free_items_loop, ret in Hloop. by simplify_eq.
Qed.

Lemma view_free_Done view s :
  view_ok s view →
  ∃ s', tree_view_free_current_items view s
        = Done (set_current_items None view) s' ∧
        labels_ok s' ∧ shrinks s s' ∧ oracle s' = oracle s ∧
        (∀ i, i ∉ posted_items view → items s' !! i = items s !! i) ∧
        (∀ q, (∀ i, i ∈ posted_items view → item_node s i ≠ Some q) →
              nodes s' !! q = nodes s !! q) ∧
        (∀ i, i ∈ posted_items view → items s' !! i = None).
Proof.
  intros [Hlab Hok Hnull].
  assert (∀ s', tree_view_free_current_items view s
                = Done (set_current_items None view) s' →
            shrinks s s' ∧
            (∀ i, i ∉ posted_items view → items s' !! i = items s !! i))
    as Hinv.
  { intros s' (Hsh & Hkeep & _)%tree_view_free_current_items_inv. done. }
  unfold tree_view_free_current_items in *. unfold posted_items in Hok.
  destruct (current_items view) as [arr|] eqn:Hcur.
  - destruct (Hnull arr eq_refl) as [rest Harr].
    destruct (free_items_loop_Done (array_items arr) rest s Hok Hlab)
      as (s' & Hloop & Hlab').
    pose proof (λ i, free_items_loop_gone _ _ _ _ i Hloop) as Hgone.
    rewrite <- Harr in Hloop. exists s'.
    rewrite (bind_Done _ _ _ _ _ Hloop). unfold ret.
    assert (oracle s' = oracle s) as Ho by by eapply free_items_loop_oracle.
    assert (∀ q, (∀ i, i ∈ array_items arr → item_node s i ≠ Some q) →
              nodes s' !! q = nodes s !! q) as Hframe.
    { intros q Hq. by eapply free_items_loop_frame. }
    assert (posted_items view = array_items arr) as Hpost
      by (unfold posted_items; by rewrite Hcur).
    rewrite Hpost.
    split_and!; try done;
      try (rewrite <- ?Hpost; apply Hinv;
           by rewrite (bind_Done _ _ _ _ _ Hloop)).
  - assert (set_current_items None view = view) as Hv.
    { destruct view. simpl in Hcur. by subst. }
    rewrite Hv in *. exists s.
    split_and!; try done.
    unfold posted_items. rewrite Hcur. by intros i ?%elem_of_nil.
Qed.

Lemma tree_view_update_run (fuel : nat) (view : tree_view)
    (list_ : option ptr) (s : state) (l : list ptr) :
  nexts s (if list_ is None then root view else list_) l →
  length l ≤ fuel →
  all_granted s → displayable s l → view_ok s view →
  ∃ view' s',
    tree_view_update fuel view list_ s = Done (WERR_OK, view') s' ∧
    view_ok s' view' ∧ all_granted s' ∧
    current_items view' = Some ((Some <$> posted_items view') ++ [None]) ∧
    length (posted_items view') = length l ∧
    (∀ k it, posted_items view' !! k = Some it →
       ∃ p, l !! k = Some p ∧ item_node s' it = Some p) ∧
    root view' = root view ∧
    menu view'
    = (λ _, Menu ((Some <$> posted_items view') ++ [None]) false)
      <$> menu view ∧
    (∀ q, set_label None <$> nodes s' !! q
          = set_label None <$> nodes s !! q) ∧
    (∀ q, q ∈ l → field child_head s q ≠ Some None →
          (∀ i, i ∈ posted_items view → item_node s i ≠ Some q) →
          ∃ a, field label s' q = Some (Some a)) ∧
    (∀ i, i ∈ posted_items view → items s' !! i = None).
Proof.
  intros Hl Hlen Hg Hd Hview.
  unfold tree_view_update.
  rewrite (bind_Done _ _ _ _ _ (count_next_nexts fuel _ _ _ 0 Hl Hlen)).
  destruct (alloc_granted_Done s Hg) as (s0 & Ha & Hg0).
  pose proof (alloc_granted_inv _ _ _ Ha) as (Hn0 & Hs0 & Hi0 & Hr0).
  pose proof (alloc_granted_grows _ _ _ Ha) as Hgr0.
  unfold talloc_zero_array. rewrite bind_assoc, (bind_Done _ _ _ _ _ Ha).
  unfold ret at 1. unfold bind at 1.
  set (arr := replicate (0 + length l + 1) None).
  assert (nexts s0 (if list_ is None then root view else list_) l) as Hl0
    by by apply (nexts_grows s s0).
  assert (displayable s0 l) as Hd0.
  { intros q Hq. unfold field. rewrite Hn0, Hs0. by apply Hd. }
  assert (labels_ok s0) as Hlab0.
  { apply (labels_ok_same s); [apply Hview|done..]. }
  destruct (build_items_Done fuel l 0 _ arr s0 Hl0 Hlen)
    as (its & s1 & Hb & Hlen' & Hg1 & Hlab1 & Hnd & Hfresh & Hnode & Hset);
    try done.
  { unfold arr. rewrite length_replicate. lia. }
  rewrite (bind_Done _ _ _ _ _ Hb).
  pose proof (build_items_grows _ _ _ _ _ _ _ Hb) as Hgr1.
  assert (take 0 arr ++ (Some <$> its) ++ drop (0 + length l) arr
          = (Some <$> its) ++ [None]) as Harr.
  { unfold arr. simpl. rewrite drop_replicate.
    by replace (length l + 1 - length l) with 1 by lia. }
  rewrite Harr in *. clear Harr.
  set (view2 := set_menu (set_menu_items _ _) _).
  assert (view_ok s1 view2) as Hview2.
  { destruct Hview as [Hlab Hok Hnull]. split; [done| |done].
    apply (items_ok_grows s0); [done|].
    apply (items_ok_grows s); done. }
  destruct (view_free_Done view2 s1 Hview2)
    as (s' & Hfree & Hlab' & Hsh & Ho & Hkeep & Hframe & Hgone).
  rewrite (bind_Done _ _ _ _ _ Hfree). unfold ret.
  eexists _, s'. split; [reflexivity|].
  unfold posted_items. simpl. rewrite array_items_full.
  assert (∀ it, it ∈ its → items s' !! it = items s1 !! it) as Hnew.
  { intros it Hit. apply Hkeep. intros Hin.
    destruct (vo_items _ _ Hview) as [_ Hlive _].
    destruct (Hlive it Hin) as [It HIt].
    rewrite <- Hi0 in HIt. specialize (Hfresh it Hit). congruence. }
  assert (∀ k it, its !! k = Some it →
            ∃ p, l !! k = Some p ∧ item_node s' it = Some p) as Hnode'.
  { intros k it Hk. destruct (Hnode k it Hk) as (p & Hp & Hit).
    exists p. split; [done|]. unfold item_node in *.
    rewrite Hnew; [done|]. by eapply list_elem_of_lookup_2. }
  split_and!; try done.
  - split; [done| |].
    + unfold posted_items. simpl. rewrite array_items_full.
      split; [done| |].
      * intros it [k Hk]%list_elem_of_lookup.
        destruct (Hnode' k it Hk) as (p & _ & Hp). unfold item_node in Hp.
        destruct (items s' !! it); [by eexists|done].
      * intros it p' [k Hk]%list_elem_of_lookup Hp'.
        destruct (Hnode' k it Hk) as (p & Hp & Hit).
        rewrite Hit in Hp'. injection Hp' as <-.
        destruct (nexts_live _ _ _ p Hl) as [n Hn];
          [by eapply list_elem_of_lookup_2|].
        pose proof (g_nodes _ _ Hgr0 p) as E0.
        pose proof (g_nodes _ _ Hgr1 p) as E1.
        pose proof (sh_nodes _ _ Hsh p) as E2.
        rewrite Hn in E0.
        destruct (nodes s0 !! p); [|done].
        destruct (nodes s1 !! p); [|done].
        destruct (nodes s' !! p); [by eexists|done].
    + simpl. intros arr' [= <-]. exists []. by rewrite array_items_full.
  - unfold all_granted. by rewrite Ho.
  - unfold view2. simpl. by destruct (menu view).
  - intros q. rewrite (sh_nodes _ _ Hsh), (g_nodes _ _ Hgr1).
    by rewrite Hn0.
  - intros q Hq Hc Hnot.
    destruct (Hset q Hq) as [a Hqa].
    { unfold field. by rewrite Hn0. }
    exists a. unfold field. rewrite Hframe; [done|].
    intros i Hi Hin. apply (Hnot i Hi).
    destruct (vo_items _ _ Hview) as [_ Hlive _].
    destruct (Hlive i Hi) as [It HIt].
    unfold item_node in *. rewrite HIt.
    rewrite <- Hi0 in HIt.
    by rewrite (lookup_weaken _ _ _ _ HIt (g_items _ _ Hgr1)) in Hin.
Qed.

(** X10: On a well-formed view and a chain that is not empty, whose nodes
    have names the display library accepts and, where they have a child, no
    label, an update that is refused no memory returns [WERR_OK]: it never
    fails an assertion and never leaves the heap.  The view it returns is
    well-formed again; its list has one item per node of the chain and ends
    in a null slot, and the menu holds that list, un-posted; every item of
    the list shown before has been given back.  (On an empty chain the
    library refuses the array and the menu keeps the list it had; a node
    with a name the library turns down gets no item.  The menu of the view
    is the only menu there is.) *)
Theorem tree_view_update_succeeds (fuel : nat) (view : tree_view)
    (list_ : option ptr) (s : state) (l : list ptr) :
  nexts s (if list_ is None then root view else list_) l →
  length l ≤ fuel → l ≠ [] →
  all_granted s → displayable s l → accepted s l → view_ok s view →
  ∃ view' s',
    tree_view_update fuel view list_ s = Done (WERR_OK, view') s' ∧
    view_ok s' view' ∧ all_granted s' ∧
    current_items view' = Some ((Some <$> posted_items view') ++ [None]) ∧
    length (posted_items view') = length l ∧
    (∀ k it, posted_items view' !! k = Some it →
       ∃ p, l !! k = Some p ∧ item_node s' it = Some p) ∧
    root view' = root view ∧
    menu view'
    = (λ _, Menu ((Some <$> posted_items view') ++ [None]) false)
      <$> menu view ∧
    (∀ i, i ∈ posted_items view → items s' !! i = None).
Proof.
  intros Hl Hlen _ Hg Hd _ Hview.
  destruct (tree_view_update_run fuel view list_ s l Hl Hlen Hg Hd Hview)
    as (view' & s' & H1 & H2 & H3 & H4 & H5 & H6 & H7 & H8 & _ & _ & H9).
  exists view', s'. done.
Qed.


(** ** An update that meets a label *)

Lemma grants_head s : grants 1 s → ∃ s', alloc_granted s = Done true s'
  ∧ nodes s' = nodes s ∧ strs s' = strs s ∧ items s' = items s.
Proof.
  unfold grants, alloc_granted. destruct (oracle s) as [|[] o]; simpl.
  - intros _. by exists s.
  - intros _. by eexists.
  - done.
Qed.

Lemma put_item_total lbl d i arr p s :
  i < length arr →
  ∃ r s', put_item lbl d i arr p s = Done r s' ∧ nodes s' = nodes s.
Proof.
  intros Hi. unfold put_item, new_item, set_item_userptr, load_item.
  destruct lbl as [c|].
  - unfold alloc_granted, bind, get_state, modify, ret.
    destruct (oracle s) as [|[] o]; simpl; rewrite decide_True by done;
      simpl; rewrite ?lookup_insert_eq; eauto.
  - unfold bind, ret. rewrite decide_True by done. eauto.
Qed.

Lemma build_items_panics p l2 c a fuel : ∀ l1 i tmp arr s,
  nexts s tmp (l1 ++ p :: l2) → length (l1 ++ p :: l2) ≤ fuel →
  i + length l1 < length arr →
  (∀ q, q ∈ l1 → field child_head s q = Some None) →
  field child_head s p = Some (Some c) →
  field label s p = Some (Some a) →
  build_items fuel i tmp arr s = Panic.
Proof.
  induction fuel as [|fuel IH]; intros l1 i tmp arr s Hl Hlen Hi Hleaf Hc Ha.
  { rewrite length_app in Hlen. simpl in Hlen. lia. }
  destruct l1 as [|q l1]; simpl in Hl, Hlen.
  - destruct Hl as [-> _].
    apply field_Some in Hc as (n & Hn & Hc).
    unfold field in Ha. rewrite Hn in Ha. simpl in Ha.
    eapply build_items_asserts; [done|congruence|congruence].
  - destruct Hl as [-> Hl]. rewrite build_items_S.
    unfold field in Hl. destruct (nodes s !! q) as [n|] eqn:Hq; [|done].
    simpl in Hl, Hi.
    rewrite (bind_Done _ _ _ _ _ (load_Done _ _ _ Hq)).
    assert (child_head n = None) as Hn.
    { specialize (Hleaf q (list_elem_of_here _ _)). unfold field in Hleaf.
      rewrite Hq in Hleaf. simpl in Hleaf. congruence. }
    unfold derive_label. rewrite Hn. unfold ret at 1. unfold bind at 1.
    destruct (put_item_total (Heap <$> name n) (Heap <$> name n) i arr q s)
      as (r & s1 & Hput & Hn1); [lia|].
    rewrite (bind_Done _ _ _ _ _ Hput).
    assert (∀ {A} (f : tree_node → A) x, field f s1 x = field f s x) as Hf.
    { intros A f x. unfold field. by rewrite Hn1. }
    apply (IH l1).
    + clear -Hl Hn1. revert Hl. generalize (next n).
      induction (l1 ++ p :: l2) as [|y l IH]; intros x; simpl; [done|].
      unfold field. rewrite Hn1. destruct (nodes s !! y); simpl; [|done].
      intros [-> ?]. auto.
    + lia.
    + rewrite length_insert. lia.
    + intros x Hx. rewrite Hf. apply Hleaf. by right.
    + by rewrite Hf.
    + by rewrite Hf.
Qed.

Lemma tree_view_update_panics fuel view list_ s l1 p l2 c a :
  nexts s (if list_ is None then root view else list_) (l1 ++ p :: l2) →
  length (l1 ++ p :: l2) ≤ fuel →
  grants 1 s →
  (∀ q, q ∈ l1 → field child_head s q = Some None) →
  field child_head s p = Some (Some c) →
  field label s p = Some (Some a) →
  tree_view_update fuel view list_ s = Panic.
Proof.
  intros Hl Hlen Hg Hleaf Hc Ha. unfold tree_view_update.
  rewrite (bind_Done _ _ _ _ _ (count_next_nexts fuel _ _ _ 0 Hl Hlen)).
  destruct (grants_head s Hg) as (s0 & Hal & Hn0 & _).
  unfold talloc_zero_array. rewrite bind_assoc, (bind_Done _ _ _ _ _ Hal).
  unfold ret at 1. unfold bind at 1.
  assert (∀ {A} (f : tree_node → A) x, field f s0 x = field f s x) as Hf.
  { intros A f x. unfold field. by rewrite Hn0. }
  unfold bind at 1.
  rewrite (build_items_panics p l2 c a fuel l1 0 _ _ s0); try done.
  - revert Hl. generalize (if list_ is None then root view else list_).
    clear -Hn0. induction (l1 ++ p :: l2) as [|y l IH]; intros x; simpl;
      [done|].
    unfold field. rewrite Hn0. destruct (nodes s !! y); simpl; [|done].
    intros [-> ?]. auto.
  - rewrite length_replicate, length_app in *. simpl in *. lia.
  - intros q Hq. rewrite Hf. by apply Hleaf.
  - by rewrite Hf.
  - by rewrite Hf.
Qed.

Lemma field_mod_label {A} (f : tree_node → A) s s' q :
  (∀ n, f (set_label None n) = f n) →
  (∀ x, set_label None <$> nodes s' !! x = set_label None <$> nodes s !! x) →
  field f s' q = field f s q.
Proof.
  intros Hf Hn. specialize (Hn q). unfold field.
  destruct (nodes s' !! q) as [n'|], (nodes s !! q) as [n|];
    try done.
  cbn [fmap option_fmap option_map] in *.
  assert (set_label None n' = set_label None n) as E by congruence.
  by rewrite <- (Hf n'), <- (Hf n), E.
Qed.

Lemma nexts_mod_label s s' x l :
  (∀ q, set_label None <$> nodes s' !! q = set_label None <$> nodes s !! q) →
  nexts s x l → nexts s' x l.
Proof.
  intros Hn. revert x. induction l as [|p l IH]; intros x; simpl; [done|].
  rewrite (field_mod_label next s s') by done.
  destruct (field next s p); [|done]. intros [-> ?]. auto.
Qed.

Lemma first_with_child s l p :
  p ∈ l → field child_head s p ≠ Some None →
  (∀ q, q ∈ l → is_Some (nodes s !! q)) →
  ∃ l1 p0 l2 c, l = l1 ++ p0 :: l2 ∧
    (∀ q, q ∈ l1 → field child_head s q = Some None) ∧
    field child_head s p0 = Some (Some c).
Proof.
  intros Hp Hc. induction l as [|q l IH]; intros Hlive.
  { by apply elem_of_nil in Hp. }
  destruct (Hlive q) as [n Hn]; [left|].
  destruct (child_head n) as [c|] eqn:Ec.
  - exists [], q, l, c. split; [done|]. split.
    + by intros ? ?%elem_of_nil.
    + unfold field. rewrite Hn. simpl. by rewrite Ec.
  - assert (field child_head s q = Some None) as Hq.
    { unfold field. rewrite Hn. simpl. by rewrite Ec. }
    apply elem_of_cons in Hp as [->|Hp]; [done|].
    destruct (IH Hp) as (l1 & p0 & l2 & c & -> & Hleaf & Hp0).
    { intros x Hx. apply Hlive. by right. }
    exists (q :: l1), p0, l2, c. split; [done|]. split; [|done].
    intros x [->|Hx]%elem_of_cons; auto.
Qed.

Lemma all_granted_grants k s : all_granted s → grants k s.
Proof.
  unfold all_granted, grants. generalize (oracle s). clear.
  induction k as [|k IH]; intros [|[] o]; simpl; try done.
  apply IH.
Qed.

(** X11: [tree_view_update] dies in its assertion when the first node of the
    chain that has a child still carries a label, whatever the view shows
    and whatever requests are refused after the one for the array. *)
Theorem tree_view_update_asserts_label (fuel : nat) (view : tree_view)
    (list_ : option ptr) (s : state) (l1 l2 : list ptr) (p c : ptr)
    (a : positive) :
  nexts s (if list_ is None then root view else list_) (l1 ++ p :: l2) →
  length (l1 ++ p :: l2) ≤ fuel →
  grants 1 s →
  (∀ q, q ∈ l1 → field child_head s q = Some None) →
  field child_head s p = Some (Some c) →
  field label s p = Some (Some a) →
  tree_view_update fuel view list_ s = Panic.
Proof. apply tree_view_update_panics. Qed.

(** X12: Updating a view twice in a row on the same chain: when a node of
    the chain has a child and the list shown before the first update refers
    to no such node, the first update succeeds and the second one dies in
    the assertion on the label the first one left. *)
Theorem tree_view_update_twice_asserts (fuel : nat) (view : tree_view)
    (list_ : option ptr) (s : state) (l : list ptr) (p : ptr) :
  nexts s (if list_ is None then root view else list_) l →
  length l ≤ fuel →
  all_granted s → displayable s l → view_ok s view →
  p ∈ l → field child_head s p ≠ Some None →
  (∀ i q, i ∈ posted_items view → item_node s i = Some q → q ∈ l →
          field child_head s q = Some None) →
  ∃ view' s',
    tree_view_update fuel view list_ s = Done (WERR_OK, view') s' ∧
    tree_view_update fuel view' list_ s' = Panic.
Proof.
  intros Hl Hlen Hg Hd Hview Hp Hc Hsep.
  destruct (tree_view_update_run fuel view list_ s l Hl Hlen Hg Hd Hview)
    as (view' & s' & Hrun & _ & Hg' & _ & _ & _ & Hroot & _ & Hmod & Hset & _).
  exists view', s'. split; [done|].
  destruct (first_with_child s l p Hp Hc)
    as (l1 & p0 & l2 & c & -> & Hleaf & Hp0).
  { intros q. by eapply nexts_live. }
  assert (p0 ∈ l1 ++ p0 :: l2) as Hin.
  { apply elem_of_app. right. left. }
  destruct (Hset p0 Hin) as [a Ha].
  { congruence. }
  { intros i Hi Hnode. pose proof (Hsep i p0 Hi Hnode Hin). congruence. }
  apply (tree_view_update_panics fuel view' list_ s' l1 p0 l2 c a).
  - rewrite Hroot. by apply (nexts_mod_label s).
  - done.
  - by apply all_granted_grants.
  - intros q Hq. rewrite (field_mod_label child_head s s') by done. auto.
  - by rewrite (field_mod_label child_head s s').
  - done.
Qed.


(** ** What an update leaves alone *)

Lemma build_items_after fuel : ∀ i tmp arr s arr' s' l,
  build_items fuel i tmp arr s = Done (Some arr') s' →
  nexts s tmp l →
  ∀ k, i + length l ≤ k → arr' !! k = arr !! k.
Proof.
  induction fuel as [|fuel IH]; intros i [p|] arr s arr' s' l H Hl k Hk.
  - done.
  - unfold build_items, ret in H. by simplify_eq.
  - rewrite build_items_S in H. destruct l as [|p' l]; [done|].
    destruct Hl as [[= <-] Hl].
    apply bind_inv in H as (n & s0 & Hload & H).
    apply load_inv in Hload as [Hp ->].
    unfold field in Hl. rewrite Hp in Hl. simpl in Hl, Hk.
    apply bind_inv in H as (lbl & s1 & Hlbl & H).
    pose proof (derive_label_inv _ _ _ _ _ Hp Hlbl) as (Hg1 & _).
    destruct lbl as [lbl|]; [|unfold ret in H; by simplify_eq].
    apply bind_inv in H as (item & s2 & Hput & H).
    pose proof (put_item_grows _ _ _ _ _ _ _ _ Hput) as Hg2.
    rewrite (IH _ _ _ _ _ _ l H); [| |lia].
    + apply list_lookup_insert_ne. lia.
    + apply (nexts_grows s s2); [by eapply grows_trans|done].
  - unfold build_items, ret in H. by simplify_eq.
Qed.

Lemma array_null_split arr : ∀ k,
  arr !! k = Some None →
  ∃ rest, arr = (Some <$> array_items arr) ++ None :: rest.
Proof.
  induction arr as [|[i|] arr IH]; intros k Hk; [done| |].
  - destruct k as [|k]; [done|]. simpl in Hk.
    destruct (IH k Hk) as [rest Hrest]. exists rest. simpl.
    f_equal. exact Hrest.
  - by exists arr.
Qed.

Lemma talloc_zero_array_zero n arr s s' :
  talloc_zero_array n s = Done (Some arr) s' → arr = replicate n None.
Proof.
  unfold talloc_zero_array. intros (ok & s1 & _ & H)%bind_inv.
  unfold ret in H. destruct ok; by simplify_eq.
Qed.

Lemma tree_view_update_root fuel view list_ w view' s s' :
  tree_view_update fuel view list_ s = Done (w, view') s' →
  root view' = root view.
Proof.
  intros H.
  destruct (tree_view_update_inv _ _ _ _ _ _ _ H _ eq_refl)
    as (n & arr & s0 & Hc & Ha & Hrest).
  destruct arr as [arr|]; [|by destruct Hrest as (_ & -> & _)].
  destruct Hrest as (r & s1 & Hb & Hrest).
  destruct r as [arr'|]; [|by destruct Hrest as (_ & -> & _)].
  destruct Hrest as (_ & v2 & Hfree & ->). simpl.
  unfold tree_view_free_current_items in Hfree. simpl in Hfree.
  destruct (current_items view).
  - apply bind_inv in Hfree as ([] & s2 & _ & Hr).
    unfold ret in Hr. by simplify_eq.
  - unfold ret in Hfree. by simplify_eq.
Qed.

(** X13: Whatever it returns, an update changes no field of a node other
    than [label], gives back no node and keeps the root of the view.  When
    it fails for lack of memory the view is the one it was given.  When it
    succeeds, also with items that the library refused to build, the array
    it installs has one slot per node of the chain and one more and holds a
    null slot at which the next release loop stops, and the menu is left
    un-posted.  Whether the menu takes the array is left open: the library
    refuses an array whose first slot is null. *)
Theorem tree_view_update_frame (fuel : nat) (view view' : tree_view)
    (list_ : option ptr) (w : WERROR) (s s' : state) :
  tree_view_update fuel view list_ s = Done (w, view') s' →
  root view' = root view ∧
  released s' = released s ∧
  (∀ q, set_label None <$> nodes s' !! q = set_label None <$> nodes s !! q) ∧
  match w with
  | WERR_NOMEM => view' = view
  | WERR_OK =>
      ∃ arr rest l,
        nexts s (if list_ is None then root view else list_) l ∧
        current_items view' = Some arr ∧
        length arr = S (length l) ∧
        arr = (Some <$> posted_items view') ++ None :: rest ∧
        menu_posted <$> menu view' = (λ _, false) <$> menu view
  end.
Proof.
  intros H.
  destruct (tree_view_update_inv _ _ _ _ _ _ _ H _ eq_refl)
    as (n & arr & s0 & Hc & Ha & Hrest).
  pose proof (talloc_zero_array_grows _ _ _ _ Ha) as Hg0.
  destruct arr as [arr|].
  - destruct Hrest as (r & s1 & Hb & Hrest).
    pose proof (build_items_grows _ _ _ _ _ _ _ Hb) as Hg1.
    destruct r as [arr'|].
    + destruct Hrest as (-> & v2 & Hfree & ->).
      pose proof Hfree as Hfree'.
      apply tree_view_free_current_items_inv in Hfree as (Hsh & _).
      assert (root v2 = root view ∧
              menu v2 = set_menu_items (unpost_menu (menu view)) arr')
        as [Hroot Hmenu].
      { clear -Hfree'. unfold tree_view_free_current_items in Hfree'.
        simpl in Hfree'. destruct (current_items view).
        - apply bind_inv in Hfree' as ([] & s2 & _ & Hr).
          unfold ret in Hr. by simplify_eq.
        - unfold ret in Hfree'. by simplify_eq. }
      split_and!.
      * done.
      * by rewrite (sh_released _ _ Hsh), (g_released _ _ Hg1),
          (g_released _ _ Hg0).
      * intros q. by rewrite (sh_nodes _ _ Hsh), (g_nodes _ _ Hg1),
          (g_nodes _ _ Hg0).
      * pose proof (talloc_zero_array_zero _ _ _ _ Ha) as Hzero.
        apply talloc_zero_array_inv in Ha as (Hn0 & Hs0 & Hi0 & Hlen0).
        pose proof (count_next_length _ _ _ _ _ _ Hc) as (l & Hl & ->).
        assert (nexts s0 (if list_ is None then root view else list_) l)
          as Hl0 by by apply (nexts_grows s s0).
        pose proof (build_items_after _ _ _ _ _ _ _ l Hb Hl0 (length l))
          as Hlast.
        pose proof Hb as Hb'.
        apply build_items_built in Hb' as (l0 & Hl0' & Hbuilt); [|lia].
        pose proof (b_length _ _ _ _ _ _ Hbuilt) as Hlen'.
        assert (arr !! length l = Some None) as Harr.
        { rewrite Hzero. apply lookup_replicate. split; [done|].
          simpl. lia. }
        rewrite Harr in Hlast.
        destruct (array_null_split arr' (length l)) as [rest Hrest];
          [by apply Hlast|].
        exists arr', rest, l. split_and!; try done.
        -- rewrite Hlen', Hlen0. simpl. lia.
        -- simpl. rewrite Hmenu. by destruct (menu view).
    + destruct Hrest as (-> & -> & ->). split_and!; try done.
      * by rewrite (g_released _ _ Hg1), (g_released _ _ Hg0).
      * intros q. by rewrite (g_nodes _ _ Hg1), (g_nodes _ _ Hg0).
  - destruct Hrest as (-> & -> & ->). split_and!; try done.
    + by rewrite (g_released _ _ Hg0).
    + intros q. by rewrite (g_nodes _ _ Hg0).
Qed.


(** ** Creating a view *)

Lemma new_item_Done c d s :
  all_granted s →
  ∃ s', new_item (Some c) d s = Done (Some (fresh (dom (items s)))) s' ∧
        all_granted s' ∧ nodes s' = nodes s ∧ strs s' = strs s ∧
        items s' = <[fresh (dom (items s)) := Item c d None]> (items s).
Proof.
  intros (s1 & Ha & Hg)%alloc_granted_Done.
  pose proof (alloc_granted_inv _ _ _ Ha) as (Hn & Hs & Hi & _).
  unfold new_item. rewrite (bind_Done _ _ _ _ _ Ha).
  unfold bind, get_state, modify, ret. rewrite Hi.
  eexists. split; [done|]. simpl. by rewrite Hi.
Qed.

(** X14: [tree_view_new] returns null when the request for the view is
    refused, and then it has touched nothing.  It returns null as well when
    the view is granted and its item array is refused; the view block and
    the sub-window it has made by then are not objects of the model, and
    nothing is said of the state it leaves.  It returns null in no other
    case, and a view it returns is rooted at the node it was given. *)
Theorem tree_view_new_null (fuel : nat) (root_ : option ptr) (s : state) :
  (∀ o, oracle s = false :: o →
        tree_view_new fuel root_ s = Done None (with_oracle o s)) ∧
  (∀ o, oracle s = true :: false :: o →
        ∃ s', tree_view_new fuel root_ s = Done None s') ∧
  (∀ s', tree_view_new fuel root_ s = Done None s' →
        ∃ o, oracle s = false :: o ∨ oracle s = true :: false :: o) ∧
  (∀ view s', tree_view_new fuel root_ s = Done (Some view) s' →
        root view = root_).
Proof.
  split_and!.
  - intros o Ho. unfold tree_view_new, alloc_granted, bind, ret.
    by rewrite Ho.
  - intros o Ho.
    unfold tree_view_new, talloc_zero_array, alloc_granted, bind, ret.
    rewrite Ho. simpl. by eexists.
  - intros s'. unfold tree_view_new.
    intros (ok & s1 & Ha & H)%bind_inv.
    unfold alloc_granted in Ha.
    destruct (oracle s) as [|[] o] eqn:Ho; simplify_eq/=.
    + apply bind_inv in H as (arr & s2 & Harr & H).
      unfold talloc_zero_array, alloc_granted, bind, ret in Harr.
      rewrite Ho in Harr. simplify_eq/=.
      apply bind_inv in H as (? & ? & _ & H).
      apply bind_inv in H as (? & ? & _ & H).
      apply bind_inv in H as (? & ? & _ & H). done.
    + apply bind_inv in H as (arr & s2 & Harr & H).
      unfold talloc_zero_array, alloc_granted, bind, ret in Harr.
      simpl in Harr. destruct o as [|[] o]; simplify_eq/=.
      * apply bind_inv in H as (? & ? & _ & H).
        apply bind_inv in H as (? & ? & _ & H).
        apply bind_inv in H as (? & ? & _ & H). done.
      * apply bind_inv in H as (? & ? & _ & H).
        apply bind_inv in H as (? & ? & _ & H).
        apply bind_inv in H as (? & ? & _ & H). done.
      * exists o. by right.
    + exists o. by left.
  - intros view s'. unfold tree_view_new.
    intros (ok & s1 & Ha & H)%bind_inv. destruct ok; [|done].
    apply bind_inv in H as ([arr|] & s2 & Harr & H); [|done].
    apply bind_inv in H as (item & s3 & _ & H).
    apply bind_inv in H as (m & s4 & _ & H).
    apply bind_inv in H as ([w v] & s5 & Hupd & H).
    unfold ret in H. simplify_eq/=.
    by apply tree_view_update_root in Hupd as ->.
Qed.

Lemma nexts_same_nodes s s' x l :
  nodes s' = nodes s → nexts s x l → nexts s' x l.
Proof.
  intros Hn. revert x. induction l as [|p l IH]; intros x; simpl; [done|].
  unfold field. rewrite Hn. destruct (nodes s !! p); simpl; [|done].
  intros [-> ?]. auto.
Qed.

Lemma tree_view_update_array_refused fuel view list_ s l o :
  nexts s (if list_ is None then root view else list_) l →
  length l ≤ fuel → oracle s = false :: o →
  tree_view_update fuel view list_ s
  = Done (WERR_NOMEM, view) (with_oracle o s).
Proof.
  intros Hl Hlen Ho. unfold tree_view_update.
  rewrite (bind_Done _ _ _ _ _ (count_next_nexts fuel _ _ _ 0 Hl Hlen)).
  unfold talloc_zero_array, alloc_granted, bind, ret. by rewrite Ho.
Qed.

(** X15: [tree_view_new] drops the result of its update: when the view, its
    array, the placeholder item and the menu have been granted and the array
    of the update is refused, the caller still gets a view, and what it
    shows is the placeholder. *)
Theorem tree_view_new_drops_update_error (fuel : nat) (root_ : option ptr)
    (s : state) (l : list ptr) (o : list bool) :
  oracle s = true :: true :: true :: true :: false :: o →
  nexts s root_ l → length l ≤ fuel →
  ∃ view s' i,
    tree_view_new fuel root_ s = Done (Some view) s' ∧
    root view = root_ ∧
    posted_items view = [i] ∧
    items s !! i = None ∧
    item_text s' i = Some dummy ∧
    item_node s' i = None ∧
    menu view = Some (Menu [Some i; None] false) ∧
    nodes s' = nodes s ∧ strs s' = strs s.
Proof.
  intros Ho Hl Hlen.
  set (i := fresh (dom (items s))).
  set (view := TreeView root_ (Some (Menu [Some i; None] false))
                 (Some [Some i; None])).
  set (s3 := with_items <[i := Item (Static dummy) (Some (Static dummy)) None]>
               (with_oracle (false :: o) s)).
  assert (tree_view_update fuel view root_ s3
          = Done (WERR_NOMEM, view) (with_oracle o s3)) as Hupd.
  { apply (tree_view_update_array_refused _ _ _ _ l); [|done..].
    apply (nexts_same_nodes s); [done|]. by destruct root_. }
  exists view, (with_oracle o s3), i.
  split_and!; [|done|done|apply fresh_item|..].
  - unfold tree_view_new, talloc_zero_array, new_item, new_menu,
      alloc_granted, bind, ret, get_state, modify.
    rewrite Ho. simpl. fold i. fold view.
    match goal with
    | |- context [tree_view_update fuel view root_ ?st] => change st with s3
    end.
    by rewrite Hupd.
  - unfold item_text. simpl. by rewrite lookup_insert_eq.
  - unfold item_node. simpl. by rewrite lookup_insert_eq.
  - done.
  - done.
  - done.
Qed.

Lemma alloc_granted_step s :
  all_granted s →
  ∃ s', alloc_granted s = Done true s' ∧ all_granted s' ∧
        nodes s' = nodes s ∧ strs s' = strs s ∧ items s' = items s.
Proof.
  intros (s' & Ha & Hg)%alloc_granted_Done.
  pose proof (alloc_granted_inv _ _ _ Ha) as (? & ? & ? & _). eauto 10.
Qed.

(** X16: [tree_view_new] when no request is refused, on a root chain that is
    not empty and whose nodes have names the display library accepts and no
    label: it returns a well-formed view rooted at the node it was given,
    whose list has one item per node of the root chain, pointing back to it,
    and whose menu holds that list, un-posted until [tree_view_show] posts
    it; the placeholder item has been given back.  (For a null root the
    library refuses the array of the update, and the menu keeps the
    placeholder.) *)
Theorem tree_view_new_succeeds (fuel : nat) (root_ : option ptr) (s : state)
    (l : list ptr) :
  nexts s root_ l → length l ≤ fuel → l ≠ [] →
  all_granted s → displayable s l → accepted s l → labels_ok s →
  ∃ view s',
    tree_view_new fuel root_ s = Done (Some view) s' ∧
    root view = root_ ∧
    view_ok s' view ∧
    length (posted_items view) = length l ∧
    (∀ k it, posted_items view !! k = Some it →
       ∃ p, l !! k = Some p ∧ item_node s' it = Some p) ∧
    menu view = Some (Menu ((Some <$> posted_items view) ++ [None]) false) ∧
    menu (tree_view_show view)
    = Some (Menu ((Some <$> posted_items view) ++ [None]) true) ∧
    items s' !! fresh (dom (items s)) = None.
Proof.
  intros Hl Hlen _ Hg Hd _ Hlab.
  destruct (alloc_granted_step s Hg) as (s1 & Ha1 & Hg1 & Hn1 & Hs1 & Hi1).
  destruct (alloc_granted_step s1 Hg1) as (s2 & Ha2 & Hg2 & Hn2 & Hs2 & Hi2).
  destruct (new_item_Done (Static dummy) (Some (Static dummy)) s2 Hg2)
    as (s3 & Hit & Hg3 & Hn3 & Hs3 & Hi3).
  destruct (alloc_granted_step s3 Hg3) as (s4 & Ha4 & Hg4 & Hn4 & Hs4 & Hi4).
  assert (fresh (dom (items s2)) = fresh (dom (items s))) as Hi0
    by by rewrite Hi2, Hi1.
  rewrite Hi0 in *. set (i0 := fresh (dom (items s))) in *.
  set (view0 := TreeView root_ (Some (Menu [Some i0; None] false))
                  (Some [Some i0; None])).
  assert (nodes s4 = nodes s) as Hn by congruence.
  assert (strs s4 = strs s) as Hs by congruence.
  assert (items s4 = <[i0 := Item (Static dummy) (Some (Static dummy)) None]>
                       (items s)) as Hi by congruence.
  assert (view_ok s4 view0) as Hview.
  { split.
    - by apply (labels_ok_same s).
    - unfold posted_items. simpl. split.
      + apply NoDup_singleton.
      + intros i ->%list_elem_of_singleton. rewrite Hi, lookup_insert_eq.
        by eexists.
      + intros i p ->%list_elem_of_singleton. unfold item_node.
        by rewrite Hi, lookup_insert_eq.
    - intros arr [= <-]. by exists []. }
  destruct (tree_view_update_run fuel view0 root_ s4 l)
    as (view' & s' & Hrun & Hview' & _ & Hcur & Hlen' & Hnode & Hroot
        & Hmenu & _ & _ & Hgone); try done.
  { apply (nexts_same_nodes s); [done|]. by destruct root_. }
  { intros q Hq. unfold field. rewrite Hn, Hs. by apply Hd. }
  exists view', s'. split_and!; try done.
  - unfold tree_view_new. rewrite (bind_Done _ _ _ _ _ Ha1).
    unfold talloc_zero_array. rewrite bind_assoc, (bind_Done _ _ _ _ _ Ha2).
    unfold ret at 1. unfold bind at 1.
    rewrite (bind_Done _ _ _ _ _ Hit).
    unfold new_menu. rewrite bind_assoc, (bind_Done _ _ _ _ _ Ha4).
    unfold ret at 1. unfold bind at 1.
    change (TreeView root_ _ _) with view0.
    by rewrite (bind_Done _ _ _ _ _ Hrun).
  - unfold tree_view_show. simpl. by rewrite Hmenu.
  - apply Hgone. unfold posted_items. simpl. left.
Qed.


(** ** Releasing a view *)

Lemma links_mod_label s s' prv l nxt :
  (∀ q, set_label None <$> nodes s' !! q = set_label None <$> nodes s !! q) →
  links s prv l nxt → links s' prv l nxt.
Proof.
  intros Hn. apply links_ext. intros q _.
  by rewrite !(field_mod_label _ s s').
Qed.

Lemma tree_ok_mod_label s s' t :
  (∀ q, set_label None <$> nodes s' !! q = set_label None <$> nodes s !! q) →
  tree_ok s t → tree_ok s' t.
Proof.
  intros Hn. induction t as [x a ks IH] using tree_ind2.
  rewrite !tree_ok_unfold. unfold forest_ok.
  rewrite !(field_mod_label _ s s') by done.
  intros (Hnm & Hc & Hl & Hks). split_and!; try done.
  - by apply (links_mod_label s).
  - rewrite Forall_forall in IH, Hks. apply Forall_forall.
    intros k Hk. apply IH; [done|by apply Hks].
Qed.

Lemma forest_ok_mod_label s s' ts :
  (∀ q, set_label None <$> nodes s' !! q = set_label None <$> nodes s !! q) →
  forest_ok s ts → forest_ok s' ts.
Proof.
  intros Hn [Hl Hts]. split; [by apply (links_mod_label s)|].
  rewrite Forall_forall in Hts. apply Forall_forall.
  intros t Ht. apply (tree_ok_mod_label s); [done|by apply Hts].
Qed.

(** X17: [tree_view_free] on a well-formed view over a well-formed forest,
    the root of the view being any node of the root chain: it returns, and
    afterwards every node of the forest, every name, and every item of the
    list on display has been given back, the nodes children first.  When
    only the nodes on display carried a label, no label text is left either. *)
Theorem tree_view_free_releases (fuel : nat) (view : tree_view) (s : state)
    (ls rs : list tree) (t : tree) :
  view_ok s view → root view = Some (t_root t) →
  forest_ok s (reverse ls ++ t :: rs) →
  NoDup (flat_map flat (reverse ls ++ t :: rs)) →
  NoDup (flat_map names (reverse ls ++ t :: rs)) →
  (∀ b, b ∈ flat_map names (reverse ls ++ t :: rs) → is_Some (strs s !! b)) →
  (∀ q a, field label s q = Some (Some a) →
          a ∉ flat_map names (reverse ls ++ t :: rs)) →
  length (flat_map flat (reverse ls ++ t :: rs)) < fuel →
  ∃ s', tree_view_free fuel view s = Done tt s' ∧
    (∀ q, q ∈ flat_map flat (reverse ls ++ t :: rs) → nodes s' !! q = None) ∧
    (∀ b, b ∈ flat_map names (reverse ls ++ t :: rs) → strs s' !! b = None) ∧
    (∀ i, i ∈ posted_items view → items s' !! i = None) ∧
    released s' = released s ++ flat_map post_order (t :: ls ++ rs) ∧
    (label_inv s view →
     ∀ q a, field label s q = Some (Some a) → strs s' !! a = None).
Proof.
  intros Hview Hroot Hok Hnd Hnn Hlive Hsep Hlen.
  set (view1 := set_menu None view).
  assert (view_ok s view1) as Hview1.
  { destruct Hview as [? ? ?]. by split. }
  destruct (view_free_Done view1 s Hview1)
    as (s1 & Hfree & _ & Hsh & _ & _ & _ & Hgone).
  pose proof (λ b, tree_view_free_current_items_strs _ _ _ _ b Hfree) as Hstrs.
  pose proof (tree_view_free_current_items_inv _ _ _ _ Hfree)
    as (_ & _ & Hclr).
  change (posted_items view1) with (posted_items view) in *.
  assert (∀ b, b ∈ flat_map names (reverse ls ++ t :: rs) →
            strs s1 !! b = strs s !! b) as Hnames.
  { intros b Hb. apply Hstrs. intros i p _ _ Hp. by apply (Hsep p b). }
  destruct (free_chain_forest fuel s1 (t :: ls) rs) as (s' & Hrun & Hf).
  1-5: rewrite reverse_cons, <- app_assoc; try done.
  { by apply (forest_ok_mod_label s); [apply Hsh|]. }
  { intros b Hb. rewrite Hnames by done. by apply Hlive. }
  rewrite reverse_cons, <- app_assoc in Hf.
  change ((t :: ls) ++ rs) with (t :: ls ++ rs) in Hf.
  change ([t] ++ rs) with (t :: rs) in Hf.
  change (free_chain fuel (Some (t_root t)) s1 = Done tt s') in Hrun.
  exists s'. split_and!.
  - unfold tree_view_free. fold view1.
    rewrite (bind_Done _ _ _ _ _ Hfree). simpl. rewrite Hroot. exact Hrun.
  - intros q Hq. rewrite (fr_nodes _ _ _ _ _ Hf). by rewrite decide_True.
  - intros b Hb. rewrite (fr_strs _ _ _ _ _ Hf). by rewrite decide_True.
  - intros i Hi. rewrite (fr_items _ _ _ _ _ Hf). by apply Hgone.
  - by rewrite (fr_released _ _ _ _ _ Hf), (sh_released _ _ Hsh).
  - intros Hinv q a Hq. destruct (Hinv q a Hq) as (i & Hi & Hnode).
    destruct (Hclr i q Hi Hnode) as [_ Hnone].
    rewrite (fr_strs _ _ _ _ _ Hf). case_decide; [done|]. by apply Hnone.
Qed.


(** ** Drawing the path of a node *)

Lemma print_path_recursive_Done fuel : ∀ s p l nms,
  parents s (Some p) l → Forall2 (λ q t, node_name s q = Some t) l nms →
  length l ≤ fuel →
  print_path_recursive fuel p s
  = Done ((λ t, wprintw (t +:+ "/")%string) <$> reverse nms) s.
Proof.
  induction fuel as [|fuel IH]; intros s p l nms Hl Hn Hlen.
  { destruct l; simpl in *; [done|lia]. }
  destruct l as [|q l]; [done|]. destruct Hl as [[= <-] Hl].
  apply Forall2_cons_inv_l in Hn as (t & nms' & Ht & Hn & ->).
  simpl in Hlen. cbn [print_path_recursive].
  unfold field in Hl. unfold node_name in Ht.
  destruct (nodes s !! p) as [n|] eqn:Hp; [|done]. simpl in Hl, Ht.
  rewrite (bind_Done _ _ _ _ _ (load_Done _ _ _ Hp)).
  assert ((if parent n is Some par
           then print_path_recursive fuel par else ret []) s
          = Done ((λ t, wprintw (t +:+ "/")%string) <$> reverse nms') s)
    as Habove.
  { destruct (parent n) as [par|].
    - apply (IH s par l nms'); [done|done|lia].
    - destruct l; [|by destruct Hl]. apply Forall2_nil_inv_l in Hn as ->.
      done. }
  rewrite (bind_Done _ _ _ _ _ Habove).
  destruct (name n) as [a|]; [|done]. simpl in Ht.
  unfold bind, read_str, ret. rewrite Ht.
  by rewrite reverse_cons, fmap_app.
Qed.

(** X18: [tree_node_print_path] draws the names of the ancestors of the
    node, from the root down, each followed by "/", after it has cleared the
    line and drawn "/" at its start and gone back to the start; the name of
    the node itself is not drawn and is not read.  For a null node nothing
    is drawn.  The heap is left as it is. *)
Theorem tree_node_print_path_draws (fuel : nat) (s : state) (p : ptr)
    (n : tree_node) (l : list ptr) (nms : list string) :
  nodes s !! p = Some n →
  parents s (parent n) l →
  Forall2 (λ q t, node_name s q = Some t) l nms →
  length l ≤ fuel →
  tree_node_print_path fuel None s = Done [] s ∧
  tree_node_print_path fuel (Some p) s
  = Done ([wmove 0 0; wclrtoeol; wprintw "/"; wmove 0 0] ++
          ((λ t, wprintw (t +:+ "/")%string) <$> reverse nms) ++
          [wnoutrefresh; wrefresh]) s.
Proof.
  intros Hp Hl Hn Hlen. split; [done|].
  unfold tree_node_print_path.
  rewrite (bind_Done _ _ _ _ _ (load_Done _ _ _ Hp)).
  destruct (parent n) as [par|] eqn:Epar.
  - by rewrite (bind_Done _ _ _ _ _
                 (print_path_recursive_Done fuel s par l nms Hl Hn Hlen)).
  - simpl in Hl. destruct l; [|by destruct Hl].
    apply Forall2_nil_inv_l in Hn as ->. done.
Qed.


(** ** The further properties at work on the scenarios *)

Lemma labels_okb_sound s : labels_okb s = true → labels_ok s.
Proof.
  unfold labels_okb. intros H%Is_true_true_2%forallb_True.
  rewrite Forall_forall in H.
  assert (∀ q a, field label s q = Some (Some a) →
            ∃ n, (q, n) ∈ map_to_list (nodes s) ∧ label n = Some a) as Hfield.
  { intros q a. unfold field.
    destruct (nodes s !! q) as [n|] eqn:Eq; [|done].
    intros [= E]. exists n. split; [|done]. by apply elem_of_map_to_list. }
  split.
  - intros q a (n & Hn & Ea)%Hfield.
    apply H in Hn. apply andb_True in Hn as [Hn _]. simpl in Hn.
    rewrite Ea in Hn. by apply bool_decide_unpack in Hn.
  - intros p q a (n & Hn & Ea)%Hfield (m & Hm & Eb)%Hfield.
    apply H in Hn. apply andb_True in Hn as [_ Hn].
    apply forallb_True in Hn. rewrite Forall_forall in Hn.
    specialize (Hn _ Hm). simpl in Hn. rewrite Ea, Eb in Hn. simpl in Hn.
    rewrite bool_decide_eq_true_2 in Hn by done. simpl in Hn.
    by apply bool_decide_unpack in Hn.
Qed.

Ltac in_list H :=
  repeat (let E := fresh in
          apply elem_of_cons in H as [E|H];
          [try discriminate E; try subst|]);
  try (apply elem_of_nil in H; destruct H).

Lemma tree_node_new_spec_witness :
  grants 2 family ∧
  ∃ node a s',
    tree_node_new (Some 1%positive) "c3" family = Done (Some node) s' ∧
    nodes s' !! node = Some (TreeNode (Some a) None (Some 1%positive)
                               None None None) ∧
    field child_head s' 1 = Some (Some 2%positive).
Proof.
  assert (grants 2 family) as Hg by reflexivity.
  split; [exact Hg|].
  destruct (tree_node_new_spec (Some 1%positive) "c3" family Hg)
    as (node & a & s' & Hnew & _ & _ & Hnode & _ & _ & Hpar & _).
  { intros p [= <-]. vm_compute. by eexists. }
  exists node, a, s'. split; [exact Hnew|]. split; [exact Hnode|].
  unfold field.
  rewrite (Hpar 1%positive
             (TreeNode (Some 1%positive) None None (Some 2%positive) None None)
             eq_refl); [reflexivity|].
  vm_compute. reflexivity.
Defined.

Lemma tree_node_new_starts_chain_witness :
  grants 2 empty_state ∧
  ∃ r s', tree_node_new None "a" empty_state = Done (Some r) s' ∧
          headed r None s' [r] ∧ node_name s' r = Some "a"%string.
Proof.
  assert (grants 2 empty_state) as Hg by reflexivity.
  split; [exact Hg|].
  destruct (tree_node_new_starts_chain None "a" empty_state Hg)
    as (r & s' & Hnew & _ & Hh & Hnm); [done|].
  exists r, s'. split; [exact Hnew|]. split; [exact Hh|exact Hnm].
Defined.

Lemma tree_node_append_splice_witness :
  chain brood23 [2; 3]%positive ∧
  ∃ s', tree_node_append 2 4 brood23 = Done tt s' ∧
        chain s' [2; 4; 3]%positive.
Proof.
  assert (chain brood23 ([] ++ 2%positive :: [3%positive])) as Hc by concrete.
  split; [exact Hc|].
  destruct (tree_node_append_splice brood23 [] [3%positive] 2 4 Hc)
    as (s' & Happ & Hc' & _).
  - intros H. in_list H.
  - vm_compute. reflexivity.
  - vm_compute. reflexivity.
  - exists s'. split; [exact Happ|exact Hc'].
Defined.

Lemma tree_node_append_joins_witness :
  chain brood23 [2; 3]%positive ∧ chain brood23 [4%positive] ∧
  ∃ s', tree_node_append 3 4 brood23 = Done tt s' ∧
        chain s' [2; 3; 4]%positive.
Proof.
  assert (chain brood23 ([2%positive] ++ [3%positive])) as Hc1 by concrete.
  assert (chain brood23 [4%positive]) as Hc2 by concrete.
  split; [exact Hc1|]. split; [exact Hc2|].
  destruct (tree_node_append_joins brood23 [2%positive] [] 3 4 Hc1 Hc2)
    as (s' & Happ & Hc' & _).
  - intros q Hq Hq'. in_list Hq; in_list Hq'.
  - exists s'. split; [exact Happ|exact Hc'].
Defined.

Lemma pop_then_append_restores_witness :
  chain family [2; 3]%positive ∧
  ∃ s1, tree_node_pop (Some 3%positive) family
        = Done (Some 3%positive, Some 2%positive) s1 ∧
        chain s1 [2%positive] ∧
        tree_node_append 2 3 s1 = Done tt family.
Proof.
  assert (chain family ([] ++ 2%positive :: 3%positive :: [])) as Hc by concrete.
  split; [exact Hc|].
  exact (pop_then_append_restores family [] [] 2 3 Hc).
Defined.

Lemma append_then_pop_restores_witness :
  chain brood23 [2; 3]%positive ∧
  ∃ s1, tree_node_append 2 4 brood23 = Done tt s1 ∧
        chain s1 [2; 4; 3]%positive ∧
        tree_node_pop (Some 4%positive) s1
        = Done (Some 4%positive, Some 2%positive) brood23.
Proof.
  assert (chain brood23 ([] ++ 2%positive :: [3%positive])) as Hc by concrete.
  split; [exact Hc|].
  apply (append_then_pop_restores brood23 [] [3%positive] 2 4 Hc).
  - intros H. in_list H.
  - vm_compute. reflexivity.
  - vm_compute. reflexivity.
Defined.

Lemma add_after_keeps_head_witness :
  headed 2 (Some 1%positive) family [2; 3]%positive ∧
  ∃ r s', add_after (Some 1%positive) 3 "c3" family = Done (Some r) s' ∧
          headed 2 (Some 1%positive) s' [2; 3; r]%positive ∧
          tree_node_first 5 (Some r) s' = Done (Some 2%positive) s'.
Proof.
  assert (headed 2 (Some 1%positive) family [2; 3]%positive) as Hh.
  { split; [concrete|]. split; [reflexivity|]. split.
    - intros x Hx. in_list Hx; vm_compute; reflexivity.
    - intros p [= <-]. vm_compute. reflexivity. }
  split; [exact Hh|].
  destruct (add_after_keeps_head 2 (Some 1%positive) family [2; 3]%positive
              3 "c3" 5 Hh)
    as (r & s' & Hrun & Hfr & Hh' & _ & Hfirst).
  - right. left.
  - reflexivity.
  - simpl. lia.
  - change (insert_after 3 r [2; 3]%positive) with [2; 3; r]%positive
      in Hh', Hfirst.
    exists r, s'. split; [exact Hrun|]. split; [exact Hh'|].
    apply Hfirst. right. right. left.
Defined.

Lemma tree_node_free_spec_witness :
  nodes lone !! 1%positive
  = Some (TreeNode (Some 1%positive) None None None None None) ∧
  ∃ s', tree_node_free 1 lone = Done tt s' ∧
        nodes s' !! 1%positive = None ∧ strs s' !! 1%positive = None ∧
        released s' = [1%positive].
Proof.
  assert (nodes lone !! 1%positive
          = Some (TreeNode (Some 1%positive) None None None None None)) as Hn
    by (vm_compute; reflexivity).
  split; [exact Hn|].
  destruct (tree_node_free_spec lone 1 _ Hn) as (s' & Hfree & Hfr & _).
  { intros a [= <-]. vm_compute. by eexists. }
  exists s'. split; [exact Hfree|]. split_and!.
  - rewrite (fr_nodes _ _ _ _ _ Hfr). reflexivity.
  - rewrite (fr_strs _ _ _ _ _ Hfr). reflexivity.
  - rewrite (fr_released _ _ _ _ _ Hfr). reflexivity.
Defined.

Lemma items_ok_abc0 : items_ok abc0 [1%positive].
Proof.
  split.
  - apply NoDup_singleton.
  - intros i Hi. in_list Hi. vm_compute. by eexists.
  - intros i p Hi Hp. in_list Hi. vm_compute in Hp. discriminate.
Qed.

Lemma items_ok_abc1 : items_ok abc1 [2; 3; 4]%positive.
Proof.
  split.
  - compute_done.
  - intros i Hi. in_list Hi; vm_compute; by eexists.
  - intros i p Hi Hp. in_list Hi; vm_compute in Hp; injection Hp as <-;
      vm_compute; by eexists.
Qed.

Lemma view_ok_abc0 : view_ok abc0 (showing [1%positive]).
Proof.
  split.
  - apply labels_okb_sound. vm_compute. reflexivity.
  - exact items_ok_abc0.
  - intros arr [= <-]. by exists [].
Qed.

Lemma view_ok_abc1 : view_ok abc1 (showing [2; 3; 4]%positive).
Proof.
  split.
  - apply labels_okb_sound. vm_compute. reflexivity.
  - exact items_ok_abc1.
  - intros arr [= <-]. by exists [].
Qed.

Lemma displayable_abc0 : displayable abc0 [1; 2; 3]%positive.
Proof.
  intros q Hq. in_list Hq.
  - split; [exists 1%positive; split; [reflexivity|vm_compute; by eexists]|].
    intros Hc. by vm_compute in Hc.
  - split; [exists 2%positive; split; [reflexivity|vm_compute; by eexists]|].
    intros _. vm_compute. reflexivity.
  - split; [exists 3%positive; split; [reflexivity|vm_compute; by eexists]|].
    intros Hc. by vm_compute in Hc.
Qed.

Lemma tree_view_free_current_items_spec_witness :
  off_menu (set_menu None (showing [2; 3; 4]%positive)) [2; 3; 4]%positive ∧
  items_ok abc1 [2; 3; 4]%positive ∧ labels_ok abc1 ∧
  field label abc1 2 = Some (Some 5%positive) ∧
  ∃ s', tree_view_free_current_items
          (set_menu None (showing [2; 3; 4]%positive)) abc1
        = Done (set_current_items None
                  (set_menu None (showing [2; 3; 4]%positive))) s' ∧
        items s' !! 3%positive = None ∧
        field label s' 2 = Some None ∧
        strs s' !! 5%positive = None.
Proof.
  assert (off_menu (set_menu None (showing [2; 3; 4]%positive))
            [2; 3; 4]%positive) as Hoff.
  { intros m i Hm. discriminate Hm. }
  pose proof items_ok_abc1 as Hok.
  pose proof (vo_labels _ _ view_ok_abc1) as Hlab.
  assert (field label abc1 2 = Some (Some 5%positive)) as Hl
    by (vm_compute; reflexivity).
  split; [exact Hoff|].
  split; [exact Hok|]. split; [exact Hlab|]. split; [exact Hl|].
  destruct (tree_view_free_current_items_spec
              (set_menu None (showing [2; 3; 4]%positive))
              abc1 [2; 3; 4]%positive [] eq_refl Hoff Hok Hlab)
    as (s' & Hrun & _ & Hitems & Hclr & _).
  exists s'. split; [exact Hrun|].
  destruct (Hclr 3%positive 2%positive) as [Hnull Hgone].
  { right. left. }
  { vm_compute. reflexivity. }
  split_and!.
  - rewrite Hitems. reflexivity.
  - exact Hnull.
  - apply Hgone. exact Hl.
Defined.

Lemma accepted_abc0 : accepted abc0 [1; 2; 3]%positive.
Proof.
  intros q Hq. in_list Hq.
  - exists "a"%string. split; vm_compute; reflexivity.
  - exists "b"%string. split; vm_compute; reflexivity.
  - exists "c"%string. split; vm_compute; reflexivity.
Qed.

Lemma tree_view_update_succeeds_witness :
  nexts abc0 (Some 1%positive) [1; 2; 3]%positive ∧
  all_granted abc0 ∧ displayable abc0 [1; 2; 3]%positive ∧
  accepted abc0 [1; 2; 3]%positive ∧
  view_ok abc0 (showing [1%positive]) ∧
  ∃ view' s',
    tree_view_update 5 (showing [1%positive]) (Some 1%positive) abc0
    = Done (WERR_OK, view') s' ∧
    view_ok s' view' ∧ length (posted_items view') = 3 ∧
    items s' !! 1%positive = None.
Proof.
  assert (nexts abc0 (Some 1%positive) [1; 2; 3]%positive) as Hl by concrete.
  assert (all_granted abc0) as Hg by reflexivity.
  pose proof displayable_abc0 as Hd. pose proof view_ok_abc0 as Hv.
  pose proof accepted_abc0 as Hacc.
  split; [exact Hl|]. split; [exact Hg|]. split; [exact Hd|].
  split; [exact Hacc|]. split; [exact Hv|].
  destruct (tree_view_update_succeeds 5 (showing [1%positive])
              (Some 1%positive) abc0 [1; 2; 3]%positive Hl)
    as (view' & s' & Hrun & Hv' & _ & _ & Hlen & _ & _ & _ & Hgone);
    [simpl; lia|discriminate|exact Hg|exact Hd|exact Hacc|exact Hv|].
  exists view', s'. split; [exact Hrun|]. split; [exact Hv'|].
  split; [exact Hlen|]. apply Hgone. left.
Defined.

Lemma tree_view_update_asserts_label_witness :
  nexts abc1 (Some 1%positive) [1; 2; 3]%positive ∧
  field child_head abc1 2 = Some (Some 4%positive) ∧
  field label abc1 2 = Some (Some 5%positive) ∧
  tree_view_update 5 (showing [2; 3; 4]%positive) (Some 1%positive) abc1
  = Panic.
Proof.
  assert (nexts abc1 (Some 1%positive) ([1%positive] ++ 2%positive ::
            [3%positive])) as Hl by concrete.
  assert (field child_head abc1 2 = Some (Some 4%positive)) as Hc
    by (vm_compute; reflexivity).
  assert (field label abc1 2 = Some (Some 5%positive)) as Ha
    by (vm_compute; reflexivity).
  split; [exact Hl|]. split; [exact Hc|]. split; [exact Ha|].
  apply (tree_view_update_asserts_label 5 (showing [2; 3; 4]%positive)
           (Some 1%positive) abc1 [1%positive] [3%positive] 2 4 5 Hl).
  - simpl. lia.
  - reflexivity.
  - intros q Hq. in_list Hq. vm_compute. reflexivity.
  - exact Hc.
  - exact Ha.
Defined.

Lemma tree_view_update_twice_asserts_witness :
  nexts abc0 (Some 1%positive) [1; 2; 3]%positive ∧
  field child_head abc0 2 = Some (Some 4%positive) ∧
  ∃ view' s',
    tree_view_update 5 (showing [1%positive]) (Some 1%positive) abc0
    = Done (WERR_OK, view') s' ∧
    tree_view_update 5 view' (Some 1%positive) s' = Panic.
Proof.
  assert (nexts abc0 (Some 1%positive) [1; 2; 3]%positive) as Hl by concrete.
  assert (field child_head abc0 2 = Some (Some 4%positive)) as Hc
    by (vm_compute; reflexivity).
  split; [exact Hl|]. split; [exact Hc|].
  apply (tree_view_update_twice_asserts 5 (showing [1%positive])
           (Some 1%positive) abc0 [1; 2; 3]%positive 2 Hl).
  - simpl. lia.
  - reflexivity.
  - exact displayable_abc0.
  - exact view_ok_abc0.
  - right. left.
  - rewrite Hc. discriminate.
  - intros i q Hi Hq. in_list Hi. vm_compute in Hq. discriminate.
Defined.

Lemma tree_view_update_frame_witness :
  tree_view_update 5 (showing [1%positive]) (Some 1%positive) abc0
  = Done (WERR_OK, showing [2; 3; 4]%positive) abc1 ∧
  released abc1 = released abc0 ∧
  field child_head abc1 2 = field child_head abc0 2.
Proof.
  assert (tree_view_update 5 (showing [1%positive]) (Some 1%positive) abc0
          = Done (WERR_OK, showing [2; 3; 4]%positive) abc1) as H
    by (vm_compute; reflexivity).
  split; [exact H|].
  destruct (tree_view_update_frame 5 _ _ _ _ _ _ H) as (_ & Hr & Hn & _).
  split; [exact Hr|].
  apply (field_mod_label child_head abc0 abc1 2);
    [intros n; reflexivity|exact Hn].
Defined.

Lemma displayable_abc : displayable abc [1; 2; 3]%positive.
Proof.
  intros q Hq. in_list Hq.
  - split; [exists 1%positive; split; [reflexivity|vm_compute; by eexists]|].
    intros Hc. by vm_compute in Hc.
  - split; [exists 2%positive; split; [reflexivity|vm_compute; by eexists]|].
    intros _. vm_compute. reflexivity.
  - split; [exists 3%positive; split; [reflexivity|vm_compute; by eexists]|].
    intros Hc. by vm_compute in Hc.
Qed.

Lemma tree_view_new_drops_update_error_witness :
  nexts abc (Some 1%positive) [1; 2; 3]%positive ∧
  ∃ view s' i,
    tree_view_new 5 (Some 1%positive)
      (with_oracle [true; true; true; true; false] abc)
    = Done (Some view) s' ∧
    posted_items view = [i] ∧ item_text s' i = Some dummy.
Proof.
  assert (nexts (with_oracle [true; true; true; true; false] abc)
            (Some 1%positive) [1; 2; 3]%positive) as Hl by concrete.
  split; [concrete|].
  destruct (tree_view_new_drops_update_error 5 (Some 1%positive)
              (with_oracle [true; true; true; true; false] abc)
              [1; 2; 3]%positive [] eq_refl Hl)
    as (view & s' & i & Hrun & _ & Hposted & _ & Htext & _).
  { simpl. lia. }
  exists view, s', i. split; [exact Hrun|]. split; [exact Hposted|exact Htext].
Defined.

Lemma accepted_abc : accepted abc [1; 2; 3]%positive.
Proof.
  intros q Hq. in_list Hq.
  - exists "a"%string. split; vm_compute; reflexivity.
  - exists "b"%string. split; vm_compute; reflexivity.
  - exists "c"%string. split; vm_compute; reflexivity.
Qed.

Lemma tree_view_new_succeeds_witness :
  nexts abc (Some 1%positive) [1; 2; 3]%positive ∧
  all_granted abc ∧ displayable abc [1; 2; 3]%positive ∧
  accepted abc [1; 2; 3]%positive ∧ labels_ok abc ∧
  ∃ view s',
    tree_view_new 5 (Some 1%positive) abc = Done (Some view) s' ∧
    root view = Some 1%positive ∧
    length (posted_items view) = 3 ∧
    menu_posted <$> menu (tree_view_show view) = Some true.
Proof.
  assert (nexts abc (Some 1%positive) [1; 2; 3]%positive) as Hl by concrete.
  assert (all_granted abc) as Hg by reflexivity.
  pose proof displayable_abc as Hd. pose proof accepted_abc as Hacc.
  assert (labels_ok abc) as Hlab
    by (apply labels_okb_sound; vm_compute; reflexivity).
  split; [exact Hl|]. split; [exact Hg|]. split; [exact Hd|].
  split; [exact Hacc|]. split; [exact Hlab|].
  destruct (tree_view_new_succeeds 5 (Some 1%positive) abc
              [1; 2; 3]%positive Hl)
    as (view & s' & Hrun & Hroot & _ & Hlen & _ & _ & Hshow & _);
    [simpl; lia|discriminate|exact Hg|exact Hd|exact Hacc|exact Hlab|].
  exists view, s'. split; [exact Hrun|]. split; [exact Hroot|].
  split; [exact Hlen|]. rewrite Hshow. reflexivity.
Defined.

Lemma forest_ok_abc1 : forest_ok abc1 abc_forest.
Proof. split; [vm_compute; done|]. repeat constructor; vm_compute; done. Qed.

Lemma tree_view_free_releases_witness :
  view_ok abc1 (showing [2; 3; 4]%positive) ∧
  forest_ok abc1 abc_forest ∧
  field label abc1 2 = Some (Some 5%positive) ∧
  ∃ s', tree_view_free 10 (showing [2; 3; 4]%positive) abc1 = Done tt s' ∧
        nodes s' !! 4%positive = None ∧
        items s' !! 3%positive = None ∧
        strs s' !! 2%positive = None ∧
        released s' = [1; 4; 2; 3]%positive.
Proof.
  pose proof view_ok_abc1 as Hv. pose proof forest_ok_abc1 as Hf.
  assert (field label abc1 2 = Some (Some 5%positive)) as Hlab
    by (vm_compute; reflexivity).
  split; [exact Hv|]. split; [exact Hf|]. split; [exact Hlab|].
  destruct (tree_view_free_releases 10 (showing [2; 3; 4]%positive) abc1 []
              [Tree 2 (Some 2%positive) [Tree 4 (Some 4%positive) []];
               Tree 3 (Some 3%positive) []]
              (Tree 1 (Some 1%positive) []) Hv eq_refl Hf)
    as (s' & Hrun & Hnodes & Hnames & Hitems & Hrel & _).
  - compute_done.
  - compute_done.
  - intros b Hb. simpl in Hb. in_list Hb; vm_compute; by eexists.
  - intros q a Hq Ha. simpl in Ha.
    assert (map_Forall (λ _ n, label n = None ∨ label n = Some 5%positive)
              (nodes abc1)) as Hall by compute_done.
    apply field_Some in Hq as (n & Hn & Hl).
    destruct (Hall q n Hn) as [E|E]; rewrite E in Hl;
      [discriminate Hl|injection Hl as <-].
    in_list Ha.
  - simpl. lia.
  - exists s'. split; [exact Hrun|]. split_and!.
    + apply Hnodes. simpl. right. right. left.
    + apply Hitems. right. left.
    + apply Hnames. simpl. right. left.
    + rewrite Hrel. reflexivity.
Defined.

Lemma tree_node_print_path_draws_witness :
  parents abc (Some 2%positive) [2%positive] ∧
  tree_node_print_path 3 (Some 4%positive) abc
  = Done [wmove 0 0; wclrtoeol; wprintw "/"; wmove 0 0; wprintw "b/";
          wnoutrefresh; wrefresh] abc.
Proof.
  assert (parents abc (Some 2%positive) [2%positive]) as Hp.
  { split; [reflexivity|]. vm_compute. reflexivity. }
  split; [exact Hp|].
  refine (proj2 (tree_node_print_path_draws 3 abc 4
                   (TreeNode (Some 4%positive) None (Some 2%positive)
                      None None None)
                   [2%positive] ["b"%string] _ Hp _ _)).
  - vm_compute. reflexivity.
  - repeat constructor.
  - simpl. lia.
Defined.

Lemma tree_node_free_recursive_texts_witness :
  forest_ok abc1 abc_forest ∧
  field label abc1 2 = Some (Some 5%positive) ∧
  ∃ s', tree_node_free_recursive 10 (Some 1%positive) abc1 = Done tt s' ∧
        nodes s' !! 2%positive = None ∧
        strs s' !! 2%positive = None ∧
        strs s' !! 5%positive = Some "+b"%string.
Proof.
  pose proof forest_ok_abc1 as Hf.
  assert (field label abc1 2 = Some (Some 5%positive)) as Hlab
    by (vm_compute; reflexivity).
  split; [exact Hf|]. split; [exact Hlab|].
  destruct (tree_node_free_recursive_texts abc1 []
              [Tree 2 (Some 2%positive) [Tree 4 (Some 4%positive) []];
               Tree 3 (Some 3%positive) []]
              (Tree 1 (Some 1%positive) []) 10 Hf)
    as (s' & Hrun & Hnames & _ & Hleak & _).
  - compute_done.
  - compute_done.
  - intros b Hb. simpl in Hb. in_list Hb; vm_compute; by eexists.
  - simpl. lia.
  - exists s'. split; [exact Hrun|].
    destruct (Hleak 2%positive 5%positive) as [Hgone Hkept].
    + simpl. right. left.
    + exact Hlab.
    + simpl. intros Hin. in_list Hin.
    + split; [exact Hgone|]. split.
      * apply Hnames. simpl. right. left.
      * rewrite Hkept. vm_compute. reflexivity.
Defined.
